(** * Jzero: time reference, ephemeris lookup, Kepler propagation and houses

    A shallow embedding of the astronomical core of the Jzero astrology
    engine (julianDay.js, time-corrections.js, ephemeris-browser.js,
    planets.js, moon-calculator.js, houses.js, calculator-calibrated.js,
    calculator.js).

    Number model.  A JavaScript number is modelled as an exact rational
    ([Q]): [+], [-], [*], [/], [%], [Math.floor] and [Math.abs] are the exact
    operations that an IEEE-754 double rounds.  Equality of numbers is
    [Qeq] ([==]).  NaN and the infinities have no counterpart; where the
    source can only reach them through an absent ([undefined]) field, the
    field is an [option] and the NaN path is written out.  A division by
    zero, an infinity or NaN in JavaScript, is 0 in [Q]; the sources guard
    it ([lerp]) or cannot reach it (an eccentricity below 1).  The
    transcendental functions of [Math] are an interface ([MathLib]) that
    every definition using them takes as a parameter.

    Rounding.  The model does not round.  A property that would not
    survive the rounding of doubles is therefore stated where rounding
    cannot change the outcome: on whole numbers, quarter hours and
    remainders of non-negative numbers, which doubles compute exactly; at
    a margin from the boundary of a range; as an equation between the
    same operations in the same order; or, for the round trip of a date,
    for every Julian Day less than one second away from the exact one.
    Bounds on a Julian Day, a latitude or a longitude keep the source
    away from overflow.

    Tables.  An object used as a look-up table is the [gmap] of its own
    properties; the names that a JavaScript object inherits
    ([constructor], [toString]) are not body names of the model. *)

From Stdlib Require Import QArith Qround Qabs ZArith List Bool Lia Lqa.
From Stdlib Require Import Sorting.Sorted.
From stdpp Require Import gmap strings.

Import ListNotations.
Local Open Scope Q_scope.

(** ** JavaScript number primitives *)

Module Js.

(** [a < b], [a <= b] and [a === b] on numbers, as booleans. *)
Definition ltb (a b : Q) : bool := negb (Qle_bool b a).
Definition leb (a b : Q) : bool := Qle_bool a b.
Definition eqb (a b : Q) : bool := Qeq_bool a b.

(** [Math.floor], [Math.abs]. *)
Definition floor (x : Q) : Q := inject_Z (Qfloor x).
Definition abs (x : Q) : Q := Qabs x.

(** Rounding toward zero, the quotient that [%] uses. *)
Definition trunc (x : Q) : Z := Z.quot (Qnum x) (Zpos (Qden x)).

(** [a % b]: the remainder has the sign of the dividend. *)
Definition rem (a b : Q) : Q := a - b * inject_Z (trunc (a / b)).

(** Truthiness of a number that may be [undefined]: [undefined] and [0]
    are falsy. *)
Definition truthy (x : option Q) : bool :=
  match x with
  | Some v => negb (eqb v 0)
  | None => false
  end.

(** [x || d] on a number that may be [undefined]. *)
Definition orDefault (x : option Q) (d : Q) : Q :=
  match x with
  | Some v => if eqb v 0 then d else v
  | None => d
  end.

(** [l.sort((a, b) => key(a) - key(b))]: the sort is stable, so its result
    is the one of insertion from the right. *)
Fixpoint insertBy {A : Type} (key : A -> Q) (x : A) (l : list A) : list A :=
  match l with
  | [] => [x]
  | y :: l' => if leb (key x) (key y) then x :: l else y :: insertBy key x l'
  end.

Definition sortBy {A : Type} (key : A -> Q) (l : list A) : list A :=
  fold_right (insertBy key) [] l.

(** [a[i]] for a number [i]: [undefined] unless [i] is an integer index of
    the array. *)
Definition index {A : Type} (a : list A) (i : Q) : option A :=
  if eqb (floor i) i && leb 0 i then nth_error a (Z.to_nat (Qfloor i))
  else None.

(** The order of a sort by [key]. *)
Definition keyLe {A : Type} (key : A -> Q) (a b : A) : Prop := key a <= key b.

(** Whether a value that may be [null] or [undefined] is there. *)
Definition defined {A : Type} (x : option A) : bool :=
  match x with
  | Some _ => true
  | None => false
  end.

End Js.

(** The part of [Math] that is not exact rational arithmetic. *)
Class MathLib : Type := {
  sin : Q -> Q;
  cos : Q -> Q;
  tan : Q -> Q;
  atan2 : Q -> Q -> Q;
  sqrt : Q -> Q;
  PI : Q
}.

(** ** Exceptions

    A function that can [throw] returns [Result]: the error, or the value. *)

Inductive Error : Type :=
| UnknownPlanet (planet : string)
| EphemerisUnavailable (minDate maxDate : option string)
| TypeError (message : string).

Definition Result (A : Type) : Type := Error + A.

Definition ret {A : Type} (a : A) : Result A := inr a.
Definition throw {A : Type} (e : Error) : Result A := inl e.

Definition bind {A B : Type} (r : Result A) (k : A -> Result B) : Result B :=
  match r with
  | inl e => inl e
  | inr a => k a
  end.

Notation "'try' x <- r ; k" := (bind r (fun x => k))
  (at level 10, x name, r at level 100, k at level 200,
   format "'[v' 'try'  x  <-  r ; '/' k ']'").

(** [l.map(f)] for a callback that can throw: the first exception ends the
    traversal. *)
Fixpoint mapM {A B : Type} (f : A -> Result B) (l : list A) : Result (list B) :=
  match l with
  | [] => ret []
  | a :: l' => try b <- f a; try bs <- mapM f l'; ret (b :: bs)
  end.

(** A first-order rational instance (small-angle approximations), used to
    run the definitions on concrete inputs.  No theorem depends on its
    accuracy. *)
Definition smallAngleMath : MathLib :=
  {| sin := fun x => x;
     cos := fun x => 1 - x * x / 2;
     tan := fun x => x;
     atan2 := fun y x => if Qeq_bool x 0 then 0 else y / x;
     sqrt := fun x => (1 + x) / 2;
     PI := 355 # 113 |}.

(** ** time-corrections.js *)

Module TimeCorrections.

(** [calculateDeltaT(year)]: the Espenak-Meeus piecewise polynomial.  The
    outer [t = (y - 2000) / 100] of the source is never read and is left
    out. *)
Definition calculateDeltaT (year : Q) : Q :=
  let y := year in
  if Js.ltb y (-500) then
    let u := (y - 1820) / 100 in
    -20 + 32 * u * u
  else if Js.ltb y 500 then
    let u := y / 100 in
    10583.6 - 1014.41 * u + 33.78311 * u * u - 5.952053 * u * u * u
    - 0.1798452 * u * u * u * u + 0.022174192 * u * u * u * u * u
    + 0.0090316521 * u * u * u * u * u * u
  else if Js.ltb y 1600 then
    let u := (y - 1000) / 100 in
    1574.2 - 556.01 * u + 71.23472 * u * u + 0.319781 * u * u * u
    - 0.8503463 * u * u * u * u - 0.005050998 * u * u * u * u * u
    + 0.0083572073 * u * u * u * u * u * u
  else if Js.ltb y 1700 then
    let t := y - 1600 in
    120 - 0.9808 * t - 0.01532 * t * t + t * t * t / 7129
  else if Js.ltb y 1800 then
    let t := y - 1700 in
    8.83 + 0.1603 * t - 0.0059285 * t * t + 0.00013336 * t * t * t
    - t * t * t * t / 1174000
  else if Js.ltb y 1860 then
    let t := y - 1800 in
    13.72 - 0.332447 * t + 0.0068612 * t * t + 0.0041116 * t * t * t
    - 0.00037436 * t * t * t * t + 0.0000121272 * t * t * t * t * t
    - 0.0000001699 * t * t * t * t * t * t
    + 0.000000000875 * t * t * t * t * t * t * t
  else if Js.ltb y 1900 then
    let t := y - 1860 in
    7.62 + 0.5737 * t - 0.251754 * t * t + 0.01680668 * t * t * t
    - 0.0004473624 * t * t * t * t + t * t * t * t * t / 233174
  else if Js.ltb y 1920 then
    let t := y - 1900 in
    -2.79 + 1.494119 * t - 0.0598939 * t * t + 0.0061966 * t * t * t
    - 0.000197 * t * t * t * t
  else if Js.ltb y 1941 then
    let t := y - 1920 in
    21.20 + 0.84493 * t - 0.076100 * t * t + 0.0020936 * t * t * t
  else if Js.ltb y 1961 then
    let t := y - 1950 in
    29.07 + 0.407 * t - t * t / 233 + t * t * t / 2547
  else if Js.ltb y 1986 then
    let t := y - 1975 in
    45.45 + 1.067 * t - t * t / 260 - t * t * t / 718
  else if Js.ltb y 2005 then
    let t := y - 2000 in
    63.86 + 0.3345 * t - 0.060374 * t * t + 0.0017275 * t * t * t
    + 0.000651814 * t * t * t * t + 0.00002373599 * t * t * t * t * t
  else if Js.ltb y 2050 then
    let t := y - 2000 in
    62.92 + 0.32217 * t + 0.005589 * t * t
  else if Js.ltb y 2150 then
    -20 + 32 * ((y - 1820) / 100) * ((y - 1820) / 100)
    - 0.5628 * (2150 - y)
  else
    let u := (y - 1820) / 100 in
    -20 + 32 * u * u.

(** The years at which [calculateDeltaT] changes segment. *)
Definition segmentBoundaries : list Q :=
  [-500; 500; 1600; 1700; 1800; 1860; 1900; 1920; 1941; 1961; 1986; 2005;
   2050; 2150].

(** The jump at a boundary [B]: the value one thousandth of a year below
    [B] (1899.999 for 1900) against the value at [B]. *)
Definition boundaryJump (B : Q) : Q :=
  Js.abs (calculateDeltaT (B - 0.001) - calculateDeltaT B).

(** [utcToTT(jd_utc, year)] and [ttToUTC(jd_tt, year)]. *)
Definition utcToTT (jd_utc year : Q) : Q :=
  let deltaT := calculateDeltaT year in
  let deltaT_days := deltaT / 86400.0 in
  jd_utc + deltaT_days.

Definition ttToUTC (jd_tt year : Q) : Q :=
  let deltaT := calculateDeltaT year in
  let deltaT_days := deltaT / 86400.0 in
  jd_tt - deltaT_days.

(** The object returned by [localToUTC].  [day] is [undefined] ([None])
    when it was read from [daysInMonth] at an index outside the array;
    [minute] and [second] are passed through as they came. *)
Record UtcTime : Type := {
  year : Q;
  month : Q;
  day : option Q;
  hour : Q;
  minute : option Q;
  second : option Q
}.

(** The [daysInMonth] table of [localToUTC], after the leap-year
    assignment [daysInMonth[1] = 29]. *)
Definition daysInMonth (utcYear : Q) : list Q :=
  let leap :=
    Js.eqb (Js.rem utcYear 4) 0
    && (negb (Js.eqb (Js.rem utcYear 100) 0)
        || Js.eqb (Js.rem utcYear 400) 0) in
  [31; if leap then 29 else 28; 31; 30; 31; 30; 31; 31; 30; 31; 30; 31].

(** [localToUTC(year, month, day, hour, minute, second, timezoneOffset)].
    A comparison with [undefined] is false. *)
Definition localToUTC (year month day hour : Q) (minute second : option Q)
    (timezoneOffset : Q) : UtcTime :=
  let utcHour := hour - timezoneOffset in
  let '(utcDay, utcHour) :=
    if Js.leb 24 utcHour then (day + 1, utcHour - 24)
    else if Js.ltb utcHour 0 then (day - 1, utcHour + 24)
    else (day, utcHour) in
  let daysInMonth := daysInMonth year in
  let overflow :=
    match Js.index daysInMonth (month - 1) with
    | Some days => Js.ltb days utcDay
    | None => false
    end in
  let '(utcYear, utcMonth, utcDay) :=
    if overflow then
      let utcMonth := month + 1 in
      if Js.ltb 12 utcMonth then (year + 1, 1, Some 1)
      else (year, utcMonth, Some 1)
    else if Js.ltb utcDay 1 then
      let utcMonth := month - 1 in
      let '(utcYear, utcMonth) :=
        if Js.ltb utcMonth 1 then (year - 1, 12) else (year, utcMonth) in
      (utcYear, utcMonth, Js.index daysInMonth (utcMonth - 1))
    else (year, month, Some utcDay) in
  {| year := utcYear;
     month := utcMonth;
     day := utcDay;
     hour := Js.floor utcHour;
     minute := minute;
     second := second |}.

End TimeCorrections.

(** ** julianDay.js *)

Module JulianDay.

(** [normalizeAngle(angle)]. *)
Definition normalizeAngle (angle : Q) : Q :=
  let normalized := Js.rem angle 360 in
  if Js.ltb normalized 0 then normalized + 360 else normalized.

Definition degreesToRadians `{MathLib} (degrees : Q) : Q :=
  degrees * PI / 180.

Definition radiansToDegrees `{MathLib} (radians : Q) : Q :=
  radians * 180 / PI.

(** [dateToJulianDay(year, month, day, hour, minute, second)] (UTC). *)
Definition dateToJulianDay (year month day hour minute second : Q) : Q :=
  let decimalDay := day + (hour + (minute + second / 60) / 60) / 24 in
  let (y, m) :=
    if Js.leb month 2 then (year - 1, month + 12) else (year, month) in
  let A := Js.floor (y / 100) in
  let B := 2 - A + Js.floor (A / 4) in
  Js.floor (365.25 * (y + 4716)) + Js.floor (30.6001 * (m + 1))
  + decimalDay + B - 1524.5.

(** The object returned by [dateToJulianDayTT]. *)
Record JulianDayTT : Type := {
  jd_utc : Q;
  jd_tt : Q;
  deltaT : Q;
  deltaT_days : Q
}.

(** [dateToJulianDayTT(year, month, day, hour = 12, minute = 0,
    second = 0)]: an [undefined] argument takes its default. *)
Definition dateToJulianDayTT (year month day : Q)
    (hour minute second : option Q) : JulianDayTT :=
  let hour := default 12 hour in
  let minute := default 0 minute in
  let second := default 0 second in
  let jd_utc := dateToJulianDay year month day hour minute second in
  let deltaT := TimeCorrections.calculateDeltaT year in
  let jd_tt := TimeCorrections.utcToTT jd_utc year in
  {| jd_utc := jd_utc;
     jd_tt := jd_tt;
     deltaT := deltaT;
     deltaT_days := deltaT / 86400.0 |}.

(** The object returned by [julianDayToDate]. *)
Record CivilDate : Type := {
  year : Q;
  month : Q;
  day : Q;
  hour : Q;
  minute : Q;
  second : Q
}.

(** [julianDayToDate(jd)]. *)
Definition julianDayToDate (jd : Q) : CivilDate :=
  let Z := Js.floor (jd + 0.5) in
  let F := (jd + 0.5) - Z in
  let A :=
    if Js.leb 2299161 Z then
      let alpha := Js.floor ((Z - 1867216.25) / 36524.25) in
      Z + 1 + alpha - Js.floor (alpha / 4)
    else Z in
  let B := A + 1524 in
  let C := Js.floor ((B - 122.1) / 365.25) in
  let D := Js.floor (365.25 * C) in
  let E := Js.floor ((B - D) / 30.6001) in
  let day := B - D - Js.floor (30.6001 * E) + F in
  let month := if Js.ltb E 14 then E - 1 else E - 13 in
  let year := if Js.ltb 2 month then C - 4716 else C - 4715 in
  let decimalDay := day - Js.floor day in
  let hours := decimalDay * 24 in
  let minutes := (hours - Js.floor hours) * 60 in
  let seconds := (minutes - Js.floor minutes) * 60 in
  {| year := year;
     month := month;
     day := Js.floor day;
     hour := Js.floor hours;
     minute := Js.floor minutes;
     second := Js.floor seconds |}.

(** The civil dates of the round-trip property: a month 1..12 and a day
    of that month, by the [daysInMonth] table of [localToUTC]. *)
Definition validDate (y m d : Z) : bool :=
  match Js.index (TimeCorrections.daysInMonth (inject_Z y)) (inject_Z m - 1) with
  | Some days => (1 <=? d)%Z && Js.leb (inject_Z d) days
  | None => false
  end.

(** The leap-year test of [localToUTC]. *)
Definition leapYear (y : Z) : Prop :=
  (y mod 4 = 0 /\ (y mod 100 <> 0 \/ y mod 400 = 0))%Z.

(** The [daysInMonth] table of [localToUTC] on integers: the length of
    month [m] of year [y]. *)
Definition monthLength (y m : Z) : Z :=
  if (m =? 2)%Z then
    if ((y mod 4 =? 0)%Z
        && (negb (y mod 100 =? 0)%Z || (y mod 400 =? 0)%Z))%bool
    then 29%Z else 28%Z
  else if ((m =? 4)%Z || (m =? 6)%Z || (m =? 9)%Z || (m =? 11)%Z)%bool
       then 30%Z else 31%Z.

(** The two conversions on integers, every [Math.floor] of a quotient
    written as an integer division: the day number [floor(jd + 0.5)] of a
    date, and the date of a day number. *)
Definition dayNumber (y m d : Z) : Z :=
  let y' := if (m <=? 2)%Z then (y - 1)%Z else y in
  let m' := if (m <=? 2)%Z then (m + 12)%Z else m in
  let A := (y' / 100)%Z in
  let B := (2 - A + A / 4)%Z in
  ((36525 * (y' + 4716)) / 100 + (306001 * (m' + 1)) / 10000 + d + B - 1524)%Z.

Definition civilOfDayNumber (N : Z) : Z * Z * Z :=
  let A :=
    if (2299161 <=? N)%Z then
      let alpha := ((100 * N - 186721625) / 3652425)%Z in
      (N + 1 + alpha - alpha / 4)%Z
    else N in
  let B := (A + 1524)%Z in
  let C := ((100 * B - 12210) / 36525)%Z in
  let D := ((36525 * C) / 100)%Z in
  let E := ((10000 * (B - D)) / 306001)%Z in
  let day := (B - D - (306001 * E) / 10000)%Z in
  let month := if (E <? 14)%Z then (E - 1)%Z else (E - 13)%Z in
  let year := if (2 <? month)%Z then (C - 4716)%Z else (C - 4715)%Z in
  (year, month, day).

(** The civil day before a date, by the month lengths of [localToUTC],
    and the civil date and time one second before a date and time: what
    "one second earlier" is for a date of the round-trip property. *)
Definition previousDay (y m d : Z) : Z * Z * Z :=
  if (1 <? d)%Z then (y, m, (d - 1)%Z)
  else if (1 <? m)%Z then (y, (m - 1)%Z, monthLength y (m - 1))
  else ((y - 1)%Z, 12%Z, 31%Z).

Definition secondBefore (y m d h mi s : Z) : Z * Z * Z * Z * Z * Z :=
  if (0 <? s)%Z then (y, m, d, h, mi, (s - 1)%Z)
  else if (0 <? mi)%Z then (y, m, d, h, (mi - 1)%Z, 59%Z)
  else if (0 <? h)%Z then (y, m, d, (h - 1)%Z, 59%Z, 59%Z)
  else
    let '(y', m', d') := previousDay y m d in
    (y', m', d', 23%Z, 59%Z, 59%Z).

(** [julianCenturies(jd)]: centuries since J2000.0. *)
Definition julianCenturies (jd : Q) : Q := (jd - 2451545.0) / 36525.0.

(** [calculateGMST(jd)] in degrees. *)
Definition calculateGMST (jd : Q) : Q :=
  let T := julianCenturies jd in
  let gmst :=
    280.46061837 + 360.98564736629 * (jd - 2451545.0)
    + 0.000387933 * T * T - T * T * T / 38710000.0 in
  normalizeAngle gmst.

(** [calculateLST(jd, longitude)] in degrees. *)
Definition calculateLST (jd longitude : Q) : Q :=
  let gmst := calculateGMST jd in
  let lst := gmst + longitude in
  normalizeAngle lst.

(** [calculateObliquity(jd)] in degrees. *)
Definition calculateObliquity (jd : Q) : Q :=
  let T := julianCenturies jd in
  let epsilon :=
    84381.406 - 46.836769 * T - 0.0001831 * T * T
    + 0.00200340 * T * T * T - 0.000000576 * T * T * T * T
    - 0.0000000434 * T * T * T * T * T in
  epsilon / 3600.0.

End JulianDay.

(** ** ephemeris-browser.js *)

Module Ephemeris.

(** A record of an ephemeris data module.  [JD] and [Deg] are what
    [parseFloat] makes of the fields: [None] stands for NaN. *)
Record RawRecord : Type := {
  JD : option Q;
  Sign : string;
  Deg : option Q;
  Date_UT : string
}.

(** A processed sample of a loaded table. *)
Record Sample : Type := {
  jd : Q;
  longitude : Q;
  sign : string;
  degInSign : Q;
  date : string
}.

Definition SIGN_TO_LONGITUDE : gmap string Q :=
  list_to_map
    [("Aries"%string, 0); ("Taurus"%string, 30); ("Gemini"%string, 60);
     ("Cancer"%string, 90); ("Leo"%string, 120); ("Virgo"%string, 150);
     ("Libra"%string, 180); ("Scorpio"%string, 210);
     ("Sagittarius"%string, 240); ("Capricorn"%string, 270);
     ("Aquarius"%string, 300); ("Pisces"%string, 330)].

(** The [map] callback of [loadEphemerisData] followed by its [filter]
    predicate [!isNaN(r.jd) && r.longitude >= 0]. *)
Definition processRecord (record : RawRecord) : option Sample :=
  let sign := Sign record in
  let degInSign := Js.orDefault (Deg record) 0 in
  let longitude :=
    match SIGN_TO_LONGITUDE !! sign with
    | Some start => start + degInSign
    | None => 0
    end in
  match JD record with
  | Some jd =>
      if Js.leb 0 longitude then
        Some {| jd := jd; longitude := longitude; sign := sign;
                degInSign := degInSign; date := Date_UT record |}
      else None
  | None => None
  end.

Section Tables.

(** [EPHEMERIS_MODULES]: the imported data modules, by body name.  The
    data files are not part of the sources, so the table is a
    parameter. *)
Context (EPHEMERIS_MODULES : gmap string (list RawRecord)).

(** [loadEphemerisData(body)].  [ephemerisCache] memoises the result
    of this function per body; the table is constant, so the cached
    array is the one computed here. *)
Definition loadEphemerisData (body : string) : list Sample :=
  match EPHEMERIS_MODULES !! body with
  | None => []
  | Some data => Js.sortBy jd (omap processRecord data)
  end.

End Tables.

(** [lerp(x0, y0, x1, y1, x)]. *)
Definition lerp (x0 y0 x1 y1 x : Q) : Q :=
  if Js.eqb x1 x0 then y0
  else y0 + (y1 - y0) * ((x - x0) / (x1 - x0)).

(** The non-null results of [getEphemerisPosition]: the object with
    [interpolated: false] and the one with [interpolated: true]. *)
Inductive Position : Type :=
| Closest (longitude : Q) (sign : string) (degInSign : Q)
| Interpolated (longitude : Q) (beforeJD afterJD : Q).

Definition positionLongitude (pos : Position) : Q :=
  match pos with
  | Closest longitude _ _ => longitude
  | Interpolated longitude _ _ => longitude
  end.

Definition interpolated (pos : Position) : bool :=
  match pos with
  | Closest _ _ _ => false
  | Interpolated _ _ _ => true
  end.

(** The search loop of [getEphemerisPosition]: the first adjacent pair
    with [data[i].jd <= jd && data[i + 1].jd >= jd]. *)
Fixpoint findBracket (data : list Sample) (jd0 : Q)
    : option (Sample * Sample) :=
  match data with
  | before :: rest =>
      match rest with
      | after :: _ =>
          if Js.leb (jd before) jd0 && Js.leb jd0 (jd after)
          then Some (before, after)
          else findBracket rest jd0
      | [] => None
      end
  | [] => None
  end.

(** The [reduce] of the fallback: the sample nearest in [jd], the
    earliest one on a tie. *)
Definition closestSample (first : Sample) (rest : list Sample) (jd0 : Q)
    : Sample :=
  fold_left
    (fun prev curr =>
       if Js.ltb (Js.abs (jd curr - jd0)) (Js.abs (jd prev - jd0))
       then curr else prev)
    rest first.

(** The wrap-around step: which endpoint gets 360 added. *)
Definition unwrap (lon1 lon2 : Q) : Q * Q :=
  if Js.ltb 180 (Js.abs (lon2 - lon1)) then
    if Js.ltb lon2 lon1 then (lon1, lon2 + 360) else (lon1 + 360, lon2)
  else (lon1, lon2).

(** [getEphemerisPosition] on the loaded table [data]. *)
Definition lookupPosition (data : list Sample) (jd0 : Q) : option Position :=
  match data with
  | [] => None
  | first :: rest =>
      if Js.ltb jd0 (jd first) || Js.ltb (jd (List.last data first)) jd0 then None
      else
        match findBracket data jd0 with
        | None =>
            let closest := closestSample first rest jd0 in
            Some (Closest (longitude closest) (sign closest)
                    (degInSign closest))
        | Some (before, after) =>
            let '(lon1, lon2) :=
              unwrap (longitude before) (longitude after) in
            let longitude :=
              JulianDay.normalizeAngle
                (lerp (jd before) lon1 (jd after) lon2 jd0) in
            Some (Interpolated longitude (jd before) (jd after))
        end
  end.

(** The wrap-around rule in the words of the spec: when the endpoints
    differ by more than 180, 360 is added to the smaller one. *)
Definition unwrapSpec (lonBefore lonAfter : Q) : Q * Q :=
  if Js.ltb 180 (Js.abs (lonAfter - lonBefore)) then
    if Js.ltb lonBefore lonAfter then (lonBefore + 360, lonAfter)
    else (lonBefore, lonAfter + 360)
  else (lonBefore, lonAfter).


(** The result of [checkEphemerisAvailability]; the bounds are absent
    from the object returned for an empty Sun table. *)
Record Availability : Type := {
  available : bool;
  minJD : option Q;
  maxJD : option Q;
  minDate : option string;
  maxDate : option string
}.

Section Lookup.

Context (EPHEMERIS_MODULES : gmap string (list RawRecord)).

(** [getEphemerisPosition(body, jd)]; [None] is [null]. *)
Definition getEphemerisPosition (body : string) (jd0 : Q)
    : option Position :=
  lookupPosition (loadEphemerisData EPHEMERIS_MODULES body) jd0.

(** [getAllEphemerisPositions(jd)]: an entry [{body, ...pos}] for each
    body other than the Moon whose lookup is not [null]. *)
Definition getAllEphemerisPositions (jd0 : Q) : list (string * Position) :=
  let bodies :=
    ["Sun"; "Moon"; "Mercury"; "Venus"; "Mars"; "Jupiter"; "Saturn";
     "Uranus"; "Neptune"; "Pluto"]%string in
  flat_map
    (fun body =>
       if String.eqb body "Moon" then []
       else
         match getEphemerisPosition body jd0 with
         | Some pos => [(body, pos)]
         | None => []
         end)
    bodies.

(** [checkEphemerisAvailability(jd)]: coverage of the Sun table. *)
Definition checkEphemerisAvailability (jd0 : Q) : Availability :=
  match loadEphemerisData EPHEMERIS_MODULES "Sun" with
  | [] =>
      {| available := false; minJD := None; maxJD := None;
         minDate := None; maxDate := None |}
  | first :: rest =>
      let sunData := first :: rest in
      let lastRec := List.last sunData first in
      {| available := Js.leb (jd first) jd0 && Js.leb jd0 (jd lastRec);
         minJD := Some (jd first);
         maxJD := Some (jd lastRec);
         minDate := Some (date first);
         maxDate := Some (date lastRec) |}
  end.

End Lookup.

(** The table of the wrap-around example of the spec: a Sun module with
    the records for jd 10 (10 Aries, longitude 10) and jd 0 (20 Pisces,
    longitude 350), in that order. *)
Definition exampleModules : gmap string (list RawRecord) :=
  {[ "Sun"%string :=
       [ {| JD := Some 10; Sign := "Aries"; Deg := Some 10;
            Date_UT := "day 10" |};
         {| JD := Some 0; Sign := "Pisces"; Deg := Some 20;
            Date_UT := "day 0" |} ] ]}.

End Ephemeris.

(** ** planets.js *)

Module Planets.

(** An entry of [PLANETARY_CONSTANTS]; the fields that the Moon's entry
    does not have are optional. *)
Record Constants : Type := {
  L0 : Q;
  L1 : Q;
  n : Q;
  M0 : Q;
  a : option Q;
  e : option Q;
  i : option Q;
  omega : option Q;
  pi : option Q;
  color : string
}.

Definition orbit (L0 L1 n M0 a e i omega pi : Q) (color : string)
    : Constants :=
  {| L0 := L0; L1 := L1; n := n; M0 := M0; a := Some a; e := Some e;
     i := Some i; omega := Some omega; pi := Some pi; color := color |}.

Definition PLANETARY_CONSTANTS : gmap string Constants :=
  list_to_map
    [("Sun"%string,
      orbit 280.46646 36000.76983 0.9856473602 357.52911
        1.0 0.01671022 0.0 0.0 102.94719 "#FDB813");
     ("Mercury"%string,
      orbit 252.25084 149472.67411175 4.0923387847 174.79439
        0.38709843 0.20563069 7.00487 48.33167 77.45645 "#97979F");
     ("Venus"%string,
      orbit 181.97973 58517.81538729 1.6021304692 50.44675
        0.72333199 0.00677323 3.39471 76.68069 131.53298 "#FFC649");
     ("Moon"%string,
      {| L0 := 218.3164477; L1 := 481267.88123421; n := 13.1763965268;
         M0 := 134.9633964; a := None; e := None; i := None;
         omega := None; pi := None; color := "#C0C0C0" |});
     ("Mars"%string,
      orbit 355.45332 19140.29934243 0.5240328362 19.41248
        1.52366231 0.09341233 1.85061 49.57854 336.04084 "#DC143C");
     ("Jupiter"%string,
      orbit 34.40438 3034.74612775 0.0830868207 19.65053
        5.20336301 0.04839266 1.30530 100.55615 14.75385 "#F4A460");
     ("Saturn"%string,
      orbit 49.94432 1222.49362201 0.0334700513 317.51238
        9.53707032 0.05415060 2.48446 113.71504 92.43194 "#DAA520");
     ("Uranus"%string,
      orbit 313.23218 428.48202785 0.0117311986 142.26794
        19.19126393 0.04716771 0.76986 74.22988 170.96424 "#4FD0E0");
     ("Neptune"%string,
      orbit 304.88003 218.45945325 0.0059810939 259.90868
        30.06896348 0.00858587 1.76917 131.72169 44.97135 "#4169E1");
     ("Pluto"%string,
      orbit 238.92881 145.20780515 0.0039755730 14.86205
        39.48 0.24882 17.14 110.30 224.07 "#8B4513")].

(** The names of [ZODIAC_SIGNS], in array order. *)
Definition ZODIAC_SIGNS : list string :=
  ["Aries"; "Taurus"; "Gemini"; "Cancer"; "Leo"; "Virgo"; "Libra";
   "Scorpio"; "Sagittarius"; "Capricorn"; "Aquarius"; "Pisces"]%string.

(** The object returned by [longitudeToZodiac], without its display
    strings ([symbol], [formatted]). *)
Record Zodiac : Type := {
  longitude : Q;
  sign : string;
  degree : Q
}.

(** [longitudeToZodiac(longitude)].  [sign.name] throws a [TypeError]
    when [ZODIAC_SIGNS[signIndex]] is [undefined]. *)
Definition longitudeToZodiac (longitude : Q) : Result Zodiac :=
  let normalizedLon := JulianDay.normalizeAngle longitude in
  let signIndex := Js.floor (normalizedLon / 30) in
  let degree := Js.rem normalizedLon 30 in
  match Js.index ZODIAC_SIGNS signIndex with
  | Some sign =>
      ret {| longitude := normalizedLon; sign := sign; degree := degree |}
  | None => throw (TypeError "sign is undefined")
  end.

Definition tolerance : Q := 0.00000001.

(** The [for] loop of [solveKepler]: [fuel] iterations are left. *)
Fixpoint solveKeplerLoop `{MathLib} (fuel : nat) (M e E : Q) : Q :=
  match fuel with
  | O => E
  | S fuel' =>
      let dE := (E - e * sin E - M) / (1 - e * cos E) in
      let E := E - dE in
      if Js.ltb (Js.abs dE) tolerance then E
      else solveKeplerLoop fuel' M e E
  end.

(** [solveKepler(M, e)]: Newton-Raphson from [E = M], at most 30
    iterations. *)
Definition solveKepler `{MathLib} (M e : Q) : Q :=
  let maxIterations := 30%nat in
  solveKeplerLoop maxIterations M e M.

(** The object returned by [calculatePlanetPosition], without the
    display strings.  The spread of [zodiac] comes after [longitude], so
    the field holds the zodiac's normalised longitude. *)
Record PlanetPosition : Type := {
  planet : string;
  meanAnomaly : Q;
  zodiac : Zodiac;
  julianDay : Q;
  planetColor : string
}.

(** [calculatePlanetPosition(planet, jd)]. *)
Definition calculatePlanetPosition `{MathLib} (planet : string) (jd : Q)
    : Result PlanetPosition :=
  match PLANETARY_CONSTANTS !! planet with
  | None => throw (UnknownPlanet planet)
  | Some constants =>
      let T := JulianDay.julianCenturies jd in
      let daysSinceJ2000 := jd - 2451545.0 in
      let L := JulianDay.normalizeAngle (L0 constants + L1 constants * T) in
      let M :=
        JulianDay.normalizeAngle
          (M0 constants + n constants * daysSinceJ2000) in
      let M_rad := JulianDay.degreesToRadians M in
      let e := Js.orDefault (e constants) 0.0167 in
      let E := solveKepler M_rad e in
      let nu :=
        2 * atan2 (sqrt (1 + e) * sin (E / 2))
              (sqrt (1 - e) * cos (E / 2)) in
      let lambda :=
        JulianDay.normalizeAngle
          (JulianDay.radiansToDegrees nu + Js.orDefault (pi constants) 0) in
      try zodiac <- longitudeToZodiac lambda;
      ret {| planet := planet;
             meanAnomaly := M;
             zodiac := zodiac;
             julianDay := jd;
             planetColor := color constants |}
  end.

(** The heliocentric longitude of the spec (section 4.2) for mean-anomaly
    elements [M0], [n], eccentricity [e] and perihelion argument [pi]:
    [normalize(nu_deg + pi)] with [nu] the true anomaly. *)
Definition keplerLongitude `{MathLib} (M0 n e pi jd : Q) : Q :=
  let M := JulianDay.normalizeAngle (M0 + n * (jd - 2451545.0)) in
  let E := solveKepler (JulianDay.degreesToRadians M) e in
  let nu :=
    2 * atan2 (sqrt (1 + e) * sin (E / 2)) (sqrt (1 - e) * cos (E / 2)) in
  JulianDay.normalizeAngle (JulianDay.radiansToDegrees nu + pi).

(** [calculateAllPlanets(jd)]: the ten bodies in array order; an
    exception of [calculatePlanetPosition] ends the [map]. *)
Definition calculateAllPlanets `{MathLib} (jd : Q)
    : Result (list PlanetPosition) :=
  let planets :=
    ["Sun"; "Moon"; "Mercury"; "Venus"; "Mars"; "Jupiter"; "Saturn";
     "Uranus"; "Neptune"; "Pluto"]%string in
  mapM (fun planet => calculatePlanetPosition planet jd) planets.

End Planets.

(** ** moon-calculator.js *)

Module Moon.

(** The [options] argument of [calculateMoonPosition]; an absent field
    is [undefined]. *)
Record Options : Type := {
  latitude : option Q;
  longitude : option Q;
  elevation : option Q
}.

Definition noOptions : Options :=
  {| latitude := None; longitude := None; elevation := None |}.

Record MeanArguments : Type := {
  D : Q;
  M : Q;
  M_prime : Q;
  F : Q
}.

Record ObserverLocation : Type := {
  observerLatitude : Q;
  observerLongitude : Q;
  observerElevation : Q
}.

(** The object returned by [calculateMoonPosition]. *)
Record MoonPosition : Type := {
  moonLongitude : Q;
  meanLongitude : Q;
  correction : Q;
  meanArguments : MeanArguments;
  method : string;
  note : string;
  parallaxCorrected : bool;
  parallaxNote : option string;
  observerLocation : option ObserverLocation
}.

(** [calculateMoonPosition(jd, options)]. *)
Definition calculateMoonPosition `{MathLib} (jd : Q) (options : Options)
    : MoonPosition :=
  let T := JulianDay.julianCenturies jd in
  let L_moon := JulianDay.normalizeAngle (218.3164477 + 481267.88123421 * T) in
  let D :=
    JulianDay.normalizeAngle
      (297.8501921 + 445267.1114034 * T - 0.0018819 * T * T
       + T * T * T / 545868 - T * T * T * T / 113065000) in
  let M :=
    JulianDay.normalizeAngle
      (357.5291092 + 35999.0502909 * T - 0.0001536 * T * T
       + T * T * T / 24490000) in
  let M_prime :=
    JulianDay.normalizeAngle
      (134.9633964 + 477198.8675055 * T + 0.0087414 * T * T
       + T * T * T / 69699 - T * T * T * T / 14712000) in
  let F :=
    JulianDay.normalizeAngle
      (93.2720950 + 483202.0175233 * T - 0.0036539 * T * T
       - T * T * T / 3526000 + T * T * T * T / 863310000) in
  let D_rad := JulianDay.degreesToRadians D in
  let M_rad := JulianDay.degreesToRadians M in
  let M_prime_rad := JulianDay.degreesToRadians M_prime in
  let F_rad := JulianDay.degreesToRadians F in
  let correction := 0 in
  let correction := correction + 6.288774 * sin M_prime_rad in
  let correction := correction + 1.274027 * sin (2 * D_rad - M_prime_rad) in
  let correction := correction + 0.658314 * sin (2 * D_rad) in
  let correction := correction + 0.213618 * sin (2 * M_prime_rad) in
  let correction := correction - 0.185116 * sin M_rad in
  let correction := correction - 0.114332 * sin (2 * F_rad) in
  let correction := correction + 0.058793 * sin (2 * (D_rad - M_prime_rad)) in
  let correction :=
    correction + 0.057066 * sin (2 * D_rad - M_rad - M_prime_rad) in
  let correction := correction + 0.053322 * sin (2 * D_rad + M_prime_rad) in
  let correction := correction + 0.045758 * sin (2 * D_rad - M_rad) in
  let longitude0 := JulianDay.normalizeAngle (L_moon + correction) in
  let result :=
    {| moonLongitude := longitude0;
       meanLongitude := L_moon;
       correction := correction;
       meanArguments := {| D := D; M := M; M_prime := M_prime; F := F |};
       method := "J2000-ELP2000-simplified";
       note :=
         "Geocentric position using main periodic terms from ELP2000 theory";
       parallaxCorrected := false;
       parallaxNote := None;
       observerLocation := None |} in
  match latitude options, longitude options with
  | Some lat, Some lon =>
      let meanDistance := 385000 in
      let obliquity := 23.4393 in
      let lst := JulianDay.calculateLST jd lon in
      {| moonLongitude := moonLongitude result;
         meanLongitude := meanLongitude result;
         correction := Moon.correction result;
         meanArguments := meanArguments result;
         method := method result;
         note := note result;
         parallaxCorrected := parallaxCorrected result;
         parallaxNote :=
           Some "Parallax correction available but requires full coordinate transformation"%string;
         observerLocation :=
           Some {| observerLatitude := lat;
                   observerLongitude := lon;
                   observerElevation := Js.orDefault (elevation options) 0 |}
      |}
  | _, _ => result
  end.

End Moon.

(** ** houses.js *)

Module Houses.

(** An element of the array of house cusps. *)
Record House : Type := {
  cusp : Q;
  longitude : Q;
  sign : Q;
  system : string
}.

Section Angles.

Context `{MathLib}.

(** [calculateMC(lst, epsilon)]. *)
Definition calculateMC (lst epsilon : Q) : Q :=
  let lstRad := JulianDay.degreesToRadians lst in
  let epsRad := JulianDay.degreesToRadians epsilon in
  let mc := atan2 (sin lstRad) (cos lstRad * cos epsRad) in
  JulianDay.normalizeAngle (JulianDay.radiansToDegrees mc).

(** [calculateAscendant(lst, latitude, epsilon)]. *)
Definition calculateAscendant (lst latitude epsilon : Q) : Q :=
  let lstRad := JulianDay.degreesToRadians lst in
  let latRad := JulianDay.degreesToRadians latitude in
  let epsRad := JulianDay.degreesToRadians epsilon in
  let numerator := - cos lstRad in
  let denominator := sin lstRad * cos epsRad + tan latRad * sin epsRad in
  let asc := atan2 numerator denominator in
  JulianDay.normalizeAngle (JulianDay.radiansToDegrees asc).

End Angles.

(** The loop counter [i] of the twelve-house loops, as a number. *)
Definition counter : list Q := map (fun i => inject_Z (Z.of_nat i)) (seq 0 12).

(** [calculateWholeSignHouses(ascendant)]. *)
Definition calculateWholeSignHouses (ascendant : Q) : list House :=
  let ascSign := Js.floor (ascendant / 30) in
  map
    (fun i =>
       let houseSign := Js.rem (ascSign + i) 12 in
       {| cusp := i + 1;
          longitude := houseSign * 30;
          sign := Js.floor houseSign;
          system := "Whole Sign" |})
    counter.

(** [calculateEqualHouses(ascendant)]. *)
Definition calculateEqualHouses (ascendant : Q) : list House :=
  map
    (fun i =>
       let longitude := JulianDay.normalizeAngle (ascendant + i * 30) in
       {| cusp := i + 1;
          longitude := longitude;
          sign := Js.floor (longitude / 30);
          system := "Equal" |})
    counter.

(** The helper [getArc(start, end)] of [calculatePorphyryHouses]. *)
Definition getArc (start finish : Q) : Q :=
  let arc := finish - start in
  if Js.ltb arc 0 then arc + 360 else arc.

(** One [houses.push({ cusp, longitude, sign, system: 'Porphyry' })]. *)
Definition porphyryCusp (cusp longitude : Q) : House :=
  {| cusp := cusp;
     longitude := longitude;
     sign := Js.floor (longitude / 30);
     system := "Porphyry" |}.

(** [calculatePorphyryHouses(ascendant, mc)]: the twelve pushes in
    source order, then the sort by cusp number. *)
Definition calculatePorphyryHouses (ascendant mc : Q) : list House :=
  let descendant := JulianDay.normalizeAngle (ascendant + 180) in
  let ic := JulianDay.normalizeAngle (mc + 180) in
  let arc1 := getArc ascendant mc / 3 in
  let arc2 := getArc mc descendant / 3 in
  let arc3 := getArc descendant ic / 3 in
  let houses :=
    [ porphyryCusp 1 ascendant;
      porphyryCusp 12 (JulianDay.normalizeAngle (ascendant + arc1 * 2));
      porphyryCusp 11 (JulianDay.normalizeAngle (ascendant + arc1));
      porphyryCusp 10 mc;
      porphyryCusp 9 (JulianDay.normalizeAngle (mc + arc2 * 2));
      porphyryCusp 8 (JulianDay.normalizeAngle (mc + arc2));
      porphyryCusp 7 descendant;
      porphyryCusp 6 (JulianDay.normalizeAngle (descendant + arc3 * 2));
      porphyryCusp 5 (JulianDay.normalizeAngle (descendant + arc3));
      porphyryCusp 4 ic;
      porphyryCusp 3 (JulianDay.normalizeAngle (ic + arc3 * 2));
      porphyryCusp 2 (JulianDay.normalizeAngle (ic + arc3)) ] in
  Js.sortBy cusp houses.

(** The longitude of the cusp numbered [k] in an array sorted by cusp
    number. *)
Definition cuspLongitude (houses : list House) (k : nat) : option Q :=
  longitude <$> houses !! (k - 1)%nat.

(** [s.toLowerCase()] on the ASCII letters. *)
Definition lowerAscii (c : Ascii.ascii) : Ascii.ascii :=
  let code := Ascii.nat_of_ascii c in
  if (65 <=? code)%nat && (code <=? 90)%nat then Ascii.ascii_of_nat (code + 32)
  else c.

Fixpoint toLowerCase (s : string) : string :=
  match s with
  | EmptyString => EmptyString
  | String c s' => String (lowerAscii c) (toLowerCase s')
  end.

(** The object returned by [calculateHouses]. *)
Record HouseData : Type := {
  ascendant : Q;
  descendant : Q;
  mc : Q;
  ic : Q;
  lst : Q;
  epsilon : Q;
  houses : list House;
  houseSystem : string
}.

(** [calculateHouses(jd, latitude, longitude, system)]. *)
Definition calculateHouses `{MathLib} (jd latitude longitude : Q)
    (system : string) : HouseData :=
  let lst := JulianDay.calculateLST jd longitude in
  let epsilon := JulianDay.calculateObliquity jd in
  let mc := calculateMC lst epsilon in
  let ascendant := calculateAscendant lst latitude epsilon in
  let descendant := JulianDay.normalizeAngle (ascendant + 180) in
  let ic := JulianDay.normalizeAngle (mc + 180) in
  let lowered := toLowerCase system in
  let houses :=
    if String.eqb lowered "whole" || String.eqb lowered "wholesign"
    then calculateWholeSignHouses ascendant
    else if String.eqb lowered "equal" then calculateEqualHouses ascendant
    else calculatePorphyryHouses ascendant mc in
  {| ascendant := ascendant;
     descendant := descendant;
     mc := mc;
     ic := ic;
     lst := lst;
     epsilon := epsilon;
     houses := houses;
     houseSystem := system |}.

(** The membership test of [getPlanetHouse] for one pair of cusps. *)
Definition betweenCusps (currentCusp nextCusp normalizedLon : Q) : bool :=
  if Js.ltb currentCusp nextCusp then
    Js.leb currentCusp normalizedLon && Js.ltb normalizedLon nextCusp
  else
    Js.leb currentCusp normalizedLon || Js.ltb normalizedLon nextCusp.

(** The test of the loop body at index [i]: [houses[i]] against
    [houses[(i + 1) % houses.length]]. *)
Definition houseAt (houses : list House) (normalizedLon : Q) (i : nat)
    : option Q :=
  match houses !! i, houses !! ((i + 1) mod length houses)%nat with
  | Some currentHouse, Some nextHouse =>
      if betweenCusps (longitude currentHouse) (longitude nextHouse)
           normalizedLon
      then Some (cusp currentHouse)
      else None
  | _, _ => None
  end.

(** The [for] loop of [getPlanetHouse] over the indices still to visit. *)
Fixpoint getPlanetHouseLoop (houses : list House) (normalizedLon : Q)
    (indices : list nat) : option Q :=
  match indices with
  | [] => None
  | i :: indices' =>
      match houseAt houses normalizedLon i with
      | Some found => Some found
      | None => getPlanetHouseLoop houses normalizedLon indices'
      end
  end.

(** Whether the loop body at index [i] accepts the longitude: the
    interval of the circle given to [houses[i]]. *)
Definition inHouse (houses : list House) (normalizedLon : Q) (i : nat) : bool :=
  match houseAt houses normalizedLon i with
  | Some _ => true
  | None => false
  end.

(** [getPlanetHouse(planetLongitude, houses)]. *)
Definition getPlanetHouse (planetLongitude : Q) (houses : list House) : Q :=
  let normalizedLon := JulianDay.normalizeAngle planetLongitude in
  match getPlanetHouseLoop houses normalizedLon (seq 0 (length houses)) with
  | Some found => found
  | None => 1
  end.

(** The cusp arrays of the coverage property: the longitudes rise
    strictly in array order and wrap once past 0, that is, the array is
    [high ++ low] where [low ++ high] is strictly increasing. *)
Definition risesBefore (a b : House) : Prop := longitude a < longitude b.

Definition wrapsOnce (houses : list House) : Prop :=
  exists high low,
    houses = high ++ low /\ high <> [] /\ StronglySorted risesBefore (low ++ high).

(** The cusp numbers are 1, 2, ... in array order, as the three house
    systems produce them. *)
Definition numbered (houses : list House) : Prop :=
  Forall2 (fun house i => cusp house == inject_Z (Z.of_nat (S i)))
    houses (seq 0 (length houses)).

(** The pairs of neighbours of an array, and the pairs of the loop of
    [getPlanetHouse], which closes the circle from the last element to
    the first. *)
Fixpoint adjacent {A : Type} (l : list A) : list (A * A) :=
  match l with
  | [] => []
  | x :: rest =>
      match rest with
      | [] => []
      | y :: _ => (x, y) :: adjacent rest
      end
  end.

Definition cyclicPairs {A : Type} (l : list A) : list (A * A) :=
  match l with
  | [] => []
  | x :: _ => adjacent (l ++ [x])
  end.

Definition pairHolds (normalizedLon : Q) (pair : House * House) : bool :=
  betweenCusps (longitude (fst pair)) (longitude (snd pair)) normalizedLon.

(** The interval of the circle that the coverage property gives to the
    house at index [i]: from its cusp up to, not including, the cusp of
    the next house in array order (the first house after the last one).
    When the next cusp is the smaller one the interval passes 0: it runs
    from the cusp to 360 and from 0 to the next cusp. *)
Definition houseInterval (houses : list House) (i : nat) (lon : Q) : Prop :=
  exists current next,
    houses !! i = Some current
    /\ houses !! ((i + 1) mod length houses)%nat = Some next
    /\ ((longitude current < longitude next
         /\ longitude current <= lon /\ lon < longitude next)
        \/ (longitude next < longitude current
            /\ ((longitude current <= lon /\ lon < 360)
                \/ (0 <= lon /\ lon < longitude next)))).

End Houses.

(** ** calculator-calibrated.js *)

Module Calculator.

(** The [birthData] argument of [calculateBirthChart].  An absent
    property is [None]; [isLocalTime] and [useJ2000] are the outcomes of
    the truthiness test and of [=== true]. *)
Record BirthData : Type := {
  year : option Q;
  month : option Q;
  day : option Q;
  hour : option Q;
  minute : option Q;
  second : option Q;
  latitude : Q;
  longitude : Q;
  houseSystem : option string;
  timezoneOffset : option Q;
  isLocalTime : bool;
  useJ2000 : bool
}.

(** What [calculateBirthChart] reads of a result of
    [calculateInnerPlanet]. *)
Record InnerPlanet : Type := {
  innerLongitude : Q;
  innerMethod : string
}.

(** An element of [planets] in the chart.  The spread of the zodiac
    object follows [longitude], so the longitude of the entry is the
    zodiac's. *)
Record ChartPlanet : Type := {
  planet : string;
  zodiac : Planets.Zodiac;
  julianDay : Q;
  color : string;
  source : string;
  interpolated : option bool;
  method : option string
}.

(** The chart returned by [calculateBirthChart], without the formatted
    date strings and the [metadata] block. *)
Record Chart : Type := {
  chartJulianDay : Q;
  chartJulianDayUTC : Q;
  chartDeltaT : Q;
  ascendant : Planets.Zodiac;
  mc : Planets.Zodiac;
  descendant : Planets.Zodiac;
  ic : Planets.Zodiac;
  planets : list (ChartPlanet * Q);
  houses : list (Houses.House * Planets.Zodiac);
  chartHouseSystem : string;
  ephemerisRange : option string * option string
}.

Definition J2000_JD_TT : Q := 2451545.0.

(** [PLANETARY_CONSTANTS[name]?.color || fallback]. *)
Definition colorOf (name fallback : string) : string :=
  match Planets.PLANETARY_CONSTANTS !! name with
  | Some constants =>
      if String.eqb (Planets.color constants) "" then fallback
      else Planets.color constants
  | None => fallback
  end.

Section Chart.

Context `{MathLib}.
Context (EPHEMERIS_MODULES : gmap string (list Ephemeris.RawRecord)).

(** [calculateInnerPlanet(planetName, jd)] of
    inner-planets-calculator.js, which is not part of the sources;
    [None] is a falsy result. *)
Context (calculateInnerPlanet : string -> Q -> option InnerPlanet).

Definition unavailable {A : Type} : Result A :=
  let availability :=
    Ephemeris.checkEphemerisAvailability EPHEMERIS_MODULES 0 in
  throw (EphemerisUnavailable (Ephemeris.minDate availability)
           (Ephemeris.maxDate availability)).

(** [calculateAtJD(jd, { latitude, longitude, houseSystem })].  The
    [houses] of its [return] is the object that [calculateHouses]
    returned, which has no [find]: building the result throws. *)
Definition calculateAtJD (jd latitude longitude : Q) (houseSystem : string)
    : Result Chart :=
  let availability :=
    Ephemeris.checkEphemerisAvailability EPHEMERIS_MODULES jd in
  if negb (Ephemeris.available availability) then unavailable
  else
    let ephemerisPositions :=
      Ephemeris.getAllEphemerisPositions EPHEMERIS_MODULES jd in
    let moonCalc := Moon.calculateMoonPosition jd Moon.noOptions in
    let houses := Houses.calculateHouses jd latitude longitude houseSystem in
    try planets <-
      mapM (fun entry =>
              Planets.longitudeToZodiac
                (Ephemeris.positionLongitude (snd entry)))
           ephemerisPositions;
    try moonZodiac <- Planets.longitudeToZodiac (Moon.moonLongitude moonCalc);
    throw (TypeError "houses.find is not a function").

(** The Julian Day data of the chart; [None] when an [undefined]
    component makes it NaN.  With [isLocalTime] and a non-zero offset
    the components go through [localToUTC] first. *)
Definition julianDayOf (birthData : BirthData) : option JulianDay.JulianDayTT :=
  let timezoneOffset := default 0 (timezoneOffset birthData) in
  if isLocalTime birthData && negb (Js.eqb timezoneOffset 0) then
    match year birthData, month birthData, day birthData, hour birthData with
    | Some y, Some m, Some d, Some h =>
        let utcTime :=
          TimeCorrections.localToUTC y m d h (minute birthData)
            (second birthData) timezoneOffset in
        match TimeCorrections.day utcTime with
        | Some utcDay =>
            Some (JulianDay.dateToJulianDayTT
                    (TimeCorrections.year utcTime)
                    (TimeCorrections.month utcTime) utcDay
                    (Some (TimeCorrections.hour utcTime))
                    (TimeCorrections.minute utcTime)
                    (TimeCorrections.second utcTime))
        | None => None
        end
    | _, _, _, _ => None
    end
  else
    match year birthData, month birthData, day birthData with
    | Some y, Some m, Some d =>
        Some (JulianDay.dateToJulianDayTT y m d (hour birthData)
                (minute birthData) (second birthData))
    | _, _, _ => None
    end.

(** The callback that turns an ephemeris position into a planet of the
    chart; [None] is the [null] of a body that is added later. *)
Definition ephemerisPlanet (jd : Q) (entry : string * Ephemeris.Position)
    : Result (option ChartPlanet) :=
  let '(body, pos) := entry in
  if existsb (String.eqb body) ["Mercury"; "Venus"; "Mars"; "Moon"]%string
  then ret None
  else
    try zodiac <- Planets.longitudeToZodiac (Ephemeris.positionLongitude pos);
    ret (Some {| planet := body;
                 zodiac := zodiac;
                 julianDay := jd;
                 color := colorOf body "#CCCCCC";
                 source := "ephemeris";
                 interpolated := Some (Ephemeris.interpolated pos);
                 method := None |}).

Definition innerPlanet (jd : Q) (entry : string * InnerPlanet)
    : Result ChartPlanet :=
  let '(planetName, calc) := entry in
  try zodiac <- Planets.longitudeToZodiac (innerLongitude calc);
  ret {| planet := planetName;
         zodiac := zodiac;
         julianDay := jd;
         color := colorOf planetName "#CCCCCC";
         source := "J2000-Kepler";
         interpolated := None;
         method := Some (innerMethod calc) |}.

Definition houseZodiac (house : Houses.House)
    : Result (Houses.House * Planets.Zodiac) :=
  try zodiac <- Planets.longitudeToZodiac (Houses.longitude house);
  ret (house, zodiac).

(** [calculateBirthChart(birthData)]. *)
Definition calculateBirthChart (birthData : BirthData) : Result Chart :=
  let houseSystem := default "porphyry"%string (houseSystem birthData) in
  if negb (Js.truthy (year birthData)) && negb (Js.truthy (month birthData))
     && negb (Js.truthy (day birthData))
     || useJ2000 birthData
  then
    calculateAtJD J2000_JD_TT (latitude birthData) (longitude birthData)
      houseSystem
  else
    match julianDayOf birthData with
    | None => unavailable
    | Some jdData =>
        let jd := JulianDay.jd_tt jdData in
        let availability :=
          Ephemeris.checkEphemerisAvailability EPHEMERIS_MODULES jd in
        if negb (Ephemeris.available availability) then unavailable
        else
          let ephemerisPositions :=
            Ephemeris.getAllEphemerisPositions EPHEMERIS_MODULES jd in
          let moonCalc := Moon.calculateMoonPosition jd Moon.noOptions in
          try moonZodiac <-
            Planets.longitudeToZodiac (Moon.moonLongitude moonCalc);
          let innerPlanets :=
            flat_map
              (fun planetName =>
                 match calculateInnerPlanet planetName jd with
                 | Some calc => [(planetName, calc)]
                 | None => []
                 end)
              ["Mercury"; "Venus"; "Mars"]%string in
          try outer <- mapM (ephemerisPlanet jd) ephemerisPositions;
          try inner <- mapM (innerPlanet jd) innerPlanets;
          let moon :=
            {| planet := "Moon";
               zodiac := moonZodiac;
               julianDay := jd;
               color := colorOf "Moon" "#C0C0C0";
               source := "J2000-ELP2000";
               interpolated := None;
               method := Some (Moon.method moonCalc) |} in
          let planets := omap id outer ++ inner ++ [moon] in
          let houseData :=
            Houses.calculateHouses jd (latitude birthData)
              (longitude birthData) houseSystem in
          let planetsWithHouses :=
            map
              (fun planet =>
                 (planet,
                  Houses.getPlanetHouse
                    (Planets.longitude (zodiac planet))
                    (Houses.houses houseData)))
              planets in
          try ascendantZodiac <-
            Planets.longitudeToZodiac (Houses.ascendant houseData);
          try mcZodiac <- Planets.longitudeToZodiac (Houses.mc houseData);
          try descendantZodiac <-
            Planets.longitudeToZodiac (Houses.descendant houseData);
          try icZodiac <- Planets.longitudeToZodiac (Houses.ic houseData);
          try houses <- mapM houseZodiac (Houses.houses houseData);
          ret {| chartJulianDay := JulianDay.jd_tt jdData;
                 chartJulianDayUTC := JulianDay.jd_utc jdData;
                 chartDeltaT := JulianDay.deltaT jdData;
                 ascendant := ascendantZodiac;
                 mc := mcZodiac;
                 descendant := descendantZodiac;
                 ic := icZodiac;
                 planets := planetsWithHouses;
                 houses := houses;
                 chartHouseSystem := houseSystem;
                 ephemerisRange :=
                   (Ephemeris.minDate availability,
                    Ephemeris.maxDate availability) |}
    end.

End Chart.

(** The tables of a partial chart: every body but Jupiter is sampled
    around J2000.0, and Jupiter only two months later. *)
Definition sampleAt (jd : Q) (sign : string) (deg : Q) : Ephemeris.RawRecord :=
  {| Ephemeris.JD := Some jd; Ephemeris.Sign := sign;
     Ephemeris.Deg := Some deg; Ephemeris.Date_UT := "" |}.

Definition partialModules : gmap string (list Ephemeris.RawRecord) :=
  let around :=
    [sampleAt 2451544 "Capricorn" 9; sampleAt 2451546 "Capricorn" 11] in
  list_to_map
    [("Sun"%string, around); ("Moon"%string, around);
     ("Mercury"%string, around); ("Venus"%string, around);
     ("Mars"%string, around);
     ("Jupiter"%string,
      [sampleAt 2451605 "Aries" 25; sampleAt 2451615 "Aries" 27]);
     ("Saturn"%string, around); ("Uranus"%string, around);
     ("Neptune"%string, around); ("Pluto"%string, around)].

(** Noon UTC of 1 January 2000 at latitude 0, longitude 0. *)
Definition noon2000 : BirthData :=
  {| year := Some 2000; month := Some 1; day := Some 1; hour := Some 12;
     minute := Some 0; second := Some 0; latitude := 0; longitude := 0;
     houseSystem := None; timezoneOffset := None; isLocalTime := false;
     useJ2000 := false |}.

(** A stand-in for [calculateInnerPlanet] that always has a result. *)
Definition innerAt (longitude : Q) (planetName : string) (jd : Q)
    : option InnerPlanet :=
  Some {| innerLongitude := longitude; innerMethod := "J2000-Kepler" |}.

(** The bodies a chart is meant to hold. *)
Definition supportedBodies : list string :=
  ["Sun"; "Moon"; "Mercury"; "Venus"; "Mars"; "Jupiter"; "Saturn";
   "Uranus"; "Neptune"; "Pluto"]%string.

Definition chartBodies (chart : Chart) : list string :=
  map (fun entry => planet (fst entry)) (planets chart).

(** A chart with a position for every supported body. *)
Definition complete (chart : Chart) : Prop :=
  forall body, In body supportedBodies -> In body (chartBodies chart).

(** The all-or-nothing property of chart composition, as the spec states
    it: whatever the tables and the inner-planet calculator, a chart that
    is returned is complete. *)
Definition allOrNothing : Prop :=
  forall (math : MathLib)
    (EPHEMERIS_MODULES : gmap string (list Ephemeris.RawRecord))
    (calculateInnerPlanet : string -> Q -> option InnerPlanet)
    (birthData : BirthData) (chart : Chart),
    @calculateBirthChart math EPHEMERIS_MODULES calculateInnerPlanet birthData
    = inr chart ->
    complete chart.

(** The [orbs] argument of [calculateAspects]; a property that the
    caller's object lacks is [undefined]. *)
Record Orbs : Type := {
  conjunction : option Q;
  opposition : option Q;
  trine : option Q;
  square : option Q;
  sextile : option Q
}.

(** The default value of [orbs]. *)
Definition defaultOrbs : Orbs :=
  {| conjunction := Some 8; opposition := Some 8; trine := Some 8;
     square := Some 7; sextile := Some 6 |}.

(** An element of [aspectTypes], without its [symbol]. *)
Record AspectType : Type := {
  name : string;
  angle : Q;
  orb : option Q
}.

Definition aspectTypes (orbs : Orbs) : list AspectType :=
  [ {| name := "Conjunction"; angle := 0; orb := conjunction orbs |};
    {| name := "Opposition"; angle := 180; orb := opposition orbs |};
    {| name := "Trine"; angle := 120; orb := trine orbs |};
    {| name := "Square"; angle := 90; orb := square orbs |};
    {| name := "Sextile"; angle := 60; orb := sextile orbs |} ].

(** What [calculateAspects] reads of an element of [planets]. *)
Record Body : Type := {
  bodyName : string;
  bodyLongitude : Q
}.

(** An element of the result of [calculateAspects], without its
    [symbol]; [aspectOrb] is the number that [orb.toFixed(2)] prints. *)
Record Aspect : Type := {
  planet1 : string;
  planet2 : string;
  aspect : string;
  aspectAngle : Q;
  aspectOrb : Q;
  applying : bool
}.

(** The [diff] of a pair of longitudes, after [if (diff > 180)]. *)
Definition separation (longitude1 longitude2 : Q) : Q :=
  let diff := Js.abs (longitude1 - longitude2) in
  if Js.ltb 180 diff then 360 - diff else diff.

(** The innermost loop of [calculateAspects], over [aspectTypes], for
    one pair of planets.  A comparison with an [undefined] orb is
    false. *)
Definition aspectsBetween (orbs : Orbs) (first second : Body) : list Aspect :=
  let diff := separation (bodyLongitude first) (bodyLongitude second) in
  flat_map
    (fun aspectType =>
       let orb0 := Js.abs (diff - angle aspectType) in
       match orb aspectType with
       | Some allowed =>
           if Js.leb orb0 allowed then
             [ {| planet1 := bodyName first;
                  planet2 := bodyName second;
                  aspect := name aspectType;
                  aspectAngle := angle aspectType;
                  aspectOrb := orb0;
                  applying :=
                    Js.ltb (bodyLongitude first) (bodyLongitude second) |} ]
           else []
       | None => []
       end)
    (aspectTypes orbs).

(** [calculateAspects(planets, orbs)]: [planets[i]] against every
    [planets[j]] with [j > i], in the order of the two loops. *)
Fixpoint calculateAspects (planets : list Body) (orbs : Orbs) : list Aspect :=
  match planets with
  | [] => []
  | first :: rest =>
      flat_map (aspectsBetween orbs first) rest ++ calculateAspects rest orbs
  end.

End Calculator.

(** ** calculator.js *)

Module MainCalculator.

(** The [birthData] argument of [calculateBirthChart] of calculator.js.
    A property that the caller's object lacks is [None]; a property that
    is there is a number. *)
Record BirthData : Type := {
  year : option Q;
  month : option Q;
  day : option Q;
  hour : option Q;
  minute : option Q;
  second : option Q;
  latitude : option Q;
  longitude : option Q;
  houseSystem : option string
}.

(** The chart returned by [calculateBirthChart] of calculator.js, without
    the formatted date strings and the [metadata] block.  An element of
    [planets] is a result of [calculatePlanetPosition] with its [house]. *)
Record Chart : Type := {
  julianDay : Q;
  ascendant : Planets.Zodiac;
  mc : Planets.Zodiac;
  descendant : Planets.Zodiac;
  ic : Planets.Zodiac;
  planets : list (Planets.PlanetPosition * Q);
  houses : list (Houses.House * Planets.Zodiac);
  chartHouseSystem : string
}.

Definition houseZodiac (house : Houses.House)
    : Result (Houses.House * Planets.Zodiac) :=
  try zodiac <- Planets.longitudeToZodiac (Houses.longitude house);
  ret (house, zodiac).

(** [calculateBirthChart(birthData)] of calculator.js.  An [undefined]
    year, month or day makes the Julian Day NaN, and the first
    [longitudeToZodiac] of [calculateAllPlanets] throws on the NaN
    longitude.  An [undefined] latitude or longitude makes the ascendant
    NaN: the houses and the house of each planet are computed without an
    exception, and [longitudeToZodiac(houseData.ascendant)] throws. *)
Definition calculateBirthChart `{MathLib} (birthData : BirthData)
    : Result Chart :=
  let houseSystem := default "porphyry"%string (houseSystem birthData) in
  match year birthData, month birthData, day birthData with
  | Some year, Some month, Some day =>
      let jd :=
        JulianDay.dateToJulianDay year month day
          (default 12 (hour birthData))
          (default 0 (minute birthData))
          (default 0 (second birthData)) in
      try planets <- Planets.calculateAllPlanets jd;
      match latitude birthData, longitude birthData with
      | Some latitude, Some longitude =>
          let houseData :=
            Houses.calculateHouses jd latitude longitude houseSystem in
          let planetsWithHouses :=
            map
              (fun planet =>
                 (planet,
                  Houses.getPlanetHouse
                    (Planets.longitude (Planets.zodiac planet))
                    (Houses.houses houseData)))
              planets in
          try ascendantZodiac <-
            Planets.longitudeToZodiac (Houses.ascendant houseData);
          try mcZodiac <- Planets.longitudeToZodiac (Houses.mc houseData);
          try descendantZodiac <-
            Planets.longitudeToZodiac (Houses.descendant houseData);
          try icZodiac <- Planets.longitudeToZodiac (Houses.ic houseData);
          try houses <- mapM houseZodiac (Houses.houses houseData);
          ret {| julianDay := jd;
                 ascendant := ascendantZodiac;
                 mc := mcZodiac;
                 descendant := descendantZodiac;
                 ic := icZodiac;
                 planets := planetsWithHouses;
                 houses := houses;
                 chartHouseSystem := houseSystem |}
      | _, _ => throw (TypeError "sign is undefined")
      end
  | _, _, _ => throw (TypeError "sign is undefined")
  end.

(** A birth at noon UTC of 1 January 2000 at latitude 0, longitude 0. *)
Definition noon2000 : BirthData :=
  {| year := Some 2000; month := Some 1; day := Some 1; hour := Some 12;
     minute := Some 0; second := Some 0; latitude := Some 0;
     longitude := Some 0; houseSystem := None |}.

End MainCalculator.

(** * Properties *)

(** ** Number primitives *)

Lemma ltb_lt (a b : Q) : Js.ltb a b = true <-> a < b.
Proof.
  unfold Js.ltb. rewrite negb_true_iff, <- not_true_iff_false, Qle_bool_iff.
  split; [apply Qnot_le_lt | apply Qlt_not_le].
Qed.

Lemma ltb_ge (a b : Q) : Js.ltb a b = false <-> b <= a.
Proof. unfold Js.ltb. rewrite negb_false_iff. apply Qle_bool_iff. Qed.

Lemma leb_le (a b : Q) : Js.leb a b = true <-> a <= b.
Proof. apply Qle_bool_iff. Qed.

Lemma leb_gt (a b : Q) : Js.leb a b = false <-> b < a.
Proof.
  unfold Js.leb. rewrite <- not_true_iff_false, Qle_bool_iff.
  split; [apply Qnot_le_lt | apply Qlt_not_le].
Qed.

Lemma eqb_eq (a b : Q) : Js.eqb a b = true <-> a == b.
Proof. apply Qeq_bool_iff. Qed.

Lemma eqb_neq (a b : Q) : Js.eqb a b = false <-> ~ a == b.
Proof. unfold Js.eqb. rewrite <- not_true_iff_false, Qeq_bool_iff. tauto. Qed.

#[global] Instance ltb_proper : Proper (Qeq ==> Qeq ==> eq) Js.ltb.
Proof.
  intros a a' Ha b b' Hb.
  destruct (Js.ltb a' b') eqn:E.
  - apply ltb_lt. apply ltb_lt in E. now rewrite Ha, Hb.
  - apply ltb_ge. apply ltb_ge in E. now rewrite Ha, Hb.
Qed.

#[global] Instance leb_proper : Proper (Qeq ==> Qeq ==> eq) Js.leb.
Proof.
  intros a a' Ha b b' Hb.
  destruct (Js.leb a' b') eqn:E.
  - apply leb_le. apply leb_le in E. now rewrite Ha, Hb.
  - apply leb_gt. apply leb_gt in E. now rewrite Ha, Hb.
Qed.

#[global] Instance eqb_proper : Proper (Qeq ==> Qeq ==> eq) Js.eqb.
Proof.
  intros a a' Ha b b' Hb.
  destruct (Js.eqb a' b') eqn:E.
  - apply eqb_eq. apply eqb_eq in E. now rewrite Ha, Hb.
  - apply eqb_neq. apply eqb_neq in E. now rewrite Ha, Hb.
Qed.

(** [Math.floor] of an integer plus a fraction. *)
Lemma Qfloor_shift (k : Z) (f : Q) : 0 <= f -> f < 1 -> Qfloor (inject_Z k + f) = k.
Proof.
  intros H0 H1.
  assert (Hle : (k <= Qfloor (inject_Z k + f))%Z).
  { rewrite <- (Qfloor_Z k) at 1. apply Qfloor_resp_le. lra. }
  assert (Hlt : (Qfloor (inject_Z k + f) < k + 1)%Z).
  { rewrite Zlt_Qlt. eapply Qle_lt_trans; [apply Qfloor_le|].
    rewrite inject_Z_plus. change (inject_Z 1) with 1. lra. }
  lia.
Qed.

Lemma floor_shift (k : Z) (f : Q) : 0 <= f -> f < 1 -> Js.floor (inject_Z k + f) = inject_Z k.
Proof. intros. unfold Js.floor. now rewrite Qfloor_shift. Qed.

#[global] Instance floor_proper : Proper (Qeq ==> eq) Js.floor.
Proof. intros a b E. unfold Js.floor. now rewrite (Qfloor_comp _ _ E). Qed.

Lemma floor_le (x : Q) : Js.floor x <= x.
Proof. apply Qfloor_le. Qed.

Lemma floor_lt (x : Q) : x < Js.floor x + 1.
Proof. unfold Js.floor. rewrite <- (inject_Z_plus _ 1). apply Qlt_floor. Qed.

(** [Js.trunc] rounds toward zero. *)
Lemma trunc_nonneg (x : Q) :
  0 <= x -> inject_Z (Js.trunc x) <= x /\ x < inject_Z (Js.trunc x) + 1.
Proof.
  intros Hx.
  assert (Ht : Js.trunc x = Qfloor x).
  { destruct x as [n d]. unfold Js.trunc, Qfloor. simpl.
    apply Z.quot_div_nonneg; [|lia].
    unfold Qle in Hx. simpl in Hx. lia. }
  rewrite Ht. split; [apply Qfloor_le | apply floor_lt].
Qed.

Lemma trunc_opp (x : Q) : Js.trunc (- x) = (- Js.trunc x)%Z.
Proof. destruct x as [n d]. unfold Js.trunc. simpl. apply Z.quot_opp_l. lia. Qed.

Lemma trunc_nonpos (x : Q) :
  x <= 0 -> x <= inject_Z (Js.trunc x) /\ inject_Z (Js.trunc x) - 1 < x.
Proof.
  intros Hx.
  destruct (trunc_nonneg (- x)) as [H1 H2]; [lra|].
  rewrite trunc_opp, inject_Z_opp in H1, H2. split; lra.
Qed.

Lemma rem_nonneg (a b : Q) : 0 <= a -> 0 < b -> 0 <= Js.rem a b /\ Js.rem a b < b.
Proof.
  intros Ha Hb. unfold Js.rem.
  assert (Hq : 0 <= a / b) by (apply Qle_shift_div_l; lra).
  destruct (trunc_nonneg _ Hq) as [H1 H2].
  set (t := inject_Z (Js.trunc (a / b))) in *.
  assert (Ea : a == b * (a / b)) by (field; lra).
  split.
  - assert (b * t <= b * (a / b)) by (apply Qmult_le_l; lra). lra.
  - assert (b * (a / b) < b * (t + 1)) by (apply Qmult_lt_l; lra). lra.
Qed.

Lemma rem_nonpos (a b : Q) : a <= 0 -> 0 < b -> - b < Js.rem a b /\ Js.rem a b <= 0.
Proof.
  intros Ha Hb. unfold Js.rem.
  assert (Hq : a / b <= 0).
  { apply Qle_shift_div_r; lra. }
  destruct (trunc_nonpos _ Hq) as [H1 H2].
  set (t := inject_Z (Js.trunc (a / b))) in *.
  assert (Ea : a == b * (a / b)) by (field; lra).
  split.
  - assert (b * (t - 1) < b * (a / b)) by (apply Qmult_lt_l; lra). lra.
  - assert (b * (a / b) <= b * t) by (apply Qmult_le_l; lra). lra.
Qed.

Lemma rem_small (a b : Q) : 0 <= a -> a < b -> Js.rem a b == a.
Proof.
  intros Ha Hb. unfold Js.rem.
  assert (Hq0 : 0 <= a / b) by (apply Qle_shift_div_l; lra).
  assert (Hq1 : a / b < 1) by (apply Qlt_shift_div_r; lra).
  destruct (trunc_nonneg _ Hq0) as [H1 H2].
  assert (Js.trunc (a / b) = 0%Z) as ->.
  { assert (inject_Z (Js.trunc (a / b)) < inject_Z 1) by (change (inject_Z 1) with 1; change (inject_Z (-1)) with (-1); lra).
    assert (inject_Z (-1) < inject_Z (Js.trunc (a / b))) by (change (inject_Z 1) with 1; change (inject_Z (-1)) with (-1); lra).
    rewrite <- Zlt_Qlt in *. lia. }
  change (inject_Z 0) with 0. lra.
Qed.

Lemma trunc_comp (x y : Q) : x == y -> Js.trunc x = Js.trunc y.
Proof.
  intros E.
  assert (inject_Z (Js.trunc x) < inject_Z (Js.trunc y + 1)
          /\ inject_Z (Js.trunc y) < inject_Z (Js.trunc x + 1)) as [H1 H2].
  { rewrite !inject_Z_plus. change (inject_Z 1) with 1.
    destruct (Qlt_le_dec x 0) as [Hn | Hp].
    - destruct (trunc_nonpos x) as [? ?]; [lra|].
      destruct (trunc_nonpos y) as [? ?]; [lra|]. split; lra.
    - destruct (trunc_nonneg x) as [? ?]; [lra|].
      destruct (trunc_nonneg y) as [? ?]; [lra|]. split; lra. }
  rewrite <- Zlt_Qlt in H1, H2. lia.
Qed.

#[global] Instance rem_proper : Proper (Qeq ==> Qeq ==> Qeq) Js.rem.
Proof.
  intros a a' Ha b b' Hb. unfold Js.rem.
  rewrite (trunc_comp (a / b) (a' / b')) by now rewrite Ha, Hb.
  now rewrite Ha, Hb.
Qed.

(** ** normalizeAngle *)

Lemma normalizeAngle_range (x : Q) :
  0 <= JulianDay.normalizeAngle x /\ JulianDay.normalizeAngle x < 360.
Proof.
  unfold JulianDay.normalizeAngle.
  destruct (Qlt_le_dec x 0) as [Hn | Hp].
  - destruct (rem_nonpos x 360) as [H1 H2]; [lra | lra |].
    destruct (Js.ltb (Js.rem x 360) 0) eqn:E.
    + apply ltb_lt in E. lra.
    + apply ltb_ge in E. lra.
  - destruct (rem_nonneg x 360) as [H1 H2]; [lra | lra |].
    destruct (Js.ltb (Js.rem x 360) 0) eqn:E.
    + apply ltb_lt in E. lra.
    + lra.
Qed.

Lemma normalizeAngle_id (x : Q) : 0 <= x -> x < 360 -> JulianDay.normalizeAngle x == x.
Proof.
  intros H0 H1. unfold JulianDay.normalizeAngle.
  pose proof (rem_small x 360 H0 H1) as E.
  destruct (Js.ltb (Js.rem x 360) 0) eqn:L.
  - apply ltb_lt in L. lra.
  - exact E.
Qed.

#[global] Instance normalizeAngle_proper : Proper (Qeq ==> Qeq) JulianDay.normalizeAngle.
Proof.
  intros a b E. unfold JulianDay.normalizeAngle.
  rewrite E. destruct (Js.ltb (Js.rem b 360) 0); rewrite E; reflexivity.
Qed.

Lemma normalizeAngle_wrap (x : Q) :
  360 <= x -> x < 720 -> JulianDay.normalizeAngle x == x - 360.
Proof.
  intros H0 H1. unfold JulianDay.normalizeAngle, Js.rem.
  assert (Hq0 : 1 <= x / 360) by (apply Qle_shift_div_l; lra).
  assert (Hq1 : x / 360 < 2) by (apply Qlt_shift_div_r; lra).
  destruct (trunc_nonneg (x / 360)) as [H2 H3]; [lra|].
  assert (Js.trunc (x / 360) = 1%Z) as ->.
  { assert (inject_Z (Js.trunc (x / 360)) < inject_Z 2)
      by (change (inject_Z 2) with 2; lra).
    assert (inject_Z 0 < inject_Z (Js.trunc (x / 360)))
      by (change (inject_Z 0) with 0; lra).
    rewrite <- Zlt_Qlt in *. lia. }
  change (inject_Z 1) with 1.
  rewrite (proj2 (ltb_ge (x - 360 * 1) 0)) by lra. lra.
Qed.

Lemma normalizeAngle_half_turn (x : Q) :
  0 <= x -> x < 360 ->
  (x < 180 /\ JulianDay.normalizeAngle (x + 180) == x + 180)
  \/ (180 <= x /\ JulianDay.normalizeAngle (x + 180) == x - 180).
Proof.
  intros H0 H1. destruct (Qlt_le_dec x 180) as [Hlt | Hge].
  - left. split; [exact Hlt|]. apply normalizeAngle_id; lra.
  - right. split; [exact Hge|]. rewrite normalizeAngle_wrap; lra.
Qed.

(** ** solveKepler *)

Section Kepler.

Context `{MathLib}.

Lemma solveKeplerLoop_zero_eccentricity (fuel : nat) (M : Q) :
  Planets.solveKeplerLoop (S fuel) M 0 M == M.
Proof.
  cbn [Planets.solveKeplerLoop].
  set (dE := (M - 0 * sin M - M) / (1 - 0 * cos M)).
  assert (HdE : dE == 0).
  { unfold dE. field; lra. }
  assert (Hstop : Js.ltb (Js.abs dE) Planets.tolerance = true).
  { apply ltb_lt. unfold Js.abs. rewrite HdE. reflexivity. }
  rewrite Hstop. lra.
Qed.

(** C7: with zero eccentricity the Newton-Raphson iteration of
    [solveKepler] applies no correction to its initial guess:
    [solveKepler(M, 0)] is exactly [M], for every mean anomaly [M]. *)
Theorem solveKepler_zero_eccentricity (M : Q) : Planets.solveKepler M 0 == M.
Proof. unfold Planets.solveKepler. apply solveKeplerLoop_zero_eccentricity. Qed.

End Kepler.

(** ** Delta T *)

(** C6, as stated, fails at the boundary 1600: the segment 500..1600 ends
    more than 0.1 s away from the value 120 at which 1600..1700 starts. *)
Lemma deltaT_jump_at_1600 : ~ TimeCorrections.boundaryJump 1600 < 0.1.
Proof. apply Qle_not_lt. vm_compute. discriminate. Qed.

Lemma deltaT_jump_at_1700 : ~ TimeCorrections.boundaryJump 1700 < 0.1.
Proof. apply Qle_not_lt. vm_compute. discriminate. Qed.

(** C6 (amended): the Espenak-Meeus polynomial is continuous to within
    0.1 s at every segment boundary other than 1600 and 1700 (1900
    included); at 1600 and 1700 the jump is between 0.1 s and 0.3 s. *)
Theorem deltaT_boundary_jumps :
  Forall (fun B => TimeCorrections.boundaryJump B < 0.1)
    [-500; 500; 1800; 1860; 1900; 1920; 1941; 1961; 1986; 2005; 2050; 2150]
  /\ Forall (fun B => 0.1 <= TimeCorrections.boundaryJump B < 0.3) [1600; 1700].
Proof.
  split.
  - repeat constructor; vm_compute; reflexivity.
  - repeat constructor; vm_compute; discriminate.
Qed.

(** The two lists above are the boundaries of [calculateDeltaT]. *)
Lemma deltaT_boundaries_covered :
  forall B, In B TimeCorrections.segmentBoundaries <->
    In B [-500; 500; 1800; 1860; 1900; 1920; 1941; 1961; 1986; 2005; 2050; 2150]
    \/ In B [1600; 1700].
Proof. intros B. unfold TimeCorrections.segmentBoundaries. simpl. tauto. Qed.

(** ** Moon *)

Section MoonFacts.

Context `{MathLib}.

(** C9: the observer location never reaches the longitude.  Two runs of
    [calculateMoonPosition] that differ only in [options] return the same
    longitude (and the same mean longitude, correction and mean
    arguments, with [parallaxCorrected] false); the location shows only
    in [parallaxNote] and [observerLocation]. *)
Theorem moon_longitude_ignores_observer (jd : Q) (o1 o2 : Moon.Options) :
  let r1 := Moon.calculateMoonPosition jd o1 in
  let r2 := Moon.calculateMoonPosition jd o2 in
  Moon.moonLongitude r1 = Moon.moonLongitude r2
  /\ Moon.meanLongitude r1 = Moon.meanLongitude r2
  /\ Moon.correction r1 = Moon.correction r2
  /\ Moon.meanArguments r1 = Moon.meanArguments r2
  /\ Moon.parallaxCorrected r1 = false
  /\ Moon.parallaxCorrected r2 = false.
Proof.
  cbv beta zeta delta [Moon.calculateMoonPosition].
  set (result := Moon.Build_MoonPosition _ _ _ _ _ _ _ None None).
  destruct (Moon.latitude o1), (Moon.longitude o1),
    (Moon.latitude o2), (Moon.longitude o2);
    lazy beta iota
      delta [Moon.moonLongitude Moon.meanLongitude Moon.correction
             Moon.meanArguments Moon.parallaxCorrected];
    repeat split; exact eq_refl.
Qed.

End MoonFacts.

(** ** Porphyry houses *)

(** The cusps that [calculatePorphyryHouses] returns, in array order:
    the quadrants from ASC, MC and DESC are cut by their own arcs, the
    quadrant from IC by [arc3]. *)
Lemma calculatePorphyryHouses_cusps (ascendant mc : Q) :
  let descendant := JulianDay.normalizeAngle (ascendant + 180) in
  let ic := JulianDay.normalizeAngle (mc + 180) in
  let arc1 := Houses.getArc ascendant mc / 3 in
  let arc2 := Houses.getArc mc descendant / 3 in
  let arc3 := Houses.getArc descendant ic / 3 in
  map (fun h => (Houses.cusp h, Houses.longitude h))
    (Houses.calculatePorphyryHouses ascendant mc)
  = [ (1, ascendant);
      (2, JulianDay.normalizeAngle (ic + arc3));
      (3, JulianDay.normalizeAngle (ic + arc3 * 2));
      (4, ic);
      (5, JulianDay.normalizeAngle (descendant + arc3));
      (6, JulianDay.normalizeAngle (descendant + arc3 * 2));
      (7, descendant);
      (8, JulianDay.normalizeAngle (mc + arc2));
      (9, JulianDay.normalizeAngle (mc + arc2 * 2));
      (10, mc);
      (11, JulianDay.normalizeAngle (ascendant + arc1));
      (12, JulianDay.normalizeAngle (ascendant + arc1 * 2)) ].
Proof. reflexivity. Qed.

(** Opposite quadrants have the same width: the arc from IC to ASC, which
    the fourth quadrant should be cut by, is the arc from MC to DESC, and
    [arc3] is the arc from ASC to MC. *)
Lemma porphyry_opposite_arcs (ascendant mc : Q) :
  0 <= ascendant -> ascendant < 360 -> 0 <= mc -> mc < 360 ->
  let descendant := JulianDay.normalizeAngle (ascendant + 180) in
  let ic := JulianDay.normalizeAngle (mc + 180) in
  Houses.getArc ic ascendant == Houses.getArc mc descendant
  /\ Houses.getArc descendant ic == Houses.getArc ascendant mc.
Proof.
  intros Ha0 Ha1 Hm0 Hm1 descendant ic.
  destruct (normalizeAngle_half_turn ascendant Ha0 Ha1) as [[Ha Hd] | [Ha Hd]];
    destruct (normalizeAngle_half_turn mc Hm0 Hm1) as [[Hm Hi] | [Hm Hi]];
    fold descendant in Hd; fold ic in Hi; unfold Houses.getArc;
    repeat match goal with
    | |- context [Js.ltb ?a ?b] =>
        let E := fresh "E" in
        destruct (Js.ltb a b) eqn:E;
        [apply ltb_lt in E | apply ltb_ge in E]
    end; split; lra.
Qed.

(** C1 (code bug): at [ascendant = 100], [mc = 340] the quadrant from IC
    (160) to ASC (100) is 300 degrees wide, so its own arc width is 100 and
    its cusps belong at 260 and 0.  [calculatePorphyryHouses] reuses
    [arc3 = 80], the width of the DESC-IC quadrant, and puts cusp 2 at 240
    and cusp 3 at 320. *)
Theorem porphyry_fourth_quadrant_reuses_arc3 :
  let houses := Houses.calculatePorphyryHouses 100 340 in
  let ic := JulianDay.normalizeAngle (340 + 180) in
  let arc4 := Houses.getArc ic 100 / 3 in
  map (fun h => Qred (Houses.cusp h)) houses = [1; 2; 3; 4; 5; 6; 7; 8; 9; 10; 11; 12]
  /\ Qred <$> Houses.cuspLongitude houses 4 = Some 160
  /\ Qred arc4 = 100
  /\ Qred <$> Houses.cuspLongitude houses 2 = Some 240
  /\ Qred (JulianDay.normalizeAngle (ic + arc4)) = 260
  /\ Qred <$> Houses.cuspLongitude houses 3 = Some 320
  /\ Qred (JulianDay.normalizeAngle (ic + arc4 * 2)) = 0.
Proof. vm_compute. repeat split. Qed.

(** ** Zodiac and Kepler positions *)

Lemma index_floor {A : Type} (l : list A) (x : Q) :
  0 <= x -> x < inject_Z (Z.of_nat (length l)) ->
  exists a, Js.index l (Js.floor x) = Some a.
Proof.
  intros H0 H1.
  assert (Hnn : (0 <= Qfloor x)%Z).
  { change 0%Z with (Qfloor 0). now apply Qfloor_resp_le. }
  assert (Hlt : (Qfloor x < Z.of_nat (length l))%Z).
  { rewrite Zlt_Qlt. eapply Qle_lt_trans; [apply Qfloor_le | exact H1]. }
  assert (Hint : Js.eqb (Js.floor (Js.floor x)) (Js.floor x) = true).
  { apply eqb_eq. unfold Js.floor. now rewrite Qfloor_Z. }
  assert (Hpos : Js.leb 0 (Js.floor x) = true).
  { apply leb_le. unfold Js.floor. change 0 with (inject_Z 0).
    now rewrite <- Zle_Qle. }
  unfold Js.index. rewrite Hint, Hpos. cbn [andb].
  unfold Js.floor. rewrite Qfloor_Z.
  destruct (nth_error l (Z.to_nat (Qfloor x))) as [a|] eqn:E; [now exists a|].
  apply nth_error_None in E. lia.
Qed.

(** [longitudeToZodiac] never throws: the sign index is one of 0..11. *)
Lemma longitudeToZodiac_ok (lon : Q) :
  exists z, Planets.longitudeToZodiac lon = inr z
    /\ Planets.longitude z = JulianDay.normalizeAngle lon.
Proof.
  unfold Planets.longitudeToZodiac.
  destruct (normalizeAngle_range lon) as [H0 H1].
  destruct (index_floor Planets.ZODIAC_SIGNS (JulianDay.normalizeAngle lon / 30))
    as [name Hname].
  - apply Qle_shift_div_l; lra.
  - apply Qlt_shift_div_r; [lra|]. change (inject_Z (Z.of_nat (length Planets.ZODIAC_SIGNS))) with 12. lra.
  - rewrite Hname. eexists. split; reflexivity.
Qed.

Section KeplerPosition.

Context `{MathLib}.

(** C10: for a body of [PLANETARY_CONSTANTS] whose entry has no
    eccentricity, or eccentricity 0, [calculatePlanetPosition] does not
    throw: it returns the position computed with eccentricity 0.0167
    and, when [pi] is absent, perihelion argument 0. *)
Theorem calculatePlanetPosition_default_eccentricity
    (planet : string) (constants : Planets.Constants) (jd : Q) :
  Planets.PLANETARY_CONSTANTS !! planet = Some constants ->
  Js.truthy (Planets.e constants) = false ->
  exists position,
    Planets.calculatePlanetPosition planet jd = inr position
    /\ Planets.longitude (Planets.zodiac position)
       = JulianDay.normalizeAngle
           (Planets.keplerLongitude (Planets.M0 constants) (Planets.n constants)
              0.0167 (Js.orDefault (Planets.pi constants) 0) jd)
    /\ (Planets.pi constants = None ->
        Planets.longitude (Planets.zodiac position)
        = JulianDay.normalizeAngle
            (Planets.keplerLongitude (Planets.M0 constants) (Planets.n constants)
               0.0167 0 jd)).
Proof.
  intros Hlook Hfalsy. unfold Planets.calculatePlanetPosition.
  rewrite Hlook.
  assert (He : Js.orDefault (Planets.e constants) 0.0167 = 0.0167).
  { unfold Js.truthy in Hfalsy. unfold Js.orDefault.
    destruct (Planets.e constants) as [v|]; [|reflexivity].
    apply negb_false_iff in Hfalsy. now rewrite Hfalsy. }
  rewrite He.
  match goal with
  | |- context [Planets.longitudeToZodiac ?l] =>
      destruct (longitudeToZodiac_ok l) as (z & Hz & Hlon); rewrite Hz
  end.
  cbn [bind ret]. eexists. split; [reflexivity|].
  cbn [Planets.zodiac]. rewrite Hlon. unfold Planets.keplerLongitude.
  split; [reflexivity|].
  intros Hpi. rewrite Hpi. reflexivity.
Qed.

(** The Moon is such a body: its entry has neither [e] nor [pi]. *)
Lemma moon_constants_lack_eccentricity :
  exists constants,
    Planets.PLANETARY_CONSTANTS !! "Moon"%string = Some constants
    /\ Planets.e constants = None /\ Planets.pi constants = None.
Proof. eexists. split; [vm_compute; reflexivity|]. split; reflexivity. Qed.

(** A body that is not in the table is the only failure. *)
Lemma calculatePlanetPosition_unknown (planet : string) (jd : Q) :
  Planets.PLANETARY_CONSTANTS !! planet = None ->
  Planets.calculatePlanetPosition planet jd = inl (UnknownPlanet planet).
Proof. intros E. unfold Planets.calculatePlanetPosition. now rewrite E. Qed.

End KeplerPosition.

Lemma calculatePlanetPosition_default_eccentricity_moon :
  exists position,
    @Planets.calculatePlanetPosition smallAngleMath "Moon" 2451545 = inr position
    /\ Planets.longitude (Planets.zodiac position)
       = JulianDay.normalizeAngle
           (@Planets.keplerLongitude smallAngleMath 134.9633964 13.1763965268
              0.0167 0 2451545).
Proof.
  destruct (@calculatePlanetPosition_default_eccentricity smallAngleMath
              "Moon"%string
              {| Planets.L0 := 218.3164477; Planets.L1 := 481267.88123421;
                 Planets.n := 13.1763965268; Planets.M0 := 134.9633964;
                 Planets.a := None; Planets.e := None; Planets.i := None;
                 Planets.omega := None; Planets.pi := None;
                 Planets.color := "#C0C0C0" |}
              2451545) as (position & Hrun & _ & Hlon).
  - vm_compute. reflexivity.
  - reflexivity.
  - exists position. split; [exact Hrun | exact (Hlon eq_refl)].
Defined.

(** ** Sorting by a numeric key *)

Lemma last_In {A : Type} (x d : A) (l : list A) : In (List.last (x :: l) d) (x :: l).
Proof.
  revert x. induction l as [|y l IH]; intros x.
  - now left.
  - right. apply IH.
Qed.

Section SortBy.

Context {A : Type} (key : A -> Q).

Lemma Forall_insertBy (P : A -> Prop) (x : A) (l : list A) :
  P x -> Forall P l -> Forall P (Js.insertBy key x l).
Proof.
  intros Hx Hl. induction Hl as [|y l Hy Hl IH]; cbn.
  - now constructor.
  - destruct (Js.leb (key x) (key y)); repeat constructor; assumption.
Qed.

Lemma insertBy_sorted (x : A) (l : list A) :
  StronglySorted (Js.keyLe key) l -> StronglySorted (Js.keyLe key) (Js.insertBy key x l).
Proof.
  induction 1 as [|y l Hs IH Hy]; cbn.
  - repeat constructor.
  - destruct (Js.leb (key x) (key y)) eqn:E.
    + apply leb_le in E. constructor; [now constructor|].
      constructor; [exact E|].
      eapply List.Forall_impl; [|exact Hy].
      intros z Hz. unfold Js.keyLe in *. lra.
    + apply leb_gt in E. constructor; [exact IH|].
      apply Forall_insertBy; [|exact Hy]. unfold Js.keyLe. lra.
Qed.

Lemma sortBy_sorted (l : list A) : StronglySorted (Js.keyLe key) (Js.sortBy key l).
Proof.
  induction l as [|x l IH]; cbn.
  - constructor.
  - now apply insertBy_sorted.
Qed.

Lemma insertBy_perm (x : A) (l : list A) : Permutation (Js.insertBy key x l) (x :: l).
Proof.
  induction l as [|y l IH]; cbn; [reflexivity|].
  destruct (Js.leb (key x) (key y)); [reflexivity|].
  rewrite IH. apply perm_swap.
Qed.

Lemma sortBy_perm (l : list A) : Permutation (Js.sortBy key l) l.
Proof.
  induction l as [|x l IH]; cbn; [reflexivity|].
  now rewrite insertBy_perm, IH.
Qed.

(** In a sorted array the first element has the least key and the last
    one the greatest. *)
Lemma sorted_first_least (x : A) (l : list A) :
  StronglySorted (Js.keyLe key) (x :: l) -> Forall (fun y => key x <= key y) (x :: l).
Proof.
  intros Hs. apply StronglySorted_inv in Hs as [_ Hx].
  constructor; [lra | exact Hx].
Qed.

Lemma sorted_last_greatest (l : list A) (d : A) :
  StronglySorted (Js.keyLe key) l -> Forall (fun y => key y <= key (List.last l d)) l.
Proof.
  induction 1 as [|x l Hs IH Hx]; [constructor|].
  destruct l as [|y l'].
  - repeat constructor. cbn. lra.
  - change (List.last (x :: y :: l') d) with (List.last (y :: l') d).
    constructor; [|exact IH].
    apply Forall_inv in IH. apply Forall_inv in Hx. unfold Js.keyLe in Hx. lra.
Qed.

End SortBy.

(** ** Ephemeris lookup *)

Section EphemerisFacts.

Import Ephemeris.

Context (EPHEMERIS_MODULES : gmap string (list RawRecord)).

(** A loaded table is sorted by [jd]. *)
Lemma loadEphemerisData_sorted (body : string) :
  StronglySorted (Js.keyLe jd) (loadEphemerisData EPHEMERIS_MODULES body).
Proof.
  unfold loadEphemerisData.
  destruct (EPHEMERIS_MODULES !! body); [apply sortBy_sorted | constructor].
Qed.

(** Every sample of a loaded table has a longitude that is not negative. *)
Lemma loadEphemerisData_longitude (body : string) :
  Forall (fun s => 0 <= longitude s) (loadEphemerisData EPHEMERIS_MODULES body).
Proof.
  unfold loadEphemerisData.
  destruct (EPHEMERIS_MODULES !! body) as [data|]; [|constructor].
  rewrite List.Forall_forall. intros s Hs.
  apply (Permutation_in _ (sortBy_perm jd _)) in Hs.
  apply list_elem_of_In, list_elem_of_omap in Hs as (r & _ & Hr).
  unfold processRecord in Hr.
  destruct (JD r); [|discriminate].
  match type of Hr with
  | (if Js.leb 0 ?l then _ else _) = _ =>
      destruct (Js.leb 0 l) eqn:E; [|discriminate]
  end.
  apply leb_le in E. injection Hr as <-. exact E.
Qed.

(** [lookupPosition] answers [null] exactly on an empty table and
    outside [data[0].jd, data[last].jd]. *)
Lemma lookupPosition_None (data : list Sample) (jd0 : Q) :
  lookupPosition data jd0 = None <->
  match data with
  | [] => True
  | first :: _ => jd0 < jd first \/ jd (List.last data first) < jd0
  end.
Proof.
  unfold lookupPosition. destruct data as [|first rest]; [tauto|].
  rewrite <- !ltb_lt, <- orb_true_iff.
  destruct (Js.ltb jd0 (jd first) || Js.ltb (jd (List.last (first :: rest) first)) jd0).
  - tauto.
  - split; [|discriminate].
    destruct (findBracket (first :: rest) jd0) as [[before after]|];
      [destruct (unwrap _ _)|]; discriminate.
Qed.

(** C8: on a body whose loaded table is not empty, a [jd] strictly below
    every sample of the table (below its minimum) or strictly above
    every sample (above its maximum) gets the null result. *)
Theorem getEphemerisPosition_out_of_range (body : string) (jd0 : Q) :
  loadEphemerisData EPHEMERIS_MODULES body <> [] ->
  Forall (fun s => jd0 < jd s) (loadEphemerisData EPHEMERIS_MODULES body)
  \/ Forall (fun s => jd s < jd0) (loadEphemerisData EPHEMERIS_MODULES body) ->
  getEphemerisPosition EPHEMERIS_MODULES body jd0 = None.
Proof.
  unfold getEphemerisPosition. intros Hne Hout.
  apply lookupPosition_None.
  destruct (loadEphemerisData EPHEMERIS_MODULES body) as [|first rest] eqn:E;
    [contradiction|].
  destruct Hout as [Hlow | Hhigh].
  - left. now apply Forall_inv in Hlow.
  - right. rewrite List.Forall_forall in Hhigh. apply Hhigh.
    apply last_In.
Qed.

(** Conversely a [jd] between two samples of the table is answered. *)
Lemma getEphemerisPosition_in_range (body : string) (jd0 : Q) (lo hi : Sample) :
  In lo (loadEphemerisData EPHEMERIS_MODULES body) ->
  In hi (loadEphemerisData EPHEMERIS_MODULES body) ->
  jd lo <= jd0 -> jd0 <= jd hi ->
  exists pos, getEphemerisPosition EPHEMERIS_MODULES body jd0 = Some pos.
Proof.
  unfold getEphemerisPosition. intros Hlo Hhi Hle Hge.
  pose proof (loadEphemerisData_sorted body) as Hs.
  destruct (lookupPosition (loadEphemerisData EPHEMERIS_MODULES body) jd0)
    as [pos|] eqn:E; [now exists pos|].
  apply lookupPosition_None in E.
  destruct (loadEphemerisData EPHEMERIS_MODULES body) as [|first rest];
    [contradiction|].
  pose proof (sorted_first_least jd _ _ Hs) as Hmin.
  pose proof (sorted_last_greatest jd _ first Hs) as Hmax.
  rewrite List.Forall_forall in Hmin, Hmax.
  specialize (Hmin _ Hlo). specialize (Hmax _ Hhi). cbv beta in Hmin, Hmax.
  destruct E; lra.
Qed.

(** *** The bracketing pair *)

Lemma findBracket_Some (data : list Sample) (jd0 : Q) (before after : Sample) :
  findBracket data jd0 = Some (before, after) ->
  In before data /\ In after data /\ jd before <= jd0 /\ jd0 <= jd after.
Proof.
  induction data as [|x rest IH]; [discriminate|].
  destruct rest as [|y rest']; [discriminate|].
  cbn [findBracket].
  destruct (Js.leb (jd x) jd0 && Js.leb jd0 (jd y)) eqn:E.
  - intros [= <- <-]. apply andb_true_iff in E as [E1 E2].
    apply leb_le in E1, E2. cbn. tauto.
  - intros Hrest. destruct (IH Hrest) as (Hb & Ha & Hle). cbn in *. tauto.
Qed.


(** On a sorted table with two samples or more, every [jd] in range has
    a bracketing pair: the nearest-sample fallback is for the table of
    one sample. *)
Lemma findBracket_exists (first second d : Sample) (rest : list Sample)
    (jd0 : Q) :
  jd first <= jd0 -> jd0 <= jd (List.last (first :: second :: rest) d) ->
  exists pair, findBracket (first :: second :: rest) jd0 = Some pair.
Proof.
  revert first second.
  induction rest as [|third rest IH]; intros first second Hlo Hhi.
  - cbn in *. rewrite (proj2 (leb_le _ _)) by lra.
    rewrite (proj2 (leb_le _ _)) by lra. eauto.
  - cbn [findBracket].
    destruct (Js.leb (jd first) jd0 && Js.leb jd0 (jd second)) eqn:E; [eauto|].
    apply (IH second third).
    + rewrite (proj2 (leb_le _ _) Hlo) in E. apply leb_gt in E. lra.
    + exact Hhi.
Qed.

Lemma unwrap_spec (lon1 lon2 : Q) : unwrap lon1 lon2 = unwrapSpec lon1 lon2.
Proof.
  unfold unwrap, unwrapSpec.
  destruct (Js.ltb 180 (Js.abs (lon2 - lon1))) eqn:E; [|reflexivity].
  apply ltb_lt in E. unfold Js.abs in E.
  destruct (Js.ltb lon2 lon1) eqn:E1, (Js.ltb lon1 lon2) eqn:E2;
    try reflexivity; exfalso.
  - apply ltb_lt in E1, E2. lra.
  - apply ltb_ge in E1, E2.
    assert (Hz : lon2 - lon1 == 0) by lra.
    rewrite Hz in E. change (Qabs 0) with 0 in E. lra.
Qed.

(** On a loaded table the bracketing pair decides the answer: the
    endpoints are unwrapped, interpolated in [jd], and normalised. *)
Lemma getEphemerisPosition_interpolates (body : string) (jd0 : Q)
    (before after : Sample) :
  findBracket (loadEphemerisData EPHEMERIS_MODULES body) jd0
    = Some (before, after) ->
  getEphemerisPosition EPHEMERIS_MODULES body jd0
  = Some (Interpolated
            (let '(lon1, lon2) := unwrapSpec (longitude before) (longitude after) in
             JulianDay.normalizeAngle (lerp (jd before) lon1 (jd after) lon2 jd0))
            (jd before) (jd after)).
Proof.
  intros Hbracket. unfold getEphemerisPosition.
  pose proof (loadEphemerisData_sorted body) as Hs.
  destruct (findBracket_Some _ _ _ _ Hbracket) as (Hb & Ha & Hle & Hge).
  unfold lookupPosition.
  destruct (loadEphemerisData EPHEMERIS_MODULES body) as [|first rest] eqn:Hdata;
    [contradiction|].
  pose proof (sorted_first_least jd _ _ Hs) as Hmin.
  pose proof (sorted_last_greatest jd _ first Hs) as Hmax.
  rewrite List.Forall_forall in Hmin, Hmax.
  specialize (Hmin _ Hb). specialize (Hmax _ Ha). cbv beta in Hmin, Hmax.
  rewrite (proj2 (ltb_ge jd0 (jd first))) by lra.
  rewrite (proj2 (ltb_ge _ jd0)) by lra.
  cbn [orb]. rewrite Hbracket, unwrap_spec.
  destruct (unwrapSpec _ _). reflexivity.
Qed.



End EphemerisFacts.

Lemma getEphemerisPosition_out_of_range_witness :
  Ephemeris.getEphemerisPosition Ephemeris.exampleModules "Sun" 11 = None.
Proof.
  apply getEphemerisPosition_out_of_range.
  - vm_compute. discriminate.
  - right. vm_compute. repeat constructor.
Defined.


(** ** House coverage *)

Section Pairs.

Context {A : Type}.

Lemma adjacent_lookup (l : list A) (i : nat) (a b : A) :
l !! i = Some a -> l !! S i = Some b -> Houses.adjacent l !! i = Some (a, b).
Proof.
revert i. induction l as [|x rest IH]; intros i Ha Hb; [discriminate|].
destruct rest as [|y rest']; [destruct i; discriminate|].
destruct i as [|i].
- cbn in *. congruence.
- change (Houses.adjacent (x :: y :: rest') !! S i)
    with (Houses.adjacent (y :: rest') !! i).
  apply IH; assumption.
Qed.

Lemma adjacent_length (l : list A) : length (Houses.adjacent l) = Nat.pred (length l).
Proof.
induction l as [|x rest IH]; [reflexivity|].
destruct rest as [|y rest']; [reflexivity|].
change (length (Houses.adjacent (x :: y :: rest')))
  with (S (length (Houses.adjacent (y :: rest')))).
rewrite IH. reflexivity.
Qed.

(** The pair at index [i] of the closed circle is [(l[i], l[(i + 1) % n])]. *)
Lemma cyclicPairs_lookup (l : list A) (i : nat) :
(i < length l)%nat ->
exists a b,
  l !! i = Some a /\ l !! ((i + 1) mod length l)%nat = Some b
  /\ Houses.cyclicPairs l !! i = Some (a, b).
Proof.
intros Hi. destruct l as [|x rest]; [cbn in Hi; lia|].
set (l := x :: rest) in *.
destruct (lookup_lt_is_Some_2 l i Hi) as [a Ha].
assert (Hnext : exists b, l !! ((i + 1) mod length l)%nat = Some b
                          /\ (l ++ [x]) !! S i = Some b).
{ destruct (Nat.eq_dec (S i) (length l)) as [E | E].
  - exists x. replace (i + 1)%nat with (length l) by lia.
    rewrite Nat.Div0.mod_same. split; [reflexivity|].
    rewrite E, lookup_app_r by lia. now rewrite Nat.sub_diag.
  - replace (i + 1)%nat with (S i) by lia.
    rewrite Nat.mod_small by lia.
    destruct (lookup_lt_is_Some_2 l (S i)) as [b Hb]; [lia|].
    exists b. split; [exact Hb|]. now rewrite lookup_app_l by lia. }
destruct Hnext as (b & Hb & Hb').
exists a, b. split; [exact Ha|]. split; [exact Hb|].
unfold Houses.cyclicPairs, l. fold l.
apply adjacent_lookup; [|exact Hb'].
now rewrite lookup_app_l by lia.
Qed.

Lemma cyclicPairs_length (l : list A) : length (Houses.cyclicPairs l) = length l.
Proof.
destruct l as [|x rest]; [reflexivity|].
unfold Houses.cyclicPairs. rewrite adjacent_length, length_app. cbn. lia.
Qed.

(** Splitting the neighbours of an array at one of its pairs. *)
Lemma adjacent_app (l1 l2 : list A) (x y : A) :
Houses.adjacent (l1 ++ x :: y :: l2)
= Houses.adjacent (l1 ++ [x]) ++ (x, y) :: Houses.adjacent (y :: l2).
Proof.
induction l1 as [|a l1 IH]; [reflexivity|].
destruct l1 as [|b l1'].
- cbn [app]. cbn [app] in IH.
  change (Houses.adjacent (a :: x :: y :: l2))
    with ((a, x) :: Houses.adjacent (x :: y :: l2)).
  rewrite IH. reflexivity.
- change (Houses.adjacent ((a :: b :: l1') ++ x :: y :: l2))
    with ((a, b) :: Houses.adjacent ((b :: l1') ++ x :: y :: l2)).
  rewrite IH. reflexivity.
Qed.

(** A predicate that holds for exactly one element of an array holds at
  exactly one index. *)
Lemma unique_index (f : A -> bool) (l : list A) :
length (List.filter f l) = 1%nat ->
exists i x,
  l !! i = Some x /\ f x = true
  /\ forall j y, l !! j = Some y -> f y = true -> j = i.
Proof.
induction l as [|a l IH]; [discriminate|].
cbn [List.filter]. destruct (f a) eqn:Fa.
- cbn [length]. intros [= Hlen]. apply length_zero_iff_nil in Hlen.
  exists 0%nat, a. split; [reflexivity|]. split; [exact Fa|].
  intros [|j] y Hy Fy; [reflexivity|]. exfalso.
  assert (Hin : In y (List.filter f l)).
  { apply filter_In. split; [|exact Fy].
    apply list_elem_of_In, list_elem_of_lookup. now exists j. }
  rewrite Hlen in Hin. contradiction.
- intros Hlen. destruct (IH Hlen) as (i & x & Hx & Fx & Huniq).
  exists (S i), x. split; [exact Hx|]. split; [exact Fx|].
  intros [|j] y Hy Fy.
  + cbn in Hy. injection Hy as <-. congruence.
  + f_equal. now apply (Huniq j y).
Qed.

End Pairs.

Section Coverage.

Import Houses.

Local Abbreviation hits lon l := (length (List.filter (pairHolds lon) l)).

Lemma betweenCusps_proper (a b lon lon' : Q) :
lon == lon' -> betweenCusps a b lon = betweenCusps a b lon'.
Proof.
  intros E. unfold betweenCusps.
  rewrite (leb_proper a a (Qeq_refl a) lon lon' E).
  rewrite (ltb_proper lon lon' E b b (Qeq_refl b)).
  reflexivity.
Qed.

Lemma last_cons_default (y d d' : House) (s : list House) :
List.last (y :: s) d = List.last s d'
\/ (s = [] /\ List.last (y :: s) d = y).
Proof.
destruct s as [|z s]; [right; split; reflexivity|]. left.
change (List.last (y :: z :: s) d) with (List.last (z :: s) d).
revert z. induction s as [|w s IH]; intros z; [reflexivity|].
change (List.last (z :: w :: s) d) with (List.last (w :: s) d).
change (List.last (z :: w :: s) d') with (List.last (w :: s) d').
apply IH.
Qed.

Lemma last_cons (x y : House) (s : list House) :
List.last (y :: s) x = List.last s y.
Proof.
destruct (last_cons_default y x y s) as [E | [-> E]]; [exact E | reflexivity].
Qed.

Lemma sorted_last_ge (x : House) (s : list House) :
StronglySorted risesBefore (x :: s) ->
longitude x <= longitude (List.last s x).
Proof.
intros Hs. apply StronglySorted_inv in Hs as [_ Hx].
destruct s as [|y s]; [cbn; lra|].
rewrite List.Forall_forall in Hx.
specialize (Hx (List.last (y :: s) x)). unfold risesBefore in Hx.
apply Qlt_le_weak, Hx. apply last_In.
Qed.

(** In a strictly increasing array the neighbour pairs that accept
  [lon] number one when [lon] lies between the first and the last
  cusp, and none otherwise. *)
Lemma sorted_adjacent_hits (lon : Q) (x : House) (s : list House) :
StronglySorted risesBefore (x :: s) ->
hits lon (adjacent (x :: s))
= if Js.leb (longitude x) lon && Js.ltb lon (longitude (List.last s x))
  then 1%nat else 0%nat.
Proof.
revert x. induction s as [|y s IH]; intros x Hs.
- cbn. destruct (Js.leb (longitude x) lon) eqn:E1; [|reflexivity].
  apply leb_le in E1. now rewrite (proj2 (ltb_ge lon (longitude x))).
- pose proof Hs as Hs'. apply StronglySorted_inv in Hs' as [Hrest Hx].
  pose proof (sorted_last_ge _ _ Hrest) as Hlast.
  apply Forall_inv in Hx. unfold risesBefore in Hx.
  change (adjacent (x :: y :: s)) with ((x, y) :: adjacent (y :: s)).
  cbn [List.filter]. rewrite last_cons.
  unfold pairHolds at 1. cbn [fst snd]. unfold betweenCusps.
  rewrite (proj2 (ltb_lt (longitude x) (longitude y)) Hx).
  destruct (Js.leb (longitude y) lon) eqn:Ec.
  + apply leb_le in Ec.
    rewrite (proj2 (leb_le (longitude x) lon)) by lra.
    rewrite (proj2 (ltb_ge lon (longitude y))) by lra.
    cbn [andb]. rewrite (IH y Hrest).
    now rewrite (proj2 (leb_le (longitude y) lon)) by lra.
  + apply leb_gt in Ec.
    rewrite (proj2 (ltb_lt lon (longitude y))) by lra.
    rewrite (proj2 (ltb_lt lon (longitude (List.last s y)))) by lra.
    rewrite !andb_true_r.
    assert (Hnone : hits lon (adjacent (y :: s)) = 0%nat).
    { rewrite (IH y Hrest).
      now rewrite (proj2 (leb_gt (longitude y) lon)) by lra. }
    destruct (Js.leb (longitude x) lon); cbn [length]; now rewrite Hnone.
Qed.

(** Closing the circle from the last cusp to the first adds the one pair
  that accepts every other longitude. *)
Lemma sorted_cycle_hits (lon : Q) (x : House) (s : list House) :
StronglySorted risesBefore (x :: s) ->
(hits lon (adjacent (x :: s)) + hits lon [(List.last s x, x)] = 1)%nat.
Proof.
intros Hs. rewrite (sorted_adjacent_hits lon x s Hs).
pose proof (sorted_last_ge _ _ Hs) as Hlast.
cbn [List.filter]. unfold pairHolds. cbn [fst snd]. unfold betweenCusps.
rewrite (proj2 (ltb_ge (longitude (List.last s x)) (longitude x)) Hlast).
destruct (Js.leb (longitude x) lon) eqn:E1;
  destruct (Js.ltb lon (longitude (List.last s x))) eqn:E2; cbn [andb].
- apply leb_le in E1. apply ltb_lt in E2.
  rewrite (proj2 (leb_gt (longitude (List.last s x)) lon)) by lra.
  now rewrite (proj2 (ltb_ge lon (longitude x))) by lra.
- apply ltb_ge in E2.
  now rewrite (proj2 (leb_le (longitude (List.last s x)) lon)) by lra.
- apply leb_gt in E1.
  rewrite (proj2 (ltb_lt lon (longitude x))) by lra.
  now rewrite orb_true_r.
- apply leb_gt in E1.
  rewrite (proj2 (ltb_lt lon (longitude x))) by lra.
  now rewrite orb_true_r.
Qed.

Lemma hits_cons (lon : Q) (pair : House * House) (l : list (House * House)) :
  hits lon (pair :: l) = (hits lon [pair] + hits lon l)%nat.
Proof. cbn [List.filter]. now destruct (pairHolds lon pair). Qed.

Lemma adjacent_snoc (init : list House) (z w : House) :
adjacent ((init ++ [z]) ++ [w]) = adjacent (init ++ [z]) ++ [(z, w)].
Proof. rewrite <- app_assoc. cbn [app]. apply (adjacent_app init [] z w). Qed.

(** The loop of [getPlanetHouse] visits a rotation of these pairs:
  exactly one of them accepts [lon]. *)
Lemma wrapsOnce_hits (lon : Q) (houses : list House) :
wrapsOnce houses -> hits lon (cyclicPairs houses) = 1%nat.
Proof.
intros (high & low & -> & Hne & Hs).
destruct high as [|h0 hr]; [contradiction|]. clear Hne.
destruct (exists_last (l := h0 :: hr)) as (hi & hz & Hhigh); [discriminate|].
destruct low as [|y0 low'].
- rewrite app_nil_r. cbn [app] in Hs.
  pose proof (sorted_cycle_hits lon h0 hr Hs) as Hone.
  unfold cyclicPairs.
  assert (Hlast : List.last hr h0 = hz).
  { rewrite <- (last_cons h0 h0 hr), Hhigh. apply List.last_last. }
  rewrite Hlast in Hone.
  rewrite Hhigh, adjacent_snoc, <- Hhigh, List.filter_app, length_app.
  exact Hone.
- destruct (exists_last (l := y0 :: low')) as (li & lz & Hlow); [discriminate|].
  change ((y0 :: low') ++ h0 :: hr) with (y0 :: (low' ++ h0 :: hr)) in Hs.
  pose proof (sorted_cycle_hits lon y0 (low' ++ h0 :: hr) Hs) as Hone.
  assert (Hlast : List.last (low' ++ h0 :: hr) y0 = hz).
  { rewrite Hhigh, app_assoc. apply List.last_last. }
  rewrite Hlast in Hone.
  change (y0 :: (low' ++ h0 :: hr)) with ((y0 :: low') ++ h0 :: hr) in Hone.
  rewrite Hlow in Hone. rewrite <- app_assoc in Hone. cbn [app] in Hone.
  rewrite adjacent_app, List.filter_app, length_app, hits_cons in Hone.
  change (cyclicPairs ((h0 :: hr) ++ y0 :: low'))
    with (adjacent (((h0 :: hr) ++ y0 :: low') ++ [h0])).
  rewrite Hhigh, <- !app_assoc. cbn [app].
  rewrite adjacent_app, List.filter_app, length_app, hits_cons.
  change (y0 :: low' ++ [h0]) with ((y0 :: low') ++ [h0]).
  rewrite Hlow, adjacent_snoc, List.filter_app, length_app.
  rewrite <- Hhigh. lia.
Qed.

Lemma houseAt_pair (houses : list House) (lon : Q) (i : nat) :
  (i < length houses)%nat ->
  exists pair,
    cyclicPairs houses !! i = Some pair
    /\ houses !! i = Some (fst pair)
    /\ houseAt houses lon i
       = if pairHolds lon pair then Some (cusp (fst pair)) else None.
Proof.
  intros Hi.
  destruct (cyclicPairs_lookup houses i Hi) as (a & b & Ha & Hb & Hpair).
  exists (a, b). split; [exact Hpair|]. split; [exact Ha|].
  unfold houseAt, pairHolds. now rewrite Ha, Hb.
Qed.

Lemma houseAt_proper (houses : list House) (lon lon' : Q) (i : nat) :
  lon == lon' -> houseAt houses lon i = houseAt houses lon' i.
Proof.
  intros E. unfold houseAt.
  destruct (houses !! i); [|reflexivity].
  destruct (houses !! ((i + 1) mod length houses)%nat); [|reflexivity].
  now rewrite (betweenCusps_proper _ _ _ _ E).
Qed.

(** The loop returns what the single accepting index holds. *)
Lemma getPlanetHouseLoop_unique (houses : list House) (lon : Q) (i : nat)
    (found : Q) (indices : list nat) :
  houseAt houses lon i = Some found ->
  In i indices ->
  (forall j, In j indices -> j <> i -> houseAt houses lon j = None) ->
  getPlanetHouseLoop houses lon indices = Some found.
Proof.
  intros Hi. induction indices as [|k indices IH]; intros Hin Hothers;
    [contradiction|].
  cbn [getPlanetHouseLoop].
  destruct (Nat.eq_dec k i) as [-> | Hne].
  - now rewrite Hi.
  - rewrite (Hothers k) by (auto using in_eq).
    apply IH.
    + destruct Hin as [E | Hin]; [contradiction | exact Hin].
    + intros j Hj. apply Hothers. now right.
Qed.

(** On a strictly rising array an element is below every later one. *)
Lemma sorted_lookup_lt (l : list House) (i j : nat) (a b : House) :
  StronglySorted risesBefore l -> (i < j)%nat ->
  l !! i = Some a -> l !! j = Some b -> longitude a < longitude b.
Proof.
  intros Hs. revert i j. induction Hs as [|x l Hs IH Hx]; intros i j Hij Ha Hb;
    [discriminate|].
  destruct j as [|j]; [lia|]. cbn in Hb.
  destruct i as [|i].
  - cbn in Ha. injection Ha as <-.
    rewrite List.Forall_forall in Hx. apply Hx.
    apply list_elem_of_In. eapply list_elem_of_lookup_2, Hb.
  - cbn in Ha. apply (IH i j); [lia | exact Ha | exact Hb].
Qed.

(** The cusps of an array that wraps once are pairwise different. *)
Lemma wrapsOnce_distinct (houses : list House) (i j : nat) (a b : House) :
  wrapsOnce houses -> i <> j ->
  houses !! i = Some a -> houses !! j = Some b ->
  ~ longitude a == longitude b.
Proof.
  intros (high & low & -> & _ & Hs) Hne Ha Hb.
  assert (Hpos : forall k x,
             (high ++ low) !! k = Some x ->
             exists k',
               (low ++ high) !! k' = Some x
               /\ k' = if (k <? length high)%nat
                       then (length low + k)%nat else (k - length high)%nat).
  { intros k x Hk. eexists. split; [|reflexivity].
    destruct (k <? length high)%nat eqn:E;
      [apply Nat.ltb_lt in E | apply Nat.ltb_ge in E].
    - rewrite lookup_app_r by lia.
      replace (length low + k - length low)%nat with k by lia.
      now rewrite lookup_app_l in Hk by lia.
    - rewrite lookup_app_r in Hk by lia.
      rewrite lookup_app_l; [exact Hk|]. eapply lookup_lt_Some, Hk. }
  destruct (Hpos i a Ha) as (i' & Ha' & Ei), (Hpos j b Hb) as (j' & Hb' & Ej).
  assert (Hi : (i < length (high ++ low))%nat) by (eapply lookup_lt_Some, Ha).
  assert (Hj : (j < length (high ++ low))%nat) by (eapply lookup_lt_Some, Hb).
  rewrite length_app in Hi, Hj.
  assert (Hne' : i' <> j').
  { subst i' j'.
    destruct (i <? length high)%nat eqn:E1, (j <? length high)%nat eqn:E2;
      rewrite ?Nat.ltb_lt, ?Nat.ltb_ge in *; lia. }
  destruct (Nat.lt_total i' j') as [Hlt | [E | Hgt]]; [| contradiction |].
  - pose proof (sorted_lookup_lt _ _ _ _ _ Hs Hlt Ha' Hb'). lra.
  - pose proof (sorted_lookup_lt _ _ _ _ _ Hs Hgt Hb' Ha'). lra.
Qed.

Lemma betweenCusps_spec (c c' lon : Q) :
  betweenCusps c c' lon = true
  <-> (c < c' /\ c <= lon /\ lon < c') \/ (c' <= c /\ (c <= lon \/ lon < c')).
Proof.
  unfold betweenCusps.
  destruct (Js.ltb c c') eqn:E; [apply ltb_lt in E | apply ltb_ge in E].
  - rewrite andb_true_iff, leb_le, ltb_lt. split; [tauto|].
    intros [H | [H _]]; [tauto | lra].
  - rewrite orb_true_iff, leb_le, ltb_lt. split; [tauto|].
    intros [[H _] | H]; [lra | tauto].
Qed.

(** On an array that wraps once, the test of the loop body at an index
    is the interval from the cusp of that index to the next cusp. *)
Lemma inHouse_houseInterval (houses : list House) (lon : Q) (j : nat) :
  wrapsOnce houses -> (2 <= length houses)%nat -> (j < length houses)%nat ->
  0 <= lon -> lon < 360 ->
  inHouse houses lon j = true <-> houseInterval houses j lon.
Proof.
  intros Hwrap Hlen Hj H0 H360.
  destruct (lookup_lt_is_Some_2 houses j Hj) as [current Hcurrent].
  assert (Hnext : (((j + 1) mod length houses) < length houses)%nat)
    by (apply Nat.mod_upper_bound; lia).
  destruct (lookup_lt_is_Some_2 houses _ Hnext) as [next Hnext'].
  assert (Hne : (j <> (j + 1) mod length houses)%nat).
  { destruct (Nat.eq_dec (j + 1)%nat (length houses)) as [E | E].
    - rewrite E, Nat.Div0.mod_same. lia.
    - rewrite Nat.mod_small by lia. lia. }
  pose proof (wrapsOnce_distinct houses _ _ _ _ Hwrap Hne Hcurrent Hnext')
    as Hdistinct.
  unfold inHouse, houseAt, houseInterval. rewrite Hcurrent, Hnext'.
  destruct (betweenCusps (longitude current) (longitude next) lon) eqn:E.
  - split; [intros _ | reflexivity].
    apply betweenCusps_spec in E. exists current, next.
    split; [reflexivity|]. split; [reflexivity|].
    destruct E as [E | [Hle E]]; [now left | right].
    split; [lra|]. destruct E; [left | right]; lra.
  - split; [discriminate|]. intros (c & n & [= <-] & [= <-] & Hin).
    assert (Hyes : betweenCusps (longitude current) (longitude next) lon = true).
    { apply betweenCusps_spec. destruct Hin as [Hin | [Hlt Hin]]; [now left|].
      right. split; [lra|]. destruct Hin; [left | right]; lra. }
    congruence.
Qed.

(** C4: on a 12-cusp array numbered 1..12 whose longitudes rise strictly
    in array order and wrap once past 0, every longitude of [0, 360) lies
    in the interval from a cusp to the next cusp of exactly one index, so
    the twelve intervals partition the circle without gap or overlap, and
    [getPlanetHouse] returns the house number of that index, a value
    among 1..12. *)
Theorem getPlanetHouse_partitions_circle (houses : list House) (lon : Q) :
  length houses = 12%nat ->
  numbered houses ->
  wrapsOnce houses ->
  0 <= lon -> lon < 360 ->
  exists i,
    (i < 12)%nat
    /\ getPlanetHouse lon houses == inject_Z (Z.of_nat (S i))
    /\ forall j, (j < 12)%nat -> (houseInterval houses j lon <-> j = i).
Proof.
  intros Hlen Hnum Hwrap H0 H360.
  pose proof (normalizeAngle_id lon H0 H360) as Hnorm.
  destruct (unique_index _ _ (wrapsOnce_hits lon houses Hwrap))
    as (i & pair & Hpair & Hholds & Huniq).
  assert (Hi : (i < length houses)%nat).
  { rewrite <- cyclicPairs_length. eapply lookup_lt_Some, Hpair. }
  destruct (houseAt_pair houses lon i Hi) as (pair' & Hpair' & Hhouse & Hat).
  assert (pair' = pair) as -> by congruence.
  rewrite Hholds in Hat.
  assert (Hother : forall j, (j < 12)%nat -> j <> i -> houseAt houses lon j = None).
  { intros j Hj Hne. rewrite <- Hlen in Hj.
    destruct (houseAt_pair houses lon j Hj) as (q & Hq & _ & Hatj).
    rewrite Hatj. destruct (pairHolds lon q) eqn:E; [|reflexivity].
    elim Hne. now apply (Huniq j q). }
  exists i. split; [lia|]. split.
  - unfold getPlanetHouse.
    rewrite (getPlanetHouseLoop_unique houses _ i (cusp (fst pair))).
    + unfold numbered in Hnum.
      eapply (Forall2_lookup_lr _ _ _ i) in Hnum; [exact Hnum | exact Hhouse |].
      apply lookup_seq. split; [reflexivity | exact Hi].
    + now rewrite (houseAt_proper houses _ lon i Hnorm).
    + apply in_seq. lia.
    + intros j Hj Hne. apply in_seq in Hj.
      rewrite (houseAt_proper houses _ lon j Hnorm).
      apply Hother; lia.
  - intros j Hj.
    rewrite <- (inHouse_houseInterval houses lon j Hwrap) by (rewrite ?Hlen; lia || assumption).
    unfold inHouse. split.
    + intros Hin. destruct (Nat.eq_dec j i) as [E | Hne]; [exact E|].
      rewrite (Hother j Hj Hne) in Hin.
      discriminate.
    + intros ->. now rewrite Hat.
Qed.

End Coverage.

Lemma getPlanetHouse_partitions_circle_witness :
  Houses.getPlanetHouse 250 (Houses.calculateEqualHouses 100) == 6
  /\ Houses.houseInterval (Houses.calculateEqualHouses 100) 5 250
  /\ forall j, (j < 12)%nat ->
       Houses.houseInterval (Houses.calculateEqualHouses 100) j 250 ->
       j = 5%nat.
Proof.
  destruct (getPlanetHouse_partitions_circle
              (Houses.calculateEqualHouses 100) 250)
    as (i & Hi & Hhouse & Hunique).
  - reflexivity.
  - unfold Houses.numbered. vm_compute. repeat constructor.
  - exists (firstn 9 (Houses.calculateEqualHouses 100)),
      (skipn 9 (Houses.calculateEqualHouses 100)).
    split; [symmetry; apply firstn_skipn|].
    split; [vm_compute; discriminate|].
    vm_compute. repeat constructor.
  - vm_compute. discriminate.
  - reflexivity.
  - assert (Hsixth :
              Houses.houseInterval (Houses.calculateEqualHouses 100) 5 250).
    { eexists _, _. split; [vm_compute; reflexivity|].
      split; [vm_compute; reflexivity|].
      left. vm_compute. repeat split; congruence. }
    assert (i = 5%nat) as -> by (symmetry; apply (Hunique 5%nat); [lia | exact Hsixth]).
    split; [exact Hhouse|]. split; [exact Hsixth|].
    intros j Hj Hin. now apply (Hunique j).
Defined.

(** ** Calendar round trip *)

Section RoundTrip.

Import JulianDay.

Lemma floor_quotient (q : Q) (n : Z) (d : positive) :
q == n # d -> Js.floor q = inject_Z (n / Zpos d).
Proof. intros E. rewrite (floor_proper _ _ E). reflexivity. Qed.

Lemma leb_inject (a b : Z) : Js.leb (inject_Z a) (inject_Z b) = (a <=? b)%Z.
Proof.
destruct (a <=? b)%Z eqn:E.
- apply leb_le. rewrite <- Zle_Qle. now apply Z.leb_le.
- apply leb_gt. rewrite <- Zlt_Qlt. now apply Z.leb_gt.
Qed.

Lemma ltb_inject (a b : Z) : Js.ltb (inject_Z a) (inject_Z b) = (a <? b)%Z.
Proof.
destruct (a <? b)%Z eqn:E.
- apply ltb_lt. rewrite <- Zlt_Qlt. now apply Z.ltb_lt.
- apply ltb_ge. rewrite <- Zle_Qle. now apply Z.ltb_ge.
Qed.

Ltac floor_step n d :=
  match goal with
  | |- context [Js.floor ?q] =>
      lazymatch q with
      | context [Js.floor _] => fail
      | _ => rewrite (floor_quotient q n d) by (unfold Qeq; cbn; lia)
      end
  end.

Ltac push_inject :=
  repeat first
    [ rewrite inject_Z_plus | rewrite inject_Z_opp | progress unfold Z.sub ];
  repeat match goal with
    | |- context [inject_Z (Zpos ?p)] =>
        change (inject_Z (Zpos p)) with (Zpos p # 1)
    end.

(** The Julian Day of a date, half a day on, is its day number plus the
  fraction of the day. *)
Lemma dateToJulianDay_dayNumber (y m d : Z) (h mi s : Q) :
dateToJulianDay (inject_Z y) (inject_Z m) (inject_Z d) h mi s + 0.5
== inject_Z (dayNumber y m d) + (h + (mi + s / 60) / 60) / 24.
Proof.
unfold dateToJulianDay, dayNumber.
change 2 with (inject_Z 2) at 1. rewrite leb_inject.
destruct (m <=? 2)%Z; cbv zeta iota.
- rewrite (floor_quotient ((inject_Z y - 1) / 100) (y - 1) 100)
    by (unfold Qeq; cbn; lia).
  rewrite (floor_quotient (inject_Z ((y - 1) / 100) / 4) ((y - 1) / 100) 4)
    by (unfold Qeq; cbn; lia).
  rewrite (floor_quotient (365.25 * (inject_Z y - 1 + 4716))
             (36525 * (y - 1 + 4716)) 100)
    by (unfold Qeq; cbn; lia).
  rewrite (floor_quotient (30.6001 * (inject_Z m + 12 + 1))
             (306001 * (m + 12 + 1)) 10000)
    by (unfold Qeq; cbn; lia).
  push_inject. lra.
- rewrite (floor_quotient (inject_Z y / 100) y 100)
    by (unfold Qeq; cbn; lia).
  rewrite (floor_quotient (inject_Z (y / 100) / 4) (y / 100) 4)
    by (unfold Qeq; cbn; lia).
  rewrite (floor_quotient (365.25 * (inject_Z y + 4716))
             (36525 * (y + 4716)) 100)
    by (unfold Qeq; cbn; lia).
  rewrite (floor_quotient (30.6001 * (inject_Z m + 1))
             (306001 * (m + 1)) 10000)
    by (unfold Qeq; cbn; lia).
  push_inject. lra.
Qed.

(** The date of a Julian Day is the date of its day number
    [floor(jd + 0.5)] and the time of its fraction of a day. *)
Lemma julianDayToDate_dayNumber (x : Q) (N : Z) (f : Q) :
  x + 0.5 == inject_Z N + f -> 0 <= f -> f < 1 ->
  year (julianDayToDate x) == inject_Z (fst (fst (civilOfDayNumber N)))
  /\ month (julianDayToDate x) == inject_Z (snd (fst (civilOfDayNumber N)))
  /\ day (julianDayToDate x) = inject_Z (snd (civilOfDayNumber N))
  /\ hour (julianDayToDate x) = Js.floor (f * 24)
  /\ minute (julianDayToDate x)
     = Js.floor ((f * 24 - Js.floor (f * 24)) * 60)
  /\ second (julianDayToDate x)
     = Js.floor (((f * 24 - Js.floor (f * 24)) * 60
                  - Js.floor ((f * 24 - Js.floor (f * 24)) * 60)) * 60).
Proof.
  intros Hx Hf0 Hf1.
  assert (HZ : Js.floor (x + 0.5) = inject_Z N).
  { rewrite (floor_proper _ _ Hx). now apply floor_shift. }
  unfold julianDayToDate, civilOfDayNumber. cbv zeta. rewrite !HZ.
  change (Js.leb 2299161 (inject_Z N))
    with (Js.leb (inject_Z 2299161) (inject_Z N)).
  rewrite leb_inject.
  assert (HA : exists Az : Z,
             (if (2299161 <=? N)%Z
              then inject_Z N + 1
                   + Js.floor ((inject_Z N - 1867216.25) / 36524.25)
                   - Js.floor
                       (Js.floor ((inject_Z N - 1867216.25) / 36524.25) / 4)
              else inject_Z N) == inject_Z Az
             /\ Az = (if (2299161 <=? N)%Z
                      then let alpha := ((100 * N - 186721625) / 3652425)%Z in
                           (N + 1 + alpha - alpha / 4)%Z
                      else N)).
  { eexists. split; [|reflexivity]. destruct (2299161 <=? N)%Z; [|reflexivity].
    floor_step (100 * N - 186721625)%Z 3652425%positive.
    floor_step ((100 * N - 186721625) / 3652425)%Z 4%positive.
    cbv zeta. push_inject. lra. }
  destruct HA as (Az & HA & HAz). cbv zeta in HAz. rewrite <- HAz. clear HAz.
  remember (if (2299161 <=? N)%Z
            then inject_Z N + 1
                 + Js.floor ((inject_Z N - 1867216.25) / 36524.25)
                 - Js.floor
                     (Js.floor ((inject_Z N - 1867216.25) / 36524.25) / 4)
            else inject_Z N) as AQ eqn:HAQ.
  clear HAQ.
  remember ((100 * (Az + 1524) - 12210) / 36525)%Z as Cz eqn:HCz.
  remember ((36525 * Cz) / 100)%Z as Dz eqn:HDz.
  remember ((10000 * (Az + 1524 - Dz)) / 306001)%Z as Ez eqn:HEz.
  rewrite !(floor_quotient ((AQ + 1524 - 122.1) / 365.25)
              (100 * (Az + 1524) - 12210) 36525)
    by (rewrite HA; unfold Qeq; cbn; lia).
  rewrite <- !HCz.
  rewrite !(floor_quotient (365.25 * inject_Z Cz) (36525 * Cz) 100)
    by (unfold Qeq; cbn; lia).
  rewrite <- !HDz.
  rewrite !(floor_quotient ((AQ + 1524 - inject_Z Dz) / 30.6001)
              (10000 * (Az + 1524 - Dz)) 306001)
    by (rewrite HA; unfold Qeq; cbn; lia).
  rewrite <- !HEz.
  rewrite !(floor_quotient (30.6001 * inject_Z Ez) (306001 * Ez) 10000)
    by (unfold Qeq; cbn; lia).
  cbn [year month day hour minute second fst snd].
  remember (Az + 1524 - Dz - (306001 * Ez) / 10000)%Z as dz eqn:Hdz.
  remember (AQ + 1524 - inject_Z Dz - inject_Z ((306001 * Ez) / 10000)
            + (x + 0.5 - inject_Z N)) as dayQ eqn:HdayQ.
  assert (Hday : dayQ == inject_Z dz + f).
  { subst dayQ dz. rewrite HA. push_inject. lra. }
  assert (Hfloor : Js.floor dayQ = inject_Z dz).
  { rewrite (floor_proper _ _ Hday). now apply floor_shift. }
  rewrite !Hfloor.
  assert (Hhours : (dayQ - inject_Z dz) * 24 == f * 24) by lra.
  rewrite !(floor_proper _ _ Hhours).
  assert (Hminutes :
            ((dayQ - inject_Z dz) * 24 - Js.floor (f * 24)) * 60
            == (f * 24 - Js.floor (f * 24)) * 60) by lra.
  rewrite !(floor_proper _ _ Hminutes).
  assert (Hseconds :
            (((dayQ - inject_Z dz) * 24 - Js.floor (f * 24)) * 60
             - Js.floor ((f * 24 - Js.floor (f * 24)) * 60)) * 60
            == ((f * 24 - Js.floor (f * 24)) * 60
                - Js.floor ((f * 24 - Js.floor (f * 24)) * 60)) * 60) by lra.
  rewrite (floor_proper _ _ Hseconds).
  change 14 with (inject_Z 14). rewrite ltb_inject.
  assert (Hmonth :
            (if (Ez <? 14)%Z then inject_Z Ez - inject_Z 1 else inject_Z Ez - inject_Z 13)
            == inject_Z (if (Ez <? 14)%Z then Ez - 1 else Ez - 13)%Z).
  { destruct (Ez <? 14)%Z; push_inject; lra. }
  change 1 with (inject_Z 1) at 1 2. change 13 with (inject_Z 13).
  change 2 with (inject_Z 2) at 1.
  rewrite (ltb_proper _ _ (Qeq_refl (inject_Z 2)) _ _ Hmonth), ltb_inject.
  split; [|split; [exact Hmonth | repeat split]].
  destruct (2 <? (if (Ez <? 14)%Z then Ez - 1 else Ez - 13))%Z; push_inject; lra.
Qed.

Ltac zdiv := Z.div_mod_to_equations; lia.

Ltac month_cases H :=
  destruct H as [-> | [-> | [-> | [-> | [-> | [-> | [-> | [-> | [-> | [-> | [-> | ->]]]]]]]]]]];
  match goal with
  | |- context [(306001 * ?k / 10000)%Z] =>
      let v := eval vm_compute in (306001 * k / 10000)%Z in
      change (306001 * k / 10000)%Z with v
  end.

(** The integer conversions are inverse to each other on the dates of a
    shifted year [y'] (March to February) and shifted month [m'] in 3..14. *)
Lemma civilOfDayNumber_shifted (y' m' d N : Z) :
  (1599 <= y' <= 2400)%Z -> (3 <= m' <= 14)%Z -> (1 <= d <= 31)%Z ->
  (m' = 4 \/ m' = 6 \/ m' = 9 \/ m' = 11 -> d <= 30)%Z ->
  (m' = 14 ->
   d <= 29
   /\ (d = 29 ->
       (y' + 1) mod 4 = 0
       /\ ((y' + 1) mod 100 <> 0 \/ (y' + 1) mod 400 = 0)))%Z ->
  N = ((36525 * (y' + 4716)) / 100 + (306001 * (m' + 1)) / 10000 + d
       + (2 - y' / 100 + y' / 100 / 4) - 1524)%Z ->
  civilOfDayNumber N
  = (if (m' <? 13)%Z then y' else (y' + 1)%Z,
     if (m' <? 13)%Z then m' else (m' - 12)%Z, d).
Proof.
  intros Hy Hm Hd H30 Hfeb HN.
  assert (Hm12 : (m' = 3 \/ m' = 4 \/ m' = 5 \/ m' = 6 \/ m' = 7 \/ m' = 8
                  \/ m' = 9 \/ m' = 10 \/ m' = 11 \/ m' = 12 \/ m' = 13
                  \/ m' = 14)%Z) by lia.
  unfold civilOfDayNumber.
  assert (Hlow : (2299161 <= N)%Z) by (subst N; zdiv).
  rewrite (proj2 (Z.leb_le _ _) Hlow). cbv zeta.
  assert (Ha : ((100 * N - 186721625) / 3652425 = y' / 100 - 4)%Z).
  { subst N. month_cases Hm12; zdiv. }
  rewrite Ha.
  remember (N + 1 + (y' / 100 - 4) - (y' / 100 - 4) / 4 + 1524)%Z as B eqn:HB.
  assert (HC : ((100 * B - 12210) / 36525 = y' + 4716)%Z).
  { subst B N. month_cases Hm12; zdiv. }
  rewrite HC.
  assert (HE : (10000 * (B - 36525 * (y' + 4716) / 100) / 306001 = m' + 1)%Z).
  { subst B N. month_cases Hm12; zdiv. }
  rewrite HE.
  assert (Hday : (B - 36525 * (y' + 4716) / 100 - 306001 * (m' + 1) / 10000 = d)%Z).
  { subst B N. zdiv. }
  rewrite Hday.
  destruct (m' <? 13)%Z eqn:E0; [apply Z.ltb_lt in E0 | apply Z.ltb_ge in E0].
  - rewrite (proj2 (Z.ltb_lt (m' + 1) 14)) by lia.
    rewrite (proj2 (Z.ltb_lt 2 (m' + 1 - 1))) by lia.
    f_equal. f_equal; lia.
  - rewrite (proj2 (Z.ltb_ge (m' + 1) 14)) by lia.
    rewrite (proj2 (Z.ltb_ge 2 (m' + 1 - 13))) by lia.
    f_equal. f_equal; lia.
Qed.

Ltac each_month n k :=
  lazymatch n with
  | O => idtac
  | S ?n' =>
      destruct k as [|k];
      [ cbn [nth_error]; rewrite andb_true_iff, Z.leb_le; intros [Hd1 Hd2]
      | each_month n' k ]
  end.

(** What [validDate] says, on integers. *)

Lemma rem_inject (y : Z) (p : positive) :
  Js.rem (inject_Z y) (Zpos p # 1) == inject_Z (Z.rem y (Zpos p)).
Proof.
  unfold Js.rem, Js.trunc. cbn [Qdiv Qinv Qmult Qnum Qden inject_Z].
  rewrite Z.mul_1_r, Pos.mul_1_l.
  rewrite (Z.quot_rem' y (Zpos p)) at 1.
  change (Zpos p # 1) with (inject_Z (Zpos p)).
  rewrite inject_Z_plus, inject_Z_mult. lra.
Qed.

Lemma divisible_inject (y : Z) (p : positive) :
  (0 <= y)%Z -> Js.eqb (Js.rem (inject_Z y) (Zpos p # 1)) 0 = (y mod Zpos p =? 0)%Z.
Proof.
  intros Hy.
  rewrite (eqb_proper _ _ (rem_inject y p) 0 (inject_Z 0) (Qeq_refl 0)).
  rewrite Z.rem_mod_nonneg by lia.
  destruct (y mod Zpos p =? 0)%Z eqn:E.
  - apply Z.eqb_eq in E. rewrite E. reflexivity.
  - apply Z.eqb_neq in E. apply eqb_neq. intros H. apply E.
    unfold Qeq in H. cbn in H. lia.
Qed.

Lemma index_inject {A : Type} (l : list A) (m : Z) :
  Js.index l (inject_Z m - 1)
  = if (1 <=? m)%Z then nth_error l (Z.to_nat (m - 1)) else None.
Proof.
  assert (E : inject_Z m - 1 == inject_Z (m - 1)) by (push_inject; lra).
  unfold Js.index.
  rewrite (floor_proper _ _ E).
  rewrite (leb_proper 0 (inject_Z 0) (Qeq_refl 0) _ _ E), leb_inject.
  unfold Js.floor. rewrite (Qfloor_comp _ _ E), !Qfloor_Z.
  rewrite (proj2 (eqb_eq _ _)) by (rewrite E; reflexivity).
  cbn [andb].
  destruct (1 <=? m)%Z eqn:E1, (0 <=? m - 1)%Z eqn:E2; try reflexivity;
    rewrite ?Z.leb_le, ?Z.leb_gt in *; lia.
Qed.

Lemma validDate_spec (y m d : Z) :
  (0 <= y)%Z -> validDate y m d = true ->
  (1 <= m <= 12)%Z /\ (1 <= d <= 31)%Z
  /\ (m = 4 \/ m = 6 \/ m = 9 \/ m = 11 -> d <= 30)%Z
  /\ (m = 2%Z -> (d <= 29)%Z /\ (d = 29%Z -> leapYear y)).
Proof.
  intros Hy. unfold validDate. rewrite index_inject.
  destruct (1 <=? m)%Z eqn:Hm; [apply Z.leb_le in Hm | discriminate].
  unfold TimeCorrections.daysInMonth.
  change 4 with (4 # 1). change 100 with (100 # 1). change 400 with (400 # 1).
  rewrite !divisible_inject by exact Hy.
  remember (Z.to_nat (m - 1)) as k eqn:Hk.
  assert (Hmk : m = (Z.of_nat k + 1)%Z) by lia. clear Hk.
  each_month 12%nat k.
  all: try (change 31 with (inject_Z 31) in Hd2;
            rewrite leb_inject, Z.leb_le in Hd2; unfold leapYear; lia).
  all: try (change 30 with (inject_Z 30) in Hd2;
            rewrite leb_inject, Z.leb_le in Hd2; unfold leapYear; lia).
  - unfold leapYear.
    destruct (y mod 4 =? 0)%Z eqn:E4, (y mod 100 =? 0)%Z eqn:E100,
      (y mod 400 =? 0)%Z eqn:E400; cbn [andb orb negb] in Hd2;
      change 29 with (inject_Z 29) in Hd2;
      change 28 with (inject_Z 28) in Hd2;
      rewrite leb_inject, Z.leb_le in Hd2;
      rewrite ?Z.eqb_eq, ?Z.eqb_neq in *; lia.
  - cbn [nth_error]. destruct k; discriminate.
Qed.

Lemma inject_Z_bounds (k lo hi : Z) :
  (lo <= k <= hi)%Z -> inject_Z lo <= inject_Z k /\ inject_Z k <= inject_Z hi.
Proof. intros [H1 H2]. split; now rewrite <- Zle_Qle. Qed.

(** The date of the day number of a valid date, from the last day of
    1599 to the end of 2400. *)
Lemma civilOfDayNumber_dayNumber (y m d : Z) :
  ((1600 <= y <= 2400) \/ (y = 1599 /\ 3 <= m))%Z ->
  validDate y m d = true ->
  civilOfDayNumber (dayNumber y m d) = (y, m, d).
Proof.
  intros Hy Hvalid.
  destruct (validDate_spec y m d) as (Hm & Hd & H30 & Hfeb); [lia | exact Hvalid |].
  unfold dayNumber. unfold leapYear in Hfeb.
  destruct (m <=? 2)%Z eqn:E; [apply Z.leb_le in E | apply Z.leb_gt in E];
    cbv zeta.
  - rewrite (civilOfDayNumber_shifted (y - 1) (m + 12) d); try reflexivity;
      try lia.
    + rewrite (proj2 (Z.ltb_ge (m + 12) 13)) by lia. f_equal. f_equal; lia.
    + replace (y - 1 + 1)%Z with y by lia. intros Hm14.
      apply Hfeb. lia.
  - rewrite (civilOfDayNumber_shifted y m d); try reflexivity; try lia.
    now rewrite (proj2 (Z.ltb_lt m 13)) by lia.
Qed.

End RoundTrip.

(** ** Chart composition *)

Section ResultFacts.

Context {A B : Type}.

Lemma mapM_inr (f : A -> Result B) (l : list A) (l' : list B) :
mapM f l = inr l' -> Forall2 (fun a b => f a = inr b) l l'.
Proof.
revert l'. induction l as [|a l IH]; intros l'; cbn [mapM].
- intros [= <-]. constructor.
- destruct (f a) as [e|b] eqn:Fa; [discriminate|]. cbn [bind].
destruct (mapM f l) as [e|bs]; [discriminate|]. cbn [bind ret].
intros [= <-]. constructor; [exact Fa | now apply IH].
Qed.

Lemma mapM_total (f : A -> Result B) (l : list A) :
(forall a, exists b, f a = inr b) -> exists l', mapM f l = inr l'.
Proof.
intros Hf. induction l as [|a l [bs IH]]; cbn [mapM]; [now eexists|].
destruct (Hf a) as [b ->]. rewrite IH. cbn [bind ret]. now eexists.
Qed.

Lemma filter_twice (p q : A -> bool) (l : list A) :
  List.filter p (List.filter q l) = List.filter (fun x => p x && q x) l.
Proof.
  induction l as [|x l IH]; [reflexivity|]. cbn [List.filter].
  destruct (q x), (p x) eqn:Px; cbn [List.filter andb]; rewrite ?Px, IH;
    reflexivity.
Qed.

End ResultFacts.

Section ChartFacts.

Import Calculator.

Context `{MathLib}.
Context (EPHEMERIS_MODULES : gmap string (list Ephemeris.RawRecord)).
Context (calculateInnerPlanet : string -> Q -> option InnerPlanet).

(** The J2000 path never returns a chart. *)
Lemma calculateAtJD_throws (jd latitude longitude : Q) (houseSystem : string) :
exists e,
calculateAtJD EPHEMERIS_MODULES jd latitude longitude houseSystem = inl e.
Proof.
unfold calculateAtJD.
destruct (negb _); [unfold unavailable, throw; eauto|].
destruct (mapM _ _); cbn [bind]; [eauto|].
destruct (Planets.longitudeToZodiac _); cbn [bind]; unfold throw; eauto.
Qed.

(** The names that [getAllEphemerisPositions] returns. *)
Lemma getAllEphemerisPositions_names (jd : Q) :
map fst (Ephemeris.getAllEphemerisPositions EPHEMERIS_MODULES jd)
= List.filter
    (fun body =>
       Js.defined (Ephemeris.getEphemerisPosition EPHEMERIS_MODULES body jd))
    ["Sun"; "Mercury"; "Venus"; "Mars"; "Jupiter"; "Saturn"; "Uranus";
     "Neptune"; "Pluto"]%string.
Proof.
unfold Ephemeris.getAllEphemerisPositions.
set (lookup := fun body => Ephemeris.getEphemerisPosition EPHEMERIS_MODULES body jd).
change (fun body : string =>
          if String.eqb body "Moon" then []
          else match Ephemeris.getEphemerisPosition EPHEMERIS_MODULES body jd with
               | Some pos => [(body, pos)]
               | None => []
               end)
  with (fun body : string =>
          if String.eqb body "Moon" then []
          else match lookup body with
               | Some pos => [(body, pos)]
               | None => []
               end).
change (fun body : string =>
          Js.defined (Ephemeris.getEphemerisPosition EPHEMERIS_MODULES body jd))
  with (fun body : string => Js.defined (lookup body)).
clearbody lookup.
assert (Hgen : forall bodies : list string,
           map fst
             (flat_map
                (fun body : string =>
                   if String.eqb body "Moon" then []
                   else match lookup body with
                        | Some pos => [(body, pos)]
                        | None => []
                        end)
                bodies)
           = List.filter
               (fun body =>
                  negb (String.eqb body "Moon") && Js.defined (lookup body))
               bodies).
{ induction bodies as [|body bodies IH]; [reflexivity|].
  cbn [flat_map List.filter]. rewrite map_app, IH.
  destruct (String.eqb body "Moon"); [reflexivity|].
  destruct (lookup body); reflexivity. }
rewrite Hgen. reflexivity.
Qed.

(** The planets made of the ephemeris positions: the inner planets and
  the Moon are dropped, the others keep their name. *)
Lemma ephemerisPlanet_names (jd : Q)
  (positions : list (string * Ephemeris.Position))
  (outer : list (option ChartPlanet)) :
mapM (ephemerisPlanet jd) positions = inr outer ->
map planet (omap id outer)
= List.filter
    (fun body =>
       negb (existsb (String.eqb body) ["Mercury"; "Venus"; "Mars"; "Moon"]%string))
    (map fst positions).
Proof.
intros Hrun. apply mapM_inr in Hrun.
induction Hrun as [|[body pos] planet0 positions outer Hone _ IH];
  [reflexivity|].
cbn [map fst List.filter]. unfold ephemerisPlanet in Hone.
destruct (existsb (String.eqb body) _).
- injection Hone as <-. exact IH.
- destruct (Planets.longitudeToZodiac _); [discriminate|].
  injection Hone as <-. cbn. now rewrite IH.
Qed.

Lemma ephemerisPlanet_total (jd : Q) (entry : string * Ephemeris.Position) :
exists planet0, ephemerisPlanet jd entry = inr planet0.
Proof.
destruct entry as [body pos]. unfold ephemerisPlanet.
destruct (existsb _ _); [now eexists|].
destruct (longitudeToZodiac_ok (Ephemeris.positionLongitude pos))
  as (z & -> & _).
now eexists.
Qed.

Lemma innerPlanet_names (jd : Q) (entries : list (string * InnerPlanet))
  (inner : list ChartPlanet) :
mapM (innerPlanet jd) entries = inr inner -> map planet inner = map fst entries.
Proof.
intros Hrun. apply mapM_inr in Hrun.
induction Hrun as [|[name calc] planet0 entries inner Hone _ IH];
  [reflexivity|].
unfold innerPlanet in Hone.
destruct (Planets.longitudeToZodiac _); [discriminate|].
injection Hone as <-. cbn. now rewrite IH.
Qed.

Lemma innerPlanet_total (jd : Q) (entry : string * InnerPlanet) :
exists planet0, innerPlanet jd entry = inr planet0.
Proof.
destruct entry as [name calc]. unfold innerPlanet.
destruct (longitudeToZodiac_ok (innerLongitude calc)) as (z & -> & _).
now eexists.
Qed.

Lemma houseZodiac_total (house : Houses.House) :
exists result, houseZodiac house = inr result.
Proof.
unfold houseZodiac.
destruct (longitudeToZodiac_ok (Houses.longitude house)) as (z & -> & _).
now eexists.
Qed.

Lemma innerPlanets_names (jd : Q) (names : list string) :
map fst
  (flat_map
     (fun planetName =>
        match calculateInnerPlanet planetName jd with
        | Some calc => [(planetName, calc)]
        | None => []
        end)
     names)
= List.filter (fun name => Js.defined (calculateInnerPlanet name jd)) names.
Proof.
induction names as [|name names IH]; [reflexivity|].
cbn [flat_map List.filter]. rewrite map_app, IH.
destruct (calculateInnerPlanet name jd); reflexivity.
Qed.

(** The bodies of a returned chart.  The chart exists only on the
  path that read the date and found the Julian Day inside the Sun table;
  its planets are the outer bodies whose own lookup is not null, the
  inner planets that [calculateInnerPlanet] produced, and the Moon. *)
Lemma chart_bodies (birthData : BirthData) (chart : Chart) :
calculateBirthChart EPHEMERIS_MODULES calculateInnerPlanet birthData
= inr chart ->
let jd := chartJulianDay chart in
Ephemeris.available
  (Ephemeris.checkEphemerisAvailability EPHEMERIS_MODULES jd) = true
/\ chartBodies chart
   = List.filter
       (fun body =>
          Js.defined (Ephemeris.getEphemerisPosition EPHEMERIS_MODULES body jd))
       ["Sun"; "Jupiter"; "Saturn"; "Uranus"; "Neptune"; "Pluto"]%string
     ++ List.filter
          (fun name => Js.defined (calculateInnerPlanet name jd))
          ["Mercury"; "Venus"; "Mars"]%string
     ++ ["Moon"%string].
Proof.
unfold calculateBirthChart.
destruct (_ || useJ2000 birthData).
{ destruct (calculateAtJD_throws J2000_JD_TT (latitude birthData)
              (longitude birthData)
              (default "porphyry"%string (houseSystem birthData)))
    as [e ->].
  discriminate. }
destruct (julianDayOf birthData) as [jdData|]; [|discriminate].
destruct (Ephemeris.available _) eqn:Havailable; [|discriminate].
cbn [negb].
destruct (Planets.longitudeToZodiac (Moon.moonLongitude _)) as [e|moonZodiac];
  [discriminate|].
cbn [bind].
destruct (mapM (ephemerisPlanet _) _) as [e|outer] eqn:Houter; [discriminate|].
cbn [bind].
destruct (mapM (innerPlanet _) _) as [e|inner] eqn:Hinner; [discriminate|].
cbn [bind].
destruct (Planets.longitudeToZodiac (Houses.ascendant _)); [discriminate|].
cbn [bind].
destruct (Planets.longitudeToZodiac (Houses.mc _)); [discriminate|].
cbn [bind].
destruct (Planets.longitudeToZodiac (Houses.descendant _)); [discriminate|].
cbn [bind].
destruct (Planets.longitudeToZodiac (Houses.ic _)); [discriminate|].
cbn [bind].
destruct (mapM houseZodiac _); [discriminate|].
cbn [bind ret]. intros [= <-].
cbn [chartJulianDay]. split; [exact Havailable|].
unfold chartBodies. cbn [planets].
rewrite map_map.
rewrite (List.map_ext _ planet) by reflexivity.
rewrite !map_app.
rewrite (ephemerisPlanet_names _ _ _ Houter).
rewrite (innerPlanet_names _ _ _ Hinner).
rewrite getAllEphemerisPositions_names, innerPlanets_names, filter_twice.
cbn [List.filter existsb String.eqb Ascii.eqb Bool.eqb negb orb andb map planet].
reflexivity.
Qed.

(** Inside the Sun table the Sun itself is found. *)
Lemma sun_found_when_available (jd : Q) :
  Ephemeris.available
    (Ephemeris.checkEphemerisAvailability EPHEMERIS_MODULES jd) = true ->
  Js.defined (Ephemeris.getEphemerisPosition EPHEMERIS_MODULES "Sun" jd) = true.
Proof.
  unfold Ephemeris.checkEphemerisAvailability, Ephemeris.getEphemerisPosition.
  intros Havailable.
  destruct (Ephemeris.lookupPosition _ jd) eqn:E; [reflexivity|].
  apply lookupPosition_None in E.
  destruct (Ephemeris.loadEphemerisData EPHEMERIS_MODULES "Sun")
    as [|first rest]; [discriminate|].
  cbn [Ephemeris.available] in Havailable.
  apply andb_true_iff in Havailable as [H1 H2].
  apply leb_le in H1, H2. destruct E; lra.
Qed.

(** C2 (amended): [calculateBirthChart] either raises an error or returns
    a chart that holds the Sun and the Moon, each of Jupiter, Saturn,
    Uranus, Neptune and Pluto exactly when the lookup in its own table is
    not null, and each of Mercury, Venus and Mars exactly when
    [calculateInnerPlanet] gave a result; a body without a position is left
    out of the chart. *)
Theorem calculateBirthChart_bodies (birthData : BirthData) (chart : Chart) :
  calculateBirthChart EPHEMERIS_MODULES calculateInnerPlanet birthData
  = inr chart ->
  let jd := chartJulianDay chart in
  chartBodies chart
  = List.filter
      (fun body =>
         Js.defined (Ephemeris.getEphemerisPosition EPHEMERIS_MODULES body jd))
      ["Sun"; "Jupiter"; "Saturn"; "Uranus"; "Neptune"; "Pluto"]%string
    ++ List.filter
         (fun name => Js.defined (calculateInnerPlanet name jd))
         ["Mercury"; "Venus"; "Mars"]%string
    ++ ["Moon"%string]
  /\ In "Sun"%string (chartBodies chart)
  /\ In "Moon"%string (chartBodies chart).
Proof.
  intros Hrun jd.
  destruct (chart_bodies birthData chart Hrun) as [Havailable Hbodies].
  fold jd in Havailable, Hbodies.
  split; [exact Hbodies|]. rewrite Hbodies. split.
  - apply in_or_app. left. cbn [List.filter].
    rewrite (sun_found_when_available jd Havailable). now left.
  - apply in_or_app. right. apply in_or_app. right. now left.
Qed.

(** A chart is returned whenever the date is given and its Julian Day
    lies inside the Sun table. *)
Lemma calculateBirthChart_returns (birthData : BirthData)
    (jdData : JulianDay.JulianDayTT) :
  Js.truthy (year birthData) || Js.truthy (month birthData)
  || Js.truthy (day birthData) = true ->
  useJ2000 birthData = false ->
  julianDayOf birthData = Some jdData ->
  Ephemeris.available
    (Ephemeris.checkEphemerisAvailability EPHEMERIS_MODULES
       (JulianDay.jd_tt jdData)) = true ->
  exists chart,
    calculateBirthChart EPHEMERIS_MODULES calculateInnerPlanet birthData
    = inr chart
    /\ chartJulianDay chart = JulianDay.jd_tt jdData.
Proof.
  intros Hdate HJ2000 Hjd Havailable. unfold calculateBirthChart.
  rewrite HJ2000, Hjd, Havailable.
  replace (negb (Js.truthy (year birthData))
           && negb (Js.truthy (month birthData))
           && negb (Js.truthy (day birthData)) || false) with false.
  2:{ destruct (Js.truthy (year birthData)), (Js.truthy (month birthData)),
        (Js.truthy (day birthData)); cbn in *; congruence. }
  cbn [negb].
  destruct (longitudeToZodiac_ok
              (Moon.moonLongitude
                 (Moon.calculateMoonPosition (JulianDay.jd_tt jdData)
                    Moon.noOptions))) as (moonZodiac & -> & _).
  cbn [bind].
  destruct (mapM_total (ephemerisPlanet (JulianDay.jd_tt jdData))
              (Ephemeris.getAllEphemerisPositions EPHEMERIS_MODULES
                 (JulianDay.jd_tt jdData))
              (ephemerisPlanet_total _)) as [outer ->].
  cbn [bind].
  match goal with
  | |- context [mapM (innerPlanet ?jd) ?l] =>
      destruct (mapM_total (innerPlanet jd) l (innerPlanet_total _))
        as [inner ->]
  end.
  cbn [bind].
  repeat match goal with
  | |- context [Planets.longitudeToZodiac ?l] =>
      destruct (longitudeToZodiac_ok l) as (? & -> & _); cbn [bind]
  end.
  match goal with
  | |- context [mapM houseZodiac ?l] =>
      destruct (mapM_total houseZodiac l houseZodiac_total) as [houses ->]
  end.
  cbn [bind ret]. eexists. split; reflexivity.
Qed.

End ChartFacts.

(** The chart of noon, 1 January 2000 over [partialModules], whatever the
    [Math] library and the inner-planet calculator. *)
Lemma noon2000_chart `{MathLib}
    (calculateInnerPlanet : string -> Q -> option Calculator.InnerPlanet) :
  exists chart,
    Calculator.calculateBirthChart Calculator.partialModules
      calculateInnerPlanet Calculator.noon2000 = inr chart
    /\ Calculator.chartJulianDay chart
       = JulianDay.jd_tt
           (JulianDay.dateToJulianDayTT 2000 1 1 (Some 12) (Some 0) (Some 0)).
Proof.
  apply (calculateBirthChart_returns Calculator.partialModules
         calculateInnerPlanet Calculator.noon2000);
    [reflexivity | reflexivity | reflexivity | vm_compute; reflexivity].
Qed.

Lemma noon2000_without_jupiter `{MathLib}
    (calculateInnerPlanet : string -> Q -> option Calculator.InnerPlanet)
    (chart : Calculator.Chart) :
  Calculator.calculateBirthChart Calculator.partialModules
    calculateInnerPlanet Calculator.noon2000 = inr chart ->
  ~ In "Jupiter"%string (Calculator.chartBodies chart).
Proof.
  intros Hrun.
  destruct (noon2000_chart calculateInnerPlanet) as (chart' & Hrun' & Hjd).
  assert (chart' = chart) as -> by congruence.
  destruct (chart_bodies _ _ _ _ Hrun) as [_ Hbodies].
  cbv zeta in Hbodies. rewrite Hbodies, Hjd.
  assert (Houter :
            List.filter
              (fun body =>
                 Js.defined
                   (Ephemeris.getEphemerisPosition Calculator.partialModules body
                      (JulianDay.jd_tt
                         (JulianDay.dateToJulianDayTT 2000 1 1 (Some 12)
                            (Some 0) (Some 0)))))
              ["Sun"; "Jupiter"; "Saturn"; "Uranus"; "Neptune"; "Pluto"]%string
            = ["Sun"; "Saturn"; "Uranus"; "Neptune"; "Pluto"]%string)
    by (vm_compute; reflexivity).
  rewrite Houter. intros Hin.
  apply in_app_or in Hin as [Hin | Hin].
  - cbn in Hin. repeat (destruct Hin as [Hin | Hin]; [discriminate|]).
    exact Hin.
  - apply in_app_or in Hin as [Hin | Hin].
    + apply filter_In in Hin as [Hin _]. cbn in Hin.
      repeat (destruct Hin as [Hin | Hin]; [discriminate|]). exact Hin.
    + cbn in Hin. destruct Hin as [Hin | Hin]; [discriminate | exact Hin].
Qed.

(** C2, as stated, fails: with every table but Jupiter's covering noon of
    1 January 2000, the Sun-based availability check passes, the lookup of
    Jupiter is null, and the chart comes back without Jupiter. *)
Lemma partial_chart_is_returned : ~ Calculator.allOrNothing.
Proof.
  intros Hall.
  destruct (@noon2000_chart smallAngleMath (Calculator.innerAt 100))
    as (chart & Hrun & _).
  apply (@noon2000_without_jupiter smallAngleMath _ chart Hrun).
  apply (Hall smallAngleMath _ _ _ chart Hrun).
  cbn. tauto.
Qed.

Lemma calculateBirthChart_bodies_witness :
  exists chart,
    @Calculator.calculateBirthChart smallAngleMath Calculator.partialModules
      (Calculator.innerAt 100) Calculator.noon2000 = inr chart
    /\ Calculator.chartBodies chart
       = List.filter
           (fun body =>
              Js.defined
                (Ephemeris.getEphemerisPosition Calculator.partialModules body
                   (Calculator.chartJulianDay chart)))
           ["Sun"; "Jupiter"; "Saturn"; "Uranus"; "Neptune"; "Pluto"]%string
         ++ List.filter
              (fun name =>
                 Js.defined
                   (Calculator.innerAt 100 name (Calculator.chartJulianDay chart)))
              ["Mercury"; "Venus"; "Mars"]%string
         ++ ["Moon"%string]
    /\ In "Sun"%string (Calculator.chartBodies chart)
    /\ In "Moon"%string (Calculator.chartBodies chart).
Proof.
  destruct (@noon2000_chart smallAngleMath (Calculator.innerAt 100))
    as (chart & Hrun & _).
  exists chart. split; [exact Hrun|].
  exact (@calculateBirthChart_bodies smallAngleMath Calculator.partialModules
           (Calculator.innerAt 100) Calculator.noon2000 chart Hrun).
Defined.

(** * Further properties *)

(** ** Angles modulo a full turn *)

Lemma inject_Z_small (k : Z) : -1 < inject_Z k -> inject_Z k < 1 -> k = 0%Z.
Proof.
  intros Hlo Hhi.
  change (-1) with (inject_Z (-1)) in Hlo. change 1 with (inject_Z 1) in Hhi.
  rewrite <- Zlt_Qlt in Hlo, Hhi. lia.
Qed.

Lemma normalizeAngle_congruent (x : Q) :
  exists k : Z, JulianDay.normalizeAngle x == x - 360 * inject_Z k.
Proof.
  unfold JulianDay.normalizeAngle, Js.rem.
  destruct (Js.ltb _ 0).
  - exists (Js.trunc (x / 360) - 1)%Z.
    unfold Z.sub. rewrite inject_Z_plus, inject_Z_opp.
    change (inject_Z 1) with 1. ring.
  - exists (Js.trunc (x / 360)). reflexivity.
Qed.

Lemma normalizeAngle_unique (x y : Q) (k : Z) :
  0 <= y -> y < 360 -> x == y + 360 * inject_Z k ->
  JulianDay.normalizeAngle x == y.
Proof.
  intros Hy0 Hy1 Hx.
  destruct (normalizeAngle_range x) as [Hn0 Hn1].
  destruct (normalizeAngle_congruent x) as [m Hm].
  assert (Hz : (k - m = 0)%Z).
  { apply inject_Z_small; unfold Z.sub; rewrite inject_Z_plus, inject_Z_opp; lra. }
  assert (Hk : inject_Z k == inject_Z m).
  { replace k with m by lia. reflexivity. }
  lra.
Qed.

Lemma normalizeAngle_turns (x : Q) (k : Z) :
  JulianDay.normalizeAngle (x + 360 * inject_Z k) == JulianDay.normalizeAngle x.
Proof.
  destruct (normalizeAngle_range x) as [Hn0 Hn1].
  destruct (normalizeAngle_congruent x) as [m Hm].
  apply (normalizeAngle_unique _ _ (k + m)); [assumption | assumption |].
  rewrite inject_Z_plus. lra.
Qed.

Lemma normalizeAngle_plus_l (x y : Q) :
  JulianDay.normalizeAngle (JulianDay.normalizeAngle x + y)
  == JulianDay.normalizeAngle (x + y).
Proof.
  destruct (normalizeAngle_congruent x) as [m Hm].
  rewrite <- (normalizeAngle_turns (x + y) (- m)).
  apply normalizeAngle_proper. rewrite inject_Z_opp. lra.
Qed.

(** ** The calendar *)

Section CalendarFacts.

Import JulianDay.

Ltac zdiv := Z.div_mod_to_equations; lia.

(** The month and the day that [julianDayToDate] computes are in range for
    every day number. *)
Lemma civilOfDayNumber_range (N : Z) :
  (1 <= snd (fst (civilOfDayNumber N)) <= 12)%Z
  /\ (1 <= snd (civilOfDayNumber N) <= 31)%Z.
Proof.
  unfold civilOfDayNumber. cbv zeta. cbn [fst snd].
  set (A := if (2299161 <=? N)%Z then _ else N). clearbody A.
  remember ((100 * (A + 1524) - 12210) / 36525)%Z as C eqn:HC.
  remember (36525 * C / 100)%Z as D eqn:HD.
  assert (HBD : (123 <= A + 1524 - D <= 488)%Z) by (subst D C; zdiv).
  remember (A + 1524 - D)%Z as BD eqn:HBDeq. clear HBDeq HD HC.
  remember (10000 * BD / 306001)%Z as E eqn:HE.
  assert (HE15 : (4 <= E <= 15)%Z) by (subst E; zdiv).
  assert (Hcases : (E = 4 \/ E = 5 \/ E = 6 \/ E = 7 \/ E = 8 \/ E = 9 \/ E = 10
                    \/ E = 11 \/ E = 12 \/ E = 13 \/ E = 14 \/ E = 15)%Z) by lia.
  destruct Hcases as [H|[H|[H|[H|[H|[H|[H|[H|[H|[H|[H|H]]]]]]]]]]];
    rewrite H in *; cbn; split; try lia; zdiv.
Qed.

Lemma floor_range (x : Q) (lo hi : Z) :
  inject_Z lo <= x -> x < inject_Z hi ->
  exists k : Z, Js.floor x = inject_Z k /\ (lo <= k < hi)%Z.
Proof.
  intros Hlo Hhi. exists (Qfloor x). split; [reflexivity|].
  pose proof (Qfloor_le x) as H1. pose proof (Qlt_floor x) as H2.
  split.
  - assert (H : inject_Z lo < inject_Z (Qfloor x + 1)) by lra.
    rewrite <- Zlt_Qlt in H. lia.
  - assert (H : inject_Z (Qfloor x) < inject_Z hi) by lra.
    now rewrite <- Zlt_Qlt in H.
Qed.

(** The day number and the fraction of a day of a Julian Day. *)
Lemma day_and_fraction (x : Q) :
  exists (N : Z) (f : Q), x + 0.5 == inject_Z N + f /\ 0 <= f /\ f < 1.
Proof.
  exists (Qfloor (x + 0.5)), (x + 0.5 - inject_Z (Qfloor (x + 0.5))).
  pose proof (Qfloor_le (x + 0.5)) as H1. pose proof (Qlt_floor (x + 0.5)) as H2.
  rewrite inject_Z_plus in H2. change (inject_Z 1) with 1 in H2.
  repeat split; lra.
Qed.

(** The time of day that the fraction [f] of a day gives. *)
Lemma time_of_fraction (f : Q) :
  0 <= f -> f < 1 ->
  exists h mi s : Z,
    Js.floor (f * 24) = inject_Z h
    /\ Js.floor ((f * 24 - Js.floor (f * 24)) * 60) = inject_Z mi
    /\ Js.floor (((f * 24 - Js.floor (f * 24)) * 60
                  - Js.floor ((f * 24 - Js.floor (f * 24)) * 60)) * 60)
       = inject_Z s
    /\ (0 <= h <= 23)%Z /\ (0 <= mi <= 59)%Z /\ (0 <= s <= 59)%Z
    /\ (inject_Z h + (inject_Z mi + inject_Z s / 60) / 60) / 24 <= f
    /\ f < (inject_Z h + (inject_Z mi + inject_Z s / 60) / 60) / 24 + 1 / 86400.
Proof.
  intros Hf0 Hf1.
  destruct (floor_range (f * 24) 0 24) as (h & Hh & Hhr);
    [change (inject_Z 0) with 0; lra | change (inject_Z 24) with 24; lra |].
  pose proof (floor_le (f * 24)) as Hh1. pose proof (floor_lt (f * 24)) as Hh2.
  rewrite Hh in *.
  destruct (floor_range ((f * 24 - inject_Z h) * 60) 0 60) as (mi & Hmi & Hmir);
    [change (inject_Z 0) with 0; lra | change (inject_Z 60) with 60; lra |].
  pose proof (floor_le ((f * 24 - inject_Z h) * 60)) as Hm1.
  pose proof (floor_lt ((f * 24 - inject_Z h) * 60)) as Hm2.
  rewrite Hmi in *.
  destruct (floor_range (((f * 24 - inject_Z h) * 60 - inject_Z mi) * 60) 0 60)
    as (s & Hs & Hsr);
    [change (inject_Z 0) with 0; lra | change (inject_Z 60) with 60; lra |].
  pose proof (floor_le (((f * 24 - inject_Z h) * 60 - inject_Z mi) * 60)) as Hs1.
  pose proof (floor_lt (((f * 24 - inject_Z h) * 60 - inject_Z mi) * 60)) as Hs2.
  rewrite Hs in *.
  exists h, mi, s.
  assert (E : (inject_Z h + (inject_Z mi + inject_Z s / 60) / 60) / 24
              == inject_Z h * (1 # 24) + inject_Z mi * (1 # 1440)
                 + inject_Z s * (1 # 86400)) by field.
  assert (E1 : 1 / 86400 == 1 # 86400) by reflexivity.
  repeat split; try reflexivity; try lia; rewrite ?E, ?E1; lra.
Qed.

(** On the day numbers of the years 1600..2400 the integer conversions
    are inverse to each other in the other direction as well. *)
Lemma dayNumber_civilOfDayNumber (N : Z) :
  (2305448 <= N <= 2598007)%Z ->
  dayNumber (fst (fst (civilOfDayNumber N))) (snd (fst (civilOfDayNumber N)))
    (snd (civilOfDayNumber N)) = N.
Proof.
  intros HN.
  unfold civilOfDayNumber.
  rewrite (proj2 (Z.leb_le 2299161 N)) by lia. cbv zeta. cbn [fst snd].
  remember ((100 * N - 186721625) / 3652425)%Z as alpha eqn:Halpha.
  assert (Ha : (11 <= alpha <= 20)%Z) by (subst alpha; zdiv).
  remember (N + 1 + alpha - alpha / 4 + 1524)%Z as B eqn:HB.
  remember ((100 * B - 12210) / 36525)%Z as C eqn:HC.
  assert (Hcentury : ((C - 4716) / 100 = alpha + 4)%Z).
  { assert (Hcases : (alpha = 11 \/ alpha = 12 \/ alpha = 13 \/ alpha = 14
                      \/ alpha = 15 \/ alpha = 16 \/ alpha = 17 \/ alpha = 18
                      \/ alpha = 19 \/ alpha = 20)%Z) by lia.
    destruct Hcases as [H|[H|[H|[H|[H|[H|[H|[H|[H|H]]]]]]]]];
      rewrite H in *; subst C B; zdiv. }
  remember (36525 * C / 100)%Z as D eqn:HD.
  assert (HBD : (123 <= B - D <= 488)%Z) by (subst D C; zdiv).
  remember (10000 * (B - D) / 306001)%Z as E eqn:HE.
  assert (HE15 : (4 <= E <= 15)%Z) by (subst E; zdiv).
  unfold dayNumber.
  destruct (E <? 14)%Z eqn:E14; [apply Z.ltb_lt in E14 | apply Z.ltb_ge in E14].
  - rewrite (proj2 (Z.ltb_lt 2 (E - 1))) by lia.
    rewrite (proj2 (Z.leb_gt (E - 1) 2)) by lia. cbv zeta.
    replace (C - 4716 + 4716)%Z with C by lia.
    replace (E - 1 + 1)%Z with E by lia.
    rewrite Hcentury, <- HD. subst B. zdiv.
  - rewrite (proj2 (Z.ltb_ge 2 (E - 13))) by lia.
    rewrite (proj2 (Z.leb_le (E - 13) 2)) by lia. cbv zeta.
    replace (C - 4715 - 1 + 4716)%Z with C by lia.
    replace (E - 13 + 12 + 1)%Z with E by lia.
    replace (C - 4715 - 1)%Z with (C - 4716)%Z by lia.
    rewrite Hcentury, <- HD. subst B. zdiv.
Qed.

#[global] Instance dateToJulianDay_proper :
  Proper (Qeq ==> Qeq ==> Qeq ==> Qeq ==> Qeq ==> Qeq ==> Qeq) dateToJulianDay.
Proof.
  intros y y' Hy m m' Hm d d' Hd h h' Hh mi mi' Hmi s s' Hs.
  unfold dateToJulianDay.
  rewrite (leb_proper _ _ Hm 2 2 (Qeq_refl 2)).
  destruct (Js.leb m' 2).
  - rewrite (floor_proper ((y - 1) / 100) ((y' - 1) / 100)) by now rewrite Hy.
    rewrite (floor_proper (365.25 * (y - 1 + 4716)) (365.25 * (y' - 1 + 4716)))
      by now rewrite Hy.
    rewrite (floor_proper (30.6001 * (m + 12 + 1)) (30.6001 * (m' + 12 + 1)))
      by now rewrite Hm.
    now rewrite Hd, Hh, Hmi, Hs.
  - rewrite (floor_proper (y / 100) (y' / 100)) by now rewrite Hy.
    rewrite (floor_proper (365.25 * (y + 4716)) (365.25 * (y' + 4716)))
      by now rewrite Hy.
    rewrite (floor_proper (30.6001 * (m + 1)) (30.6001 * (m' + 1)))
      by now rewrite Hm.
    now rewrite Hd, Hh, Hmi, Hs.
Qed.

(** X5: the calendar round trip from the Julian Day side.  For a Julian
    Day of the years 1600..2400 (from 1600-01-01 0h to the end of
    2400-12-31), the date and time of [julianDayToDate(jd)], converted
    back by [dateToJulianDay], is the start of the second that holds
    [jd]: not after [jd] and less than one second before it. *)
Theorem dateToJulianDay_julianDayToDate (jd : Q) :
  2305447.5 <= jd -> jd < 2598007.5 ->
  let date := julianDayToDate jd in
  let back :=
    dateToJulianDay (year date) (month date) (day date) (hour date)
      (minute date) (second date) in
  back <= jd /\ jd < back + 1 / 86400.
Proof.
  intros Hlo Hhi date back.
  destruct (day_and_fraction jd) as (N & f & Hx & Hf0 & Hf1).
  assert (HN : (2305448 <= N <= 2598007)%Z).
  { split.
    - assert (H : inject_Z 2305448 < inject_Z (N + 1)).
      { rewrite inject_Z_plus. change (inject_Z 1) with 1.
        change (inject_Z 2305448) with 2305448. lra. }
      rewrite <- Zlt_Qlt in H. lia.
    - assert (H : inject_Z N < inject_Z 2598008).
      { change (inject_Z 2598008) with 2598008. lra. }
      rewrite <- Zlt_Qlt in H. lia. }
  destruct (julianDayToDate_dayNumber jd N f Hx Hf0 Hf1)
    as (Hyear & Hmonth & Hday & Hhour & Hminute & Hsecond).
  destruct (time_of_fraction f Hf0 Hf1)
    as (h & mi & s & Hh & Hmi & Hs & _ & _ & _ & Ht0 & Ht1).
  fold date in Hyear, Hmonth, Hday, Hhour, Hminute, Hsecond.
  rewrite Hs in Hsecond. rewrite Hmi in Hminute. rewrite Hh in Hhour.
  assert (Hback : back + 0.5
                  == inject_Z N
                     + (inject_Z h + (inject_Z mi + inject_Z s / 60) / 60) / 24).
  { unfold back.
    rewrite (dateToJulianDay_proper _ _ Hyear _ _ Hmonth _ _ (Qeq_refl _)
               _ _ (Qeq_refl _) _ _ (Qeq_refl _) _ _ (Qeq_refl _)).
    rewrite Hday, Hhour, Hminute, Hsecond.
    rewrite dateToJulianDay_dayNumber.
    now rewrite (dayNumber_civilOfDayNumber N HN). }
  split; lra.
Qed.

Lemma dateToJulianDay_julianDayToDate_witness :
  let date := julianDayToDate 2451545.25 in
  let back :=
    dateToJulianDay (year date) (month date) (day date) (hour date)
      (minute date) (second date) in
  back <= 2451545.25 /\ 2451545.25 < back + 1 / 86400.
Proof.
  apply (dateToJulianDay_julianDayToDate 2451545.25); vm_compute; congruence.
Defined.

(** Evaluation of the closed integer subterms of the goal. *)
Ltac closed_Z_step :=
  match goal with
    | |- context [(Zpos ?a + Zpos ?b)%Z] =>
        let v := eval vm_compute in (Zpos a + Zpos b)%Z in
        change (Zpos a + Zpos b)%Z with v
    | |- context [(Zpos ?a - Zpos ?b)%Z] =>
        let v := eval vm_compute in (Zpos a - Zpos b)%Z in
        change (Zpos a - Zpos b)%Z with v
    | |- context [(Zpos ?a * Zpos ?b)%Z] =>
        let v := eval vm_compute in (Zpos a * Zpos b)%Z in
        change (Zpos a * Zpos b)%Z with v
    | |- context [(Zpos ?a / Zpos ?b)%Z] =>
        let v := eval vm_compute in (Zpos a / Zpos b)%Z in
        change (Zpos a / Zpos b)%Z with v
    | |- context [(Zpos ?a <=? Zpos ?b)%Z] =>
        let v := eval vm_compute in (Zpos a <=? Zpos b)%Z in
        change (Zpos a <=? Zpos b)%Z with v
    | |- context [(Zpos ?a <? Zpos ?b)%Z] =>
        let v := eval vm_compute in (Zpos a <? Zpos b)%Z in
        change (Zpos a <? Zpos b)%Z with v
    | |- context [(Zpos ?a =? Zpos ?b)%Z] =>
        let v := eval vm_compute in (Zpos a =? Zpos b)%Z in
        change (Zpos a =? Zpos b)%Z with v
    end.

Ltac closed_Z :=
  repeat first [ closed_Z_step | progress cbv iota ]; cbn [andb orb negb].

(** ** Month lengths and day numbers *)

Lemma index_daysInMonth (y m : Z) :
  (0 <= y)%Z -> (1 <= m <= 12)%Z ->
  Js.index (TimeCorrections.daysInMonth (inject_Z y)) (inject_Z m - 1)
  = Some (inject_Z (monthLength y m)).
Proof.
  intros Hy Hm. rewrite index_inject.
  rewrite (proj2 (Z.leb_le 1 m)) by lia.
  unfold TimeCorrections.daysInMonth, monthLength.
  change 4 with (4 # 1). change 100 with (100 # 1). change 400 with (400 # 1).
  rewrite !divisible_inject by exact Hy.
  assert (Hcases : (m = 1 \/ m = 2 \/ m = 3 \/ m = 4 \/ m = 5 \/ m = 6 \/ m = 7
                    \/ m = 8 \/ m = 9 \/ m = 10 \/ m = 11 \/ m = 12)%Z) by lia.
  destruct Hcases as [H|[H|[H|[H|[H|[H|[H|[H|[H|[H|[H|H]]]]]]]]]]];
    subst m; try reflexivity.
  cbn [Z.sub Z.add Z.opp Z.pos_sub Pos.pred_double Z.to_nat Pos.to_nat
       Pos.iter_op Nat.add nth_error Z.eqb Pos.eqb].
  now destruct ((y mod 4 =? 0)%Z && (negb (y mod 100 =? 0)%Z || (y mod 400 =? 0)%Z)).
Qed.

Lemma monthLength_range (y m : Z) : (28 <= monthLength y m <= 31)%Z.
Proof.
  unfold monthLength.
  repeat match goal with |- context [if ?b then _ else _] => destruct b end; lia.
Qed.

Lemma validDate_monthLength (y m d : Z) :
  (0 <= y)%Z ->
  validDate y m d = true <-> (1 <= m <= 12)%Z /\ (1 <= d <= monthLength y m)%Z.
Proof.
  intros Hy. split.
  - intros Hvalid.
    destruct (validDate_spec y m d Hy Hvalid) as (Hm & _).
    split; [exact Hm|].
    unfold validDate in Hvalid. rewrite (index_daysInMonth y m Hy Hm) in Hvalid.
    rewrite leb_inject, andb_true_iff, !Z.leb_le in Hvalid. exact Hvalid.
  - intros [Hm Hd]. unfold validDate. rewrite (index_daysInMonth y m Hy Hm).
    rewrite leb_inject, andb_true_iff, !Z.leb_le. exact Hd.
Qed.

(** The day after the last day of a month, and of a year. *)
Lemma dayNumber_leap_day (y : Z) :
  ((36525 * (y + 4716)) / 100 + (2 - y / 100 + y / 100 / 4)
   = (36525 * (y - 1 + 4716)) / 100
     + (2 - (y - 1) / 100 + (y - 1) / 100 / 4) + 337
     + monthLength y 2)%Z.
Proof.
  unfold monthLength. cbn [Z.eqb Pos.eqb].
  assert (H1 : ((36525 * (y + 4716)) / 100 = 365 * (y + 4716) + y / 4 + 1179)%Z)
    by zdiv.
  assert (H2 : ((36525 * (y - 1 + 4716)) / 100
                = 365 * (y - 1 + 4716) + (y - 1) / 4 + 1179)%Z) by zdiv.
  rewrite H1, H2, !Z.div_div by lia.
  change (100 * 4)%Z with 400%Z.
  assert (H4 : (y / 4 - (y - 1) / 4 = if (y mod 4 =? 0)%Z then 1 else 0)%Z).
  { destruct (y mod 4 =? 0)%Z eqn:E; rewrite ?Z.eqb_eq, ?Z.eqb_neq in E; zdiv. }
  assert (H100 : (y / 100 - (y - 1) / 100
                  = if (y mod 100 =? 0)%Z then 1 else 0)%Z).
  { destruct (y mod 100 =? 0)%Z eqn:E; rewrite ?Z.eqb_eq, ?Z.eqb_neq in E; zdiv. }
  assert (H400 : (y / 400 - (y - 1) / 400
                  = if (y mod 400 =? 0)%Z then 1 else 0)%Z).
  { destruct (y mod 400 =? 0)%Z eqn:E; rewrite ?Z.eqb_eq, ?Z.eqb_neq in E; zdiv. }
  assert (Hm1 : (y mod 100 = 0 -> y mod 4 = 0)%Z) by zdiv.
  assert (Hm2 : (y mod 400 = 0 -> y mod 100 = 0)%Z) by zdiv.
  destruct (y mod 4 =? 0)%Z eqn:E4, (y mod 100 =? 0)%Z eqn:E100,
    (y mod 400 =? 0)%Z eqn:E400; cbn [andb orb negb];
    rewrite ?Z.eqb_eq, ?Z.eqb_neq in *; lia.
Qed.

Lemma dayNumber_next_month (y m : Z) :
  (1 <= m <= 11)%Z ->
  dayNumber y (m + 1) 1 = (dayNumber y m (monthLength y m) + 1)%Z.
Proof.
  intros Hm.
  assert (Hcases : (m = 1 \/ m = 2 \/ m = 3 \/ m = 4 \/ m = 5 \/ m = 6 \/ m = 7
                    \/ m = 8 \/ m = 9 \/ m = 10 \/ m = 11)%Z) by lia.
  destruct Hcases as [H|[H|[H|[H|[H|[H|[H|[H|[H|[H|H]]]]]]]]]];
    subst m; try (unfold dayNumber, monthLength; closed_Z; lia).
  pose proof (dayNumber_leap_day y) as Hleap.
  unfold dayNumber. closed_Z. lia.
Qed.

Lemma dayNumber_next_year (y : Z) :
  dayNumber (y + 1) 1 1 = (dayNumber y 12 31 + 1)%Z.
Proof.
  unfold dayNumber. closed_Z. replace (y + 1 - 1)%Z with y by lia. lia.
Qed.

(** ** The date of a Julian Day *)

Lemma dayNumber_day (y m d : Z) :
  dayNumber y m d = (dayNumber y m 1 + d - 1)%Z.
Proof. unfold dayNumber. cbv zeta. lia. Qed.

(** The year of a date with a day number of the years 1600..2400. *)
Lemma dayNumber_year (y m d : Z) :
  (1 <= m <= 12)%Z -> (1 <= d <= 31)%Z ->
  (2305448 <= dayNumber y m d <= 2598007)%Z -> (1600 <= y <= 2400)%Z.
Proof.
  intros Hm Hd. unfold dayNumber.
  destruct (m <=? 2)%Z eqn:E; [apply Z.leb_le in E | apply Z.leb_gt in E];
    cbv zeta; intros HN; zdiv.
Qed.

(** The date of a day number of the years 1600..2400 is a valid date of
    those years. *)
Lemma civilOfDayNumber_valid (N : Z) :
  (2305448 <= N <= 2598007)%Z ->
  (1600 <= fst (fst (civilOfDayNumber N)) <= 2400)%Z
  /\ validDate (fst (fst (civilOfDayNumber N))) (snd (fst (civilOfDayNumber N)))
       (snd (civilOfDayNumber N)) = true.
Proof.
  intros HN.
  pose proof (dayNumber_civilOfDayNumber N HN) as Hnumber.
  destruct (civilOfDayNumber_range N) as [Hm Hd].
  destruct (civilOfDayNumber N) as [[y m] d] eqn:Ecivil.
  cbn [fst snd] in *.
  assert (Hy : (1600 <= y <= 2400)%Z)
    by (apply (dayNumber_year y m d Hm Hd); lia).
  split; [exact Hy|].
  apply validDate_monthLength; [lia|]. split; [exact Hm|]. split; [lia|].
  destruct (Z_le_gt_dec d (monthLength y m)) as [Hle | Hgt]; [exact Hle|].
  exfalso.
  pose proof (monthLength_range y m) as HL.
  assert (Hm11 : (m <= 11)%Z).
  { destruct (Z.eq_dec m 12%Z) as [-> | Hne]; [|lia].
    unfold monthLength in Hgt. cbn in Hgt. lia. }
  pose proof (dayNumber_next_month y m ltac:(lia)) as Hnext.
  assert (Hsame : dayNumber y (m + 1) (d - monthLength y m) = N).
  { rewrite (dayNumber_day y (m + 1)), Hnext, <- Hnumber.
    rewrite (dayNumber_day y m d), (dayNumber_day y m (monthLength y m)). lia. }
  pose proof (monthLength_range y (m + 1)) as HL'.
  assert (Hcivil : civilOfDayNumber N = (y, (m + 1)%Z, (d - monthLength y m)%Z)).
  { rewrite <- Hsame. apply civilOfDayNumber_dayNumber; [lia|].
    apply validDate_monthLength; lia. }
  rewrite Ecivil in Hcivil. injection Hcivil as Hm' _. lia.
Qed.

(** X4: the date of a Julian Day.  For a Julian Day of the years
    1600..2400 (from 1600-01-01 0h to the end of 2400-12-31),
    [julianDayToDate(jd)] has integer components that form a valid
    calendar date of those years, with the day within the length of its
    month, and a civil time: the hour in 0..23, the minute and the second
    in 0..59. *)
Theorem julianDayToDate_well_formed (jd : Q) :
  2305447.5 <= jd -> jd < 2598007.5 ->
  exists y m d h mi s : Z,
    year (julianDayToDate jd) == inject_Z y
    /\ month (julianDayToDate jd) == inject_Z m
    /\ day (julianDayToDate jd) == inject_Z d
    /\ hour (julianDayToDate jd) == inject_Z h
    /\ minute (julianDayToDate jd) == inject_Z mi
    /\ second (julianDayToDate jd) == inject_Z s
    /\ (1600 <= y <= 2400)%Z /\ validDate y m d = true
    /\ (0 <= h <= 23)%Z /\ (0 <= mi <= 59)%Z /\ (0 <= s <= 59)%Z.
Proof.
  intros Hlo Hhi.
  destruct (day_and_fraction jd) as (N & f & Hx & Hf0 & Hf1).
  assert (HN : (2305448 <= N <= 2598007)%Z).
  { split.
    - assert (H : inject_Z 2305448 < inject_Z (N + 1)).
      { rewrite inject_Z_plus. change (inject_Z 1) with 1.
        change (inject_Z 2305448) with 2305448. lra. }
      rewrite <- Zlt_Qlt in H. lia.
    - assert (H : inject_Z N < inject_Z 2598008).
      { change (inject_Z 2598008) with 2598008. lra. }
      rewrite <- Zlt_Qlt in H. lia. }
  destruct (julianDayToDate_dayNumber jd N f Hx Hf0 Hf1)
    as (Hyear & Hmonth & Hday & Hhour & Hminute & Hsecond).
  destruct (time_of_fraction f Hf0 Hf1)
    as (h & mi & s & Hh & Hmi & Hs & Hhr & Hmir & Hsr & _).
  destruct (civilOfDayNumber_valid N HN) as [Hy Hvalid].
  exists (fst (fst (civilOfDayNumber N))), (snd (fst (civilOfDayNumber N))),
    (snd (civilOfDayNumber N)), h, mi, s.
  rewrite Hday, Hhour, Hminute, Hsecond, Hs, Hmi, Hh.
  repeat split; try assumption; try reflexivity; lia.
Qed.

Lemma julianDayToDate_well_formed_witness :
  exists y m d h mi s : Z,
    year (julianDayToDate 2451604.75) == inject_Z y
    /\ month (julianDayToDate 2451604.75) == inject_Z m
    /\ day (julianDayToDate 2451604.75) == inject_Z d
    /\ hour (julianDayToDate 2451604.75) == inject_Z h
    /\ minute (julianDayToDate 2451604.75) == inject_Z mi
    /\ second (julianDayToDate 2451604.75) == inject_Z s
    /\ (1600 <= y <= 2400)%Z /\ validDate y m d = true
    /\ (0 <= h <= 23)%Z /\ (0 <= mi <= 59)%Z /\ (0 <= s <= 59)%Z.
Proof.
  apply (julianDayToDate_well_formed 2451604.75); vm_compute; congruence.
Defined.

(** ** The round trip of a date *)

(** The day before a valid date is a valid date, one day number down. *)
Lemma dayNumber_previousDay (y m d : Z) :
  (1 <= y)%Z -> validDate y m d = true ->
  validDate (fst (fst (previousDay y m d))) (snd (fst (previousDay y m d)))
    (snd (previousDay y m d)) = true
  /\ dayNumber (fst (fst (previousDay y m d))) (snd (fst (previousDay y m d)))
       (snd (previousDay y m d))
     = (dayNumber y m d - 1)%Z.
Proof.
  intros Hy Hvalid.
  apply validDate_monthLength in Hvalid as [Hm Hd]; [|lia].
  unfold previousDay.
  destruct (1 <? d)%Z eqn:Ed; [apply Z.ltb_lt in Ed | apply Z.ltb_ge in Ed];
    cbn [fst snd].
  - split; [apply validDate_monthLength; lia|].
    unfold dayNumber. cbv zeta. lia.
  - assert (d = 1%Z) as -> by lia.
    destruct (1 <? m)%Z eqn:Em; [apply Z.ltb_lt in Em | apply Z.ltb_ge in Em];
      cbn [fst snd].
    + pose proof (monthLength_range y (m - 1)).
      split; [apply validDate_monthLength; lia|].
      pose proof (dayNumber_next_month y (m - 1)) as Hnext.
      replace (m - 1 + 1)%Z with m in Hnext by lia. lia.
    + assert (m = 1%Z) as -> by lia.
      split; [apply validDate_monthLength; [lia|]; split; [lia|];
              unfold monthLength; cbn; lia|].
      pose proof (dayNumber_next_year (y - 1)) as Hnext.
      replace (y - 1 + 1)%Z with y in Hnext by lia. lia.
Qed.

(** The second of the day that a fraction of a day falls in. *)
Lemma second_of_fraction (f : Q) (h mi s : Z) :
  (inject_Z h + (inject_Z mi + inject_Z s / 60) / 60) / 24
  == inject_Z (3600 * h + 60 * mi + s) * (1 # 86400).
Proof.
  rewrite !inject_Z_plus, !inject_Z_mult.
  change (inject_Z 3600) with 3600. change (inject_Z 60) with 60. field.
Qed.

(** C5: calendar round trip.  Let a Gregorian date of the years
    1600..2400 with a valid month and day and a civil time of day be
    given, and let [jd] be its [dateToJulianDay] or any number less than
    one second (1/86400 day) away from it, as the rounded sum is.  Then
    [julianDayToDate(jd)] is the same date and time when [jd] is not
    below the exact Julian Day, and the date and time one second earlier
    when it is below. *)
Theorem julianDay_round_trip (y m d h mi s : Z) (jd : Q) :
  (1600 <= y <= 2400)%Z -> validDate y m d = true ->
  (0 <= h <= 23)%Z -> (0 <= mi <= 59)%Z -> (0 <= s <= 59)%Z ->
  let exact :=
    dateToJulianDay (inject_Z y) (inject_Z m) (inject_Z d)
      (inject_Z h) (inject_Z mi) (inject_Z s) in
  Qabs (jd - exact) < 1 / 86400 ->
  let date := julianDayToDate jd in
  (exact <= jd ->
   year date == inject_Z y /\ month date == inject_Z m
   /\ day date == inject_Z d /\ hour date == inject_Z h
   /\ minute date == inject_Z mi /\ second date == inject_Z s)
  /\ (jd < exact ->
      let '(y', m', d', h', mi', s') := secondBefore y m d h mi s in
      year date == inject_Z y' /\ month date == inject_Z m'
      /\ day date == inject_Z d' /\ hour date == inject_Z h'
      /\ minute date == inject_Z mi' /\ second date == inject_Z s').
Proof.
  intros Hy Hvalid Hh Hmi Hs exact Hclose date.
  apply Qabs_Qlt_condition in Hclose as [Hlo Hhi].
  change (1 / 86400) with (1 # 86400) in Hlo, Hhi.
  pose proof (dateToJulianDay_dayNumber y m d (inject_Z h) (inject_Z mi)
                (inject_Z s)) as Hexact.
  fold exact in Hexact. rewrite second_of_fraction in Hexact by exact 0.
  destruct (day_and_fraction jd) as (N' & f' & Hx & Hf0 & Hf1).
  destruct (julianDayToDate_dayNumber jd N' f' Hx Hf0 Hf1)
    as (Hyear & Hmonth & Hday & Hhour & Hminute & Hsecond).
  destruct (time_of_fraction f' Hf0 Hf1)
    as (h' & mi' & s' & Hh' & Hmi' & Hs' & Hhr & Hmir & Hsr & Ht0 & Ht1).
  rewrite second_of_fraction in Ht0, Ht1 by exact 0.
  change (1 / 86400) with (1 # 86400) in Ht1.
  fold date in Hyear, Hmonth, Hday, Hhour, Hminute, Hsecond.
  rewrite Hs' in Hsecond. rewrite Hmi' in Hminute. rewrite Hh' in Hhour.
  set (N := dayNumber y m d) in *.
  set (S := (3600 * h + 60 * mi + s)%Z) in *.
  set (S' := (3600 * h' + 60 * mi' + s')%Z) in *.
  assert (Hinstant : inject_Z (86400 * N + S) == (exact + 0.5) * 86400).
  { rewrite Hexact, inject_Z_plus, inject_Z_mult.
    change (inject_Z 86400) with 86400. ring. }
  assert (Hinstant0 : inject_Z (86400 * N' + S') <= (jd + 0.5) * 86400).
  { rewrite Hx, inject_Z_plus, inject_Z_mult.
    change (inject_Z 86400) with 86400.
    revert Ht0. generalize (inject_Z S'), (inject_Z N'). intros q n Ht0. lra. }
  assert (Hinstant1 : (jd + 0.5) * 86400 < inject_Z (86400 * N' + S' + 1)).
  { rewrite Hx, !inject_Z_plus, inject_Z_mult.
    change (inject_Z 86400) with 86400. change (inject_Z 1) with 1.
    revert Ht1. generalize (inject_Z S'), (inject_Z N'). intros q n Ht1. lra. }
  assert (Hrange : (0 <= S <= 86399 /\ 0 <= S' <= 86399)%Z) by (unfold S, S'; lia).
  assert (Hat : exact <= jd -> N' = N /\ h' = h /\ mi' = mi /\ s' = s).
  { intros Hle.
    assert (H1 : inject_Z (86400 * N + S) < inject_Z (86400 * N' + S' + 1)) by lra.
    assert (H2 : inject_Z (86400 * N' + S') < inject_Z (86400 * N + S + 1)).
    { rewrite (inject_Z_plus (86400 * N + S) 1). change (inject_Z 1) with 1. lra. }
    rewrite <- Zlt_Qlt in H1, H2. unfold S, S' in *. lia. }
  assert (Hbelow : jd < exact ->
                   (86400 * N' + S' = 86400 * N + S - 1)%Z).
  { intros Hlt.
    assert (H1 : inject_Z (86400 * N + S - 2) < inject_Z (86400 * N' + S')).
    { assert (E : inject_Z (86400 * N + S - 2) == inject_Z (86400 * N + S) - 2).
      { unfold Z.sub. rewrite inject_Z_plus. reflexivity. }
      rewrite inject_Z_plus in Hinstant1. change (inject_Z 1) with 1 in Hinstant1.
      lra. }
    assert (H2 : inject_Z (86400 * N' + S') < inject_Z (86400 * N + S)) by lra.
    rewrite <- Zlt_Qlt in H1, H2. lia. }
  split.
  - intros Hle. destruct (Hat Hle) as (-> & -> & -> & ->).
    rewrite Hyear, Hmonth, Hday, Hhour, Hminute, Hsecond.
    unfold N. rewrite civilOfDayNumber_dayNumber by (auto; lia).
    cbn [fst snd]. repeat split; reflexivity.
  - intros Hlt. specialize (Hbelow Hlt).
    unfold secondBefore.
    destruct (0 <? s)%Z eqn:Es; [apply Z.ltb_lt in Es | apply Z.ltb_ge in Es].
    { assert (N' = N /\ h' = h /\ mi' = mi /\ s' = (s - 1)%Z)
        as (-> & -> & -> & ->) by (unfold S, S' in *; lia).
      rewrite Hyear, Hmonth, Hday, Hhour, Hminute, Hsecond.
      unfold N. rewrite civilOfDayNumber_dayNumber by (auto; lia).
      cbn [fst snd]. repeat split; reflexivity. }
    destruct (0 <? mi)%Z eqn:Em; [apply Z.ltb_lt in Em | apply Z.ltb_ge in Em].
    { assert (N' = N /\ h' = h /\ mi' = (mi - 1)%Z /\ s' = 59%Z)
        as (-> & -> & -> & ->) by (unfold S, S' in *; lia).
      rewrite Hyear, Hmonth, Hday, Hhour, Hminute, Hsecond.
      unfold N. rewrite civilOfDayNumber_dayNumber by (auto; lia).
      cbn [fst snd]. repeat split; reflexivity. }
    destruct (0 <? h)%Z eqn:Eh; [apply Z.ltb_lt in Eh | apply Z.ltb_ge in Eh].
    { assert (N' = N /\ h' = (h - 1)%Z /\ mi' = 59%Z /\ s' = 59%Z)
        as (-> & -> & -> & ->) by (unfold S, S' in *; lia).
      rewrite Hyear, Hmonth, Hday, Hhour, Hminute, Hsecond.
      unfold N. rewrite civilOfDayNumber_dayNumber by (auto; lia).
      cbn [fst snd]. repeat split; reflexivity. }
    assert (N' = (N - 1)%Z /\ h' = 23%Z /\ mi' = 59%Z /\ s' = 59%Z)
      as (-> & -> & -> & ->) by (unfold S, S' in *; lia).
    destruct (dayNumber_previousDay y m d) as [Hvalid' Hnumber];
      [lia | exact Hvalid |].
    assert (Hyear' : (1599 <= fst (fst (previousDay y m d)) <= 2400
                      /\ (fst (fst (previousDay y m d)) = 1599
                          -> 3 <= snd (fst (previousDay y m d))))%Z).
    { unfold previousDay.
      apply validDate_monthLength in Hvalid as [Hm Hd]; [|lia].
      destruct (1 <? d)%Z; [cbn [fst snd]; lia|].
      destruct (1 <? m)%Z; cbn [fst snd]; lia. }
    destruct (previousDay y m d) as [[y' m'] d'].
    cbn [fst snd] in Hvalid', Hnumber, Hyear'.
    rewrite Hyear, Hmonth, Hday, Hhour, Hminute, Hsecond.
    unfold N. rewrite <- Hnumber.
    rewrite civilOfDayNumber_dayNumber; [| lia | exact Hvalid'].
    cbn [fst snd]. repeat split; reflexivity.
Qed.

Lemma julianDay_round_trip_witness :
  (let date :=
     JulianDay.julianDayToDate (JulianDay.dateToJulianDay 2000 2 29 23 59 59) in
   JulianDay.year date == 2000 /\ JulianDay.month date == 2
   /\ JulianDay.day date == 29 /\ JulianDay.hour date == 23
   /\ JulianDay.minute date == 59 /\ JulianDay.second date == 59)
  /\ (let date :=
        JulianDay.julianDayToDate
          (JulianDay.dateToJulianDay 2000 1 1 0 0 0 - 1 / 172800) in
      JulianDay.year date == 1999 /\ JulianDay.month date == 12
      /\ JulianDay.day date == 31 /\ JulianDay.hour date == 23
      /\ JulianDay.minute date == 59 /\ JulianDay.second date == 59).
Proof.
  split.
  - apply (julianDay_round_trip 2000 2 29 23 59 59
             (JulianDay.dateToJulianDay 2000 2 29 23 59 59));
      first [lia | reflexivity | vm_compute; congruence].
  - apply (julianDay_round_trip 2000 1 1 0 0 0
             (JulianDay.dateToJulianDay 2000 1 1 0 0 0 - 1 / 172800));
      first [lia | reflexivity | vm_compute; congruence].
Defined.

(** ** Local time to UTC *)

Lemma index_proper {A : Type} (l : list A) (i i' : Q) :
  i == i' -> Js.index l i = Js.index l i'.
Proof.
  intros E. unfold Js.index.
  rewrite (floor_proper _ _ E).
  rewrite (eqb_proper _ _ (Qeq_refl (Js.floor i')) _ _ E).
  rewrite (leb_proper 0 0 (Qeq_refl 0) _ _ E).
  now rewrite (Qfloor_comp _ _ E).
Qed.

Lemma floor_minus_offset (x off : Q) (n : Z) :
  x == inject_Z n - off -> Js.floor x = inject_Z (n - Qceiling off).
Proof.
  intros E.
  pose proof (Qle_ceiling off) as H1. pose proof (Qceiling_lt off) as H2.
  unfold Z.sub in H2. rewrite inject_Z_plus, inject_Z_opp in H2.
  change (inject_Z 1) with 1 in H2.
  rewrite (floor_proper x (inject_Z (n - Qceiling off)
                           + (inject_Z (Qceiling off) - off))).
  - apply floor_shift; lra.
  - unfold Z.sub. rewrite inject_Z_plus, inject_Z_opp. lra.
Qed.

Lemma ceiling_le (off : Q) (n : Z) : off <= inject_Z n -> (Qceiling off <= n)%Z.
Proof.
  intros H. pose proof (Qceiling_lt off) as H2.
  assert (H3 : inject_Z (Qceiling off - 1) < inject_Z n) by lra.
  rewrite <- Zlt_Qlt in H3. lia.
Qed.

Lemma ceiling_ge (off : Q) (n : Z) : inject_Z n <= off -> (n <= Qceiling off)%Z.
Proof.
  intros H. pose proof (Qle_ceiling off) as H1.
  rewrite Zle_Qle. lra.
Qed.

Lemma ceiling_gt (off : Q) (n : Z) : inject_Z n < off -> (n < Qceiling off)%Z.
Proof.
  intros H. pose proof (Qle_ceiling off) as H1.
  rewrite Zlt_Qlt. lra.
Qed.

Lemma ltb_Z (a b : Q) (za zb : Z) :
  a == inject_Z za -> b == inject_Z zb -> Js.ltb a b = (za <? zb)%Z.
Proof. intros Ha Hb. now rewrite (ltb_proper _ _ Ha _ _ Hb), ltb_inject. Qed.

Ltac inj :=
  unfold Z.sub; rewrite ?inject_Z_plus, ?inject_Z_opp;
  repeat match goal with
    | |- context [inject_Z (Zpos ?p)] =>
        change (inject_Z (Zpos p)) with (Zpos p # 1)
    end;
  lra.

Ltac leaf :=
  cbn [TimeCorrections.year TimeCorrections.month TimeCorrections.day
       TimeCorrections.hour TimeCorrections.minute TimeCorrections.second];
  repeat split; try reflexivity; try lia; try inj; try (f_equal; lia).

Ltac valid_goal tac :=
  try match goal with
    | |- validDate _ _ _ = true => apply validDate_monthLength; [lia | tac]
    end.

Ltac number_goal tac :=
  try match goal with
    | |- dayNumber _ _ _ = _ => tac
    end.

Lemma localToUTC_civil (y m d h : Z) (mi s : option Q) (off : Q) :
  (1 <= y)%Z -> validDate y m d = true -> (0 <= h <= 23)%Z ->
  -24 <= off -> off <= 24 ->
  let utc :=
    TimeCorrections.localToUTC (inject_Z y) (inject_Z m) (inject_Z d)
      (inject_Z h) mi s off in
  exists (y' m' d' delta : Z) (dq : Q),
    TimeCorrections.year utc == inject_Z y'
    /\ TimeCorrections.month utc == inject_Z m'
    /\ TimeCorrections.day utc = Some dq /\ dq == inject_Z d'
    /\ TimeCorrections.hour utc = inject_Z (h - Qceiling off - 24 * delta)
    /\ TimeCorrections.minute utc = mi /\ TimeCorrections.second utc = s
    /\ validDate y' m' d' = true
    /\ dayNumber y' m' d' = (dayNumber y m d + delta)%Z
    /\ (0 <= h - Qceiling off - 24 * delta <= 23)%Z.
Proof.
  intros Hy Hvalid Hh Hoff0 Hoff1 utc.
  destruct (proj1 (validDate_monthLength y m d ltac:(lia)) Hvalid) as [Hm Hd].
  pose proof (index_daysInMonth y m ltac:(lia) Hm) as Hindex.
  pose proof (monthLength_range y m) as HL.
  assert (Hk0 : (-24 <= Qceiling off)%Z) by (apply ceiling_ge; exact Hoff0).
  assert (Hk1 : (Qceiling off <= 24)%Z) by (apply ceiling_le; exact Hoff1).
  unfold utc, TimeCorrections.localToUTC. rewrite Hindex.
  destruct (Js.leb 24 (inject_Z h - off)) eqn:T1;
    [|destruct (Js.ltb (inject_Z h - off) 0) eqn:T2]; cbv beta iota zeta.
  - (* the next day *)
    apply leb_le in T1.
    assert (Hk : (Qceiling off <= h - 24)%Z) by (apply ceiling_le; inj).
    rewrite (ltb_Z _ (inject_Z d + 1) (monthLength y m) (d + 1))
      by (reflexivity || inj).
    rewrite (ltb_Z (inject_Z d + 1) 1 (d + 1) 1) by (reflexivity || inj).
    rewrite (ltb_Z 12 (inject_Z m + 1) 12 (m + 1)) by (reflexivity || inj).
    rewrite (floor_minus_offset _ off (h - 24)) by inj.
    replace (h - 24 - Qceiling off)%Z with (h - Qceiling off - 24 * 1)%Z by lia.
    destruct (monthLength y m <? d + 1)%Z eqn:E1;
      [apply Z.ltb_lt in E1 | apply Z.ltb_ge in E1].
    + destruct (12 <? m + 1)%Z eqn:E2;
        [apply Z.ltb_lt in E2 | apply Z.ltb_ge in E2].
      * exists (y + 1)%Z, 1%Z, 1%Z, 1%Z, 1.
        leaf.
        all: valid_goal ltac:(pose proof (monthLength_range (y + 1) 1); lia).
        all: number_goal ltac:(
               rewrite dayNumber_next_year; f_equal;
               assert (m = 12%Z) by lia; subst m;
               assert (d = monthLength y 12) by lia; subst d; reflexivity).
      * exists y, (m + 1)%Z, 1%Z, 1%Z, 1.
        leaf.
        all: valid_goal ltac:(pose proof (monthLength_range y (m + 1)); lia).
        all: number_goal ltac:(
               rewrite dayNumber_next_month by lia; f_equal;
               assert (d = monthLength y m) by lia; subst d; reflexivity).
    + rewrite (proj2 (Z.ltb_ge (d + 1) 1)) by lia.
      exists y, m, (d + 1)%Z, 1%Z, (inject_Z d + 1).
      leaf.
      all: valid_goal ltac:(lia).
      all: number_goal ltac:(unfold dayNumber; lia).
  - (* the day before *)
    apply leb_gt in T1. apply ltb_lt in T2.
    assert (Hk : (h < Qceiling off)%Z) by (apply ceiling_gt; inj).
    rewrite (ltb_Z _ (inject_Z d - 1) (monthLength y m) (d - 1))
      by (reflexivity || inj).
    rewrite (ltb_Z (inject_Z d - 1) 1 (d - 1) 1) by (reflexivity || inj).
    rewrite (ltb_Z (inject_Z m - 1) 1 (m - 1) 1) by (reflexivity || inj).
    rewrite (floor_minus_offset _ off (h + 24)) by inj.
    replace (h + 24 - Qceiling off)%Z with (h - Qceiling off - 24 * -1)%Z by lia.
    rewrite (proj2 (Z.ltb_ge (monthLength y m) (d - 1))) by lia.
    destruct (d - 1 <? 1)%Z eqn:E1;
      [apply Z.ltb_lt in E1 | apply Z.ltb_ge in E1].
    + assert (d = 1%Z) by lia. subst d.
      destruct (m - 1 <? 1)%Z eqn:E2;
        [apply Z.ltb_lt in E2 | apply Z.ltb_ge in E2].
      * assert (m = 1%Z) by lia. subst m.
        change (12 - 1) with (inject_Z 12 - 1).
        rewrite (index_daysInMonth y 12) by lia.
        exists (y - 1)%Z, 12%Z, 31%Z, (-1)%Z, (inject_Z (monthLength y 12)).
        leaf.
        all: valid_goal ltac:(change (monthLength (y - 1) 12) with 31%Z; lia).
        all: number_goal ltac:(
               pose proof (dayNumber_next_year (y - 1)) as Hnext;
               replace (y - 1 + 1)%Z with y in Hnext by lia; lia).
      * rewrite (index_proper _ (inject_Z m - 1 - 1) (inject_Z (m - 1) - 1)) by inj.
        rewrite (index_daysInMonth y (m - 1)) by lia.
        exists y, (m - 1)%Z, (monthLength y (m - 1)), (-1)%Z,
          (inject_Z (monthLength y (m - 1))).
        leaf.
        all: valid_goal ltac:(pose proof (monthLength_range y (m - 1)); lia).
        all: number_goal ltac:(
               pose proof (dayNumber_next_month y (m - 1) ltac:(lia)) as Hnext;
               replace (m - 1 + 1)%Z with m in Hnext by lia; lia).
    + exists y, m, (d - 1)%Z, (-1)%Z, (inject_Z d - 1).
      leaf.
      all: valid_goal ltac:(lia).
      all: number_goal ltac:(unfold dayNumber; lia).
  - (* the same day *)
    apply leb_gt in T1. apply ltb_ge in T2.
    assert (Hk2 : (Qceiling off <= h)%Z) by (apply ceiling_le; inj).
    assert (Hk3 : (h - 24 < Qceiling off)%Z) by (apply ceiling_gt; inj).
    rewrite (ltb_Z _ (inject_Z d) (monthLength y m) d) by reflexivity.
    rewrite (ltb_Z (inject_Z d) 1 d 1) by reflexivity.
    rewrite (floor_minus_offset _ off h) by inj.
    rewrite (proj2 (Z.ltb_ge (monthLength y m) d)) by lia.
    rewrite (proj2 (Z.ltb_ge d 1)) by lia.
    exists y, m, d, 0%Z, (inject_Z d).
    leaf.
    all: try exact Hvalid.
Qed.

Lemma quarter_hours_range (q : Z) :
  (-96 <= q <= 96)%Z -> -24 <= inject_Z q / 4 /\ inject_Z q / 4 <= 24.
Proof.
  intros Hq. apply inject_Z_bounds in Hq as [H0 H1].
  change (inject_Z (-96)) with (-96) in H0. change (inject_Z 96) with 96 in H1.
  assert (E : inject_Z q / 4 == inject_Z q * (1 # 4)) by field.
  rewrite E. lra.
Qed.

(** X6: [localToUTC] moves the time by the offset rounded up to a whole
    hour.  For a valid date of a year from 1 on, a whole hour 0..23 and
    an offset of a whole number of quarter hours between -24 and 24, the
    date and hour returned are whole numbers, and the count of hours
    since day number 0 of the result is that of the local date and hour
    less the offset rounded up to a whole hour.  A whole offset is
    subtracted exactly; of an offset such as 5.5 the half hour is lost,
    since the hour is floored and the minute is passed through. *)
Theorem localToUTC_hour_count (y m d h q : Z) (mi s : option Q) :
  (1 <= y)%Z -> validDate y m d = true -> (0 <= h <= 23)%Z ->
  (-96 <= q <= 96)%Z ->
  let offset := inject_Z q / 4 in
  let utc :=
    TimeCorrections.localToUTC (inject_Z y) (inject_Z m) (inject_Z d)
      (inject_Z h) mi s offset in
  exists (y' m' d' h' : Z) (utcDay : Q),
    TimeCorrections.year utc == inject_Z y'
    /\ TimeCorrections.month utc == inject_Z m'
    /\ TimeCorrections.day utc = Some utcDay /\ utcDay == inject_Z d'
    /\ TimeCorrections.hour utc == inject_Z h'
    /\ (24 * dayNumber y' m' d' + h'
        = 24 * dayNumber y m d + h - Qceiling offset)%Z.
Proof.
  intros Hy Hvalid Hh Hq offset utc.
  destruct (quarter_hours_range q Hq) as [Hoff0 Hoff1].
  destruct (localToUTC_civil y m d h mi s offset Hy Hvalid Hh Hoff0 Hoff1)
    as (y' & m' & d' & delta & dq & Hyear & Hmonth & Hday & Hdq & Hhour
        & _ & _ & _ & Hnumber & _).
  fold utc in Hyear, Hmonth, Hday, Hhour.
  exists y', m', d', (h - Qceiling offset - 24 * delta)%Z, dq.
  rewrite Hhour. repeat split; try assumption; try reflexivity. lia.
Qed.

Lemma localToUTC_hour_count_witness :
  let utc :=
    TimeCorrections.localToUTC (inject_Z 2000) (inject_Z 1) (inject_Z 1)
      (inject_Z 2) (Some 30) (Some 0) (inject_Z 22 / 4) in
  exists (y' m' d' h' : Z) (utcDay : Q),
    TimeCorrections.year utc == inject_Z y'
    /\ TimeCorrections.month utc == inject_Z m'
    /\ TimeCorrections.day utc = Some utcDay /\ utcDay == inject_Z d'
    /\ TimeCorrections.hour utc == inject_Z h'
    /\ (24 * dayNumber y' m' d' + h'
        = 24 * dayNumber 2000 1 1 + 2 - Qceiling (inject_Z 22 / 4))%Z.
Proof.
  apply (localToUTC_hour_count 2000 1 1 2 22 (Some 30) (Some 0));
    first [lia | reflexivity].
Defined.

(** X7: [localToUTC] returns a civil date and hour.  Under the same
    conditions the result is a valid date (the day and the month roll over
    into the next or the previous month or year) with a whole hour in
    0..23; the minute and the second are passed through. *)
Theorem localToUTC_valid (y m d h q : Z) (mi s : option Q) :
  (1 <= y)%Z -> validDate y m d = true -> (0 <= h <= 23)%Z ->
  (-96 <= q <= 96)%Z ->
  let utc :=
    TimeCorrections.localToUTC (inject_Z y) (inject_Z m) (inject_Z d)
      (inject_Z h) mi s (inject_Z q / 4) in
  exists (y' m' d' h' : Z) (utcDay : Q),
    TimeCorrections.year utc == inject_Z y'
    /\ TimeCorrections.month utc == inject_Z m'
    /\ TimeCorrections.day utc = Some utcDay /\ utcDay == inject_Z d'
    /\ TimeCorrections.hour utc == inject_Z h'
    /\ validDate y' m' d' = true /\ (0 <= h' <= 23)%Z
    /\ TimeCorrections.minute utc = mi /\ TimeCorrections.second utc = s.
Proof.
  intros Hy Hvalid Hh Hq utc.
  destruct (quarter_hours_range q Hq) as [Hoff0 Hoff1].
  destruct (localToUTC_civil y m d h mi s (inject_Z q / 4) Hy Hvalid Hh
              Hoff0 Hoff1)
    as (y' & m' & d' & delta & dq & Hyear & Hmonth & Hday & Hdq & Hhour
        & Hminute & Hsecond & Hvalid' & Hnumber & Hrange).
  fold utc in Hyear, Hmonth, Hday, Hhour, Hminute, Hsecond.
  exists y', m', d', (h - Qceiling (inject_Z q / 4) - 24 * delta)%Z, dq.
  rewrite Hhour. repeat split; try assumption; try reflexivity; try lia.
Qed.

Lemma localToUTC_valid_witness :
  let utc :=
    TimeCorrections.localToUTC (inject_Z 2000) (inject_Z 12) (inject_Z 31)
      (inject_Z 22) (Some 15) None (inject_Z (-20) / 4) in
  exists (y' m' d' h' : Z) (utcDay : Q),
    TimeCorrections.year utc == inject_Z y'
    /\ TimeCorrections.month utc == inject_Z m'
    /\ TimeCorrections.day utc = Some utcDay /\ utcDay == inject_Z d'
    /\ TimeCorrections.hour utc == inject_Z h'
    /\ validDate y' m' d' = true /\ (0 <= h' <= 23)%Z
    /\ TimeCorrections.minute utc = Some 15 /\ TimeCorrections.second utc = None.
Proof.
  apply (localToUTC_valid 2000 12 31 22 (-20) (Some 15) None);
    first [lia | reflexivity].
Defined.

End CalendarFacts.

(** ** Ephemeris tables and lookups *)

Section EphemerisLookup.

Import Ephemeris.

Context (EPHEMERIS_MODULES : gmap string (list RawRecord)).

(** X9: the nearest-sample fallback of [getEphemerisPosition] is reached
    only for a table of one sample.  A non-null answer is either
    interpolated between two samples of the table whose [jd]s bracket the
    request, with a longitude in [0, 360), or the table holds a single
    sample, the request is at its [jd], and the answer is that sample's
    longitude, sign and degree as they are. *)
Theorem getEphemerisPosition_answers (body : string) (jd0 : Q) (pos : Position) :
  getEphemerisPosition EPHEMERIS_MODULES body jd0 = Some pos ->
  (exists before after lon,
      In before (loadEphemerisData EPHEMERIS_MODULES body)
      /\ In after (loadEphemerisData EPHEMERIS_MODULES body)
      /\ jd before <= jd0 /\ jd0 <= jd after
      /\ pos = Interpolated lon (jd before) (jd after)
      /\ 0 <= lon /\ lon < 360)
  \/ (exists s,
        loadEphemerisData EPHEMERIS_MODULES body = [s]
        /\ jd s == jd0
        /\ pos = Closest (longitude s) (sign s) (degInSign s)).
Proof.
  intros Hpos.
  destruct (loadEphemerisData EPHEMERIS_MODULES body)
    as [|first [|second rest]] eqn:Hdata.
  - unfold getEphemerisPosition in Hpos. rewrite Hdata in Hpos. discriminate.
  - right. exists first. split; [reflexivity|].
    unfold getEphemerisPosition in Hpos. rewrite Hdata in Hpos.
    unfold lookupPosition in Hpos. cbn [List.last findBracket] in Hpos.
    destruct (Js.ltb jd0 (jd first)) eqn:E1; [discriminate|].
    destruct (Js.ltb (jd first) jd0) eqn:E2; [discriminate|].
    apply ltb_ge in E1, E2. cbn in Hpos. injection Hpos as <-.
    split; [lra | reflexivity].
  - left.
    assert (Hin : exists pair,
               findBracket (loadEphemerisData EPHEMERIS_MODULES body) jd0
               = Some pair).
    { rewrite Hdata.
      assert (Hsome : lookupPosition (first :: second :: rest) jd0 <> None).
      { unfold getEphemerisPosition in Hpos. rewrite Hdata in Hpos.
        rewrite Hpos. discriminate. }
      rewrite lookupPosition_None in Hsome.
      apply (findBracket_exists first second first rest).
      - destruct (Qlt_le_dec jd0 (jd first)); [exfalso; apply Hsome; now left | assumption].
      - destruct (Qlt_le_dec (jd (List.last (first :: second :: rest) first)) jd0);
          [exfalso; apply Hsome; now right | assumption]. }
    destruct Hin as ([before after] & Hbracket).
    pose proof (getEphemerisPosition_interpolates EPHEMERIS_MODULES body jd0
                  before after Hbracket) as Hanswer.
    rewrite Hpos in Hanswer. injection Hanswer as ->.
    destruct (findBracket_Some _ _ _ _ Hbracket) as (Hb & Ha & Hle & Hge).
    rewrite Hdata in Hb, Ha.
    exists before, after. eexists. repeat split; try eassumption; try reflexivity.
    all: destruct (unwrapSpec _ _); apply normalizeAngle_range.
Qed.

(** X11: the availability check is the Sun lookup.  [available] is true
    exactly when [getEphemerisPosition('Sun', jd)] is not null; no other
    table is consulted. *)
Theorem checkEphemerisAvailability_sun (jd0 : Q) :
  available (checkEphemerisAvailability EPHEMERIS_MODULES jd0)
  = Js.defined (getEphemerisPosition EPHEMERIS_MODULES "Sun" jd0).
Proof.
  unfold checkEphemerisAvailability, getEphemerisPosition, lookupPosition.
  destruct (loadEphemerisData EPHEMERIS_MODULES "Sun") as [|first rest];
    [reflexivity|].
  cbn [available]. unfold Js.ltb, Js.leb.
  destruct (Qle_bool (jd first) jd0); cbn [negb orb andb]; [|reflexivity].
  destruct (Qle_bool jd0 (jd (List.last (first :: rest) first)));
    cbn [negb]; [|reflexivity].
  destruct (findBracket _ _) as [[before after]|]; [destruct (unwrap _ _)|];
    reflexivity.
Qed.

(** X12: a loaded table is the accepted records of the module, sorted.
    For one of the ten bodies, with its data module, the table of
    [loadEphemerisData] is in ascending order of [jd]; its samples are
    exactly those that [processRecord] makes of the records of the
    module, as many times as they occur, so never more than there are
    records; and no longitude is negative. *)
Theorem loadEphemerisData_table (body : string) (data : list RawRecord) :
  In body ["Sun"; "Moon"; "Mercury"; "Venus"; "Mars"; "Jupiter"; "Saturn";
           "Uranus"; "Neptune"; "Pluto"]%string ->
  EPHEMERIS_MODULES !! body = Some data ->
  StronglySorted (Js.keyLe jd) (loadEphemerisData EPHEMERIS_MODULES body)
  /\ Forall (fun s => 0 <= longitude s)
       (loadEphemerisData EPHEMERIS_MODULES body)
  /\ Permutation (loadEphemerisData EPHEMERIS_MODULES body)
       (omap processRecord data)
  /\ (length (loadEphemerisData EPHEMERIS_MODULES body) <= length data)%nat.
Proof.
  intros _ Hdata.
  split; [apply loadEphemerisData_sorted|].
  split; [apply loadEphemerisData_longitude|].
  unfold loadEphemerisData. rewrite Hdata.
  split; [apply sortBy_perm|].
  rewrite (Permutation_length (sortBy_perm jd _)).
  clear. induction data as [|r data IH]; [reflexivity|].
  cbn [omap list_omap]. destruct (processRecord r); cbn [length]; lia.
Qed.

(** The entries that the loop of [getAllEphemerisPositions] makes of a
    list of bodies. *)
Lemma flat_map_positions (lookup : string -> option Position)
    (bodies : list string) (body : string) (pos : Position) :
  In (body, pos)
    (flat_map
       (fun body : string =>
          if String.eqb body "Moon" then []
          else match lookup body with
               | Some pos => [(body, pos)]
               | None => []
               end)
       bodies)
  <-> In body bodies /\ body <> "Moon"%string /\ lookup body = Some pos.
Proof.
  rewrite in_flat_map. split.
  - intros (b & Hb & Hin).
    destruct (String.eqb b "Moon") eqn:E; [contradiction|].
    apply String.eqb_neq in E.
    destruct (lookup b) as [p|] eqn:El; [|contradiction].
    destruct Hin as [[= <- <-]|[]]. auto.
  - intros (Hb & Hmoon & Hl). exists body. split; [exact Hb|].
    apply String.eqb_neq in Hmoon. rewrite Hmoon, Hl. now left.
Qed.

Lemma flat_map_positions_NoDup (lookup : string -> option Position)
    (bodies : list string) :
  List.NoDup bodies ->
  List.NoDup
    (map fst
       (flat_map
          (fun body : string =>
             if String.eqb body "Moon" then []
             else match lookup body with
                  | Some pos => [(body, pos)]
                  | None => []
                  end)
          bodies)).
Proof.
  induction 1 as [|b bodies Hb Hnodup IH]; [constructor|].
  cbn [flat_map]. rewrite map_app.
  destruct (String.eqb b "Moon"); [exact IH|].
  destruct (lookup b) as [p|]; [|exact IH].
  cbn [map fst app]. constructor; [|exact IH].
  intros Hin. apply in_map_iff in Hin as ([b' p'] & E & Hin).
  cbn in E. subst b'. apply flat_map_positions in Hin. tauto.
Qed.

(** X13: [getAllEphemerisPositions] lists each body at most once, a body
    exactly when it is one of the nine other than the Moon and its own
    lookup is not null, with that lookup as its position.  The Moon is
    never listed, whatever its table holds. *)
Theorem getAllEphemerisPositions_entries (jd0 : Q) :
  let positions := getAllEphemerisPositions EPHEMERIS_MODULES jd0 in
  List.NoDup (map fst positions)
  /\ (forall pos, ~ In ("Moon"%string, pos) positions)
  /\ (forall body pos,
        In (body, pos) positions
        <-> In body ["Sun"; "Mercury"; "Venus"; "Mars"; "Jupiter"; "Saturn";
                     "Uranus"; "Neptune"; "Pluto"]%string
            /\ getEphemerisPosition EPHEMERIS_MODULES body jd0 = Some pos).
Proof.
  unfold getAllEphemerisPositions. cbv zeta.
  split; [|split].
  - apply flat_map_positions_NoDup.
    repeat (constructor; [cbn; intuition discriminate|]). constructor.
  - intros pos Hin.
    apply (flat_map_positions
             (fun body => getEphemerisPosition EPHEMERIS_MODULES body jd0))
      in Hin.
    tauto.
  - intros body pos.
    rewrite (flat_map_positions
               (fun body => getEphemerisPosition EPHEMERIS_MODULES body jd0)).
    cbn [In]. split.
    + intros (Hin & Hmoon & Hl). split; [|exact Hl].
      intuition congruence.
    + intros (Hin & Hl). split; [tauto|]. split; [|exact Hl].
      intuition (subst; discriminate).
Qed.

End EphemerisLookup.

(** The theorems on the wrap-around table of the Sun. *)

Lemma getEphemerisPosition_answers_witness :
  (exists before after lon,
      In before (Ephemeris.loadEphemerisData Ephemeris.exampleModules "Sun")
      /\ In after (Ephemeris.loadEphemerisData Ephemeris.exampleModules "Sun")
      /\ Ephemeris.jd before <= 4 /\ 4 <= Ephemeris.jd after
      /\ Ephemeris.Interpolated 358.0 0 10
         = Ephemeris.Interpolated lon (Ephemeris.jd before)
             (Ephemeris.jd after)
      /\ 0 <= lon /\ lon < 360)
  \/ (exists s,
        Ephemeris.loadEphemerisData Ephemeris.exampleModules "Sun" = [s]
        /\ Ephemeris.jd s == 4
        /\ Ephemeris.Interpolated 358.0 0 10
           = Ephemeris.Closest (Ephemeris.longitude s) (Ephemeris.sign s)
               (Ephemeris.degInSign s)).
Proof.
  apply (getEphemerisPosition_answers Ephemeris.exampleModules "Sun" 4
           (Ephemeris.Interpolated 358.0 0 10)).
  vm_compute. reflexivity.
Defined.

Lemma loadEphemerisData_table_witness :
  StronglySorted (Js.keyLe Ephemeris.jd)
    (Ephemeris.loadEphemerisData Ephemeris.exampleModules "Sun")
  /\ Forall (fun s => 0 <= Ephemeris.longitude s)
       (Ephemeris.loadEphemerisData Ephemeris.exampleModules "Sun")
  /\ Permutation (Ephemeris.loadEphemerisData Ephemeris.exampleModules "Sun")
       (omap Ephemeris.processRecord
          [ {| Ephemeris.JD := Some 10; Ephemeris.Sign := "Aries";
               Ephemeris.Deg := Some 10; Ephemeris.Date_UT := "day 10" |};
            {| Ephemeris.JD := Some 0; Ephemeris.Sign := "Pisces";
               Ephemeris.Deg := Some 20; Ephemeris.Date_UT := "day 0" |} ])
  /\ (length (Ephemeris.loadEphemerisData Ephemeris.exampleModules "Sun")
      <= 2)%nat.
Proof.
  apply (loadEphemerisData_table Ephemeris.exampleModules "Sun").
  - left. reflexivity.
  - reflexivity.
Defined.

(** ** Zodiac positions *)

Lemma trunc_floor (x : Q) : 0 <= x -> Js.trunc x = Qfloor x.
Proof.
  intros Hx. destruct (trunc_nonneg x Hx) as [H1 H2].
  rewrite (Qfloor_comp x (inject_Z (Js.trunc x) + (x - inject_Z (Js.trunc x))))
    by ring.
  symmetry. apply Qfloor_shift; lra.
Qed.

Lemma rem_floor (a b : Q) :
  0 <= a -> 0 < b -> Js.rem a b == a - b * Js.floor (a / b).
Proof.
  intros Ha Hb. unfold Js.rem, Js.floor.
  rewrite trunc_floor; [reflexivity|]. apply Qle_shift_div_l; lra.
Qed.

Lemma longitudeToZodiac_sign (lon : Q) (k : nat) (name : string) :
  nth_error Planets.ZODIAC_SIGNS k = Some name ->
  30 * inject_Z (Z.of_nat k) <= JulianDay.normalizeAngle lon ->
  JulianDay.normalizeAngle lon < 30 * inject_Z (Z.of_nat k) + 30 ->
  exists z,
    Planets.longitudeToZodiac lon = inr z
    /\ Planets.sign z = name
    /\ Planets.longitude z = JulianDay.normalizeAngle lon
    /\ Planets.degree z
       == JulianDay.normalizeAngle lon - 30 * inject_Z (Z.of_nat k).
Proof.
  intros Hname Hlo Hhi.
  destruct (normalizeAngle_range lon) as [H0 H1].
  unfold Planets.longitudeToZodiac. cbv zeta.
  assert (Hfloor : Js.floor (JulianDay.normalizeAngle lon / 30)
                   = inject_Z (Z.of_nat k)).
  { rewrite (floor_proper _ (inject_Z (Z.of_nat k)
                             + (JulianDay.normalizeAngle lon / 30
                                - inject_Z (Z.of_nat k)))) by ring.
    apply floor_shift.
    - assert (inject_Z (Z.of_nat k) <= JulianDay.normalizeAngle lon / 30)
        by (apply Qle_shift_div_l; lra).
      lra.
    - assert (JulianDay.normalizeAngle lon / 30 < inject_Z (Z.of_nat k) + 1)
        by (apply Qlt_shift_div_r; lra).
      lra. }
  rewrite Hfloor.
  assert (Hindex : Js.index Planets.ZODIAC_SIGNS (inject_Z (Z.of_nat k))
                   = Some name).
  { unfold Js.index, Js.floor. rewrite Qfloor_Z.
    rewrite (proj2 (eqb_eq _ _)) by reflexivity.
    change 0 with (inject_Z 0). rewrite leb_inject.
    rewrite (proj2 (Z.leb_le 0 (Z.of_nat k))) by lia.
    cbn [andb]. now rewrite Nat2Z.id. }
  rewrite Hindex. eexists. split; [reflexivity|].
  cbn [Planets.sign Planets.longitude Planets.degree].
  repeat split.
  rewrite rem_floor by lra. rewrite Hfloor. reflexivity.
Qed.

(** X14: [longitudeToZodiac] splits a longitude into a sign and a degree
    within the sign.  For a longitude that is not negative it returns the
    normalised longitude, the sign of index [k] in [ZODIAC_SIGNS] for some
    [k] in 0..11 and a degree in [0, 30), with the longitude equal to
    [30 * k + degree]; it throws for no such longitude. *)
Theorem longitudeToZodiac_decomposition (lon : Q) :
  0 <= lon ->
  exists (z : Planets.Zodiac) (k : nat),
    Planets.longitudeToZodiac lon = inr z
    /\ (k < 12)%nat
    /\ nth_error Planets.ZODIAC_SIGNS k = Some (Planets.sign z)
    /\ Planets.longitude z = JulianDay.normalizeAngle lon
    /\ Planets.longitude z == 30 * inject_Z (Z.of_nat k) + Planets.degree z
    /\ 0 <= Planets.degree z /\ Planets.degree z < 30.
Proof.
  intros _.
  destruct (normalizeAngle_range lon) as [H0 H1].
  destruct (floor_range (JulianDay.normalizeAngle lon / 30) 0 12)
    as (kz & Hkz & Hrange).
  { change (inject_Z 0) with 0. apply Qle_shift_div_l; lra. }
  { change (inject_Z 12) with 12. apply Qlt_shift_div_r; lra. }
  pose proof (floor_le (JulianDay.normalizeAngle lon / 30)) as Hle.
  pose proof (floor_lt (JulianDay.normalizeAngle lon / 30)) as Hlt.
  rewrite Hkz in Hle, Hlt.
  assert (Hn : JulianDay.normalizeAngle lon
               == 30 * (JulianDay.normalizeAngle lon / 30)) by field.
  assert (Hk : inject_Z (Z.of_nat (Z.to_nat kz)) = inject_Z kz)
    by (rewrite Z2Nat.id by lia; reflexivity).
  destruct (nth_error Planets.ZODIAC_SIGNS (Z.to_nat kz)) as [name|] eqn:Hname.
  - destruct (longitudeToZodiac_sign lon (Z.to_nat kz) name Hname)
      as (z & Hz & Hsign & Hlon & Hdeg).
    { rewrite Hk. lra. }
    { rewrite Hk. lra. }
    exists z, (Z.to_nat kz). rewrite Hk in Hdeg.
    split; [exact Hz|]. split; [lia|]. split; [now rewrite Hsign|].
    split; [exact Hlon|]. rewrite Hlon, Hk. repeat split; lra.
  - apply nth_error_None in Hname. cbn in Hname. lia.
Qed.

Lemma longitudeToZodiac_decomposition_witness :
  exists (z : Planets.Zodiac) (k : nat),
    Planets.longitudeToZodiac 487.5 = inr z
    /\ (k < 12)%nat
    /\ nth_error Planets.ZODIAC_SIGNS k = Some (Planets.sign z)
    /\ Planets.longitude z = JulianDay.normalizeAngle 487.5
    /\ Planets.longitude z == 30 * inject_Z (Z.of_nat k) + Planets.degree z
    /\ 0 <= Planets.degree z /\ Planets.degree z < 30.
Proof.
  apply (longitudeToZodiac_decomposition 487.5). vm_compute. congruence.
Defined.

(** ** Houses of a longitude *)

Section HouseArcs.

Import Houses.

(** The test of [getPlanetHouse] accepts the cusp itself. *)
Lemma betweenCusps_start (c c' lon : Q) : c == lon -> betweenCusps c c' lon = true.
Proof.
  intros E. unfold betweenCusps.
  rewrite (proj2 (leb_le c lon)) by lra.
  destruct (Js.ltb c c') eqn:E1; [|reflexivity].
  apply ltb_lt in E1. cbn [andb]. apply ltb_lt. lra.
Qed.

(** The difference of two angles of [0, 360), normalised. *)
Lemma normalizeAngle_difference (lon c : Q) :
  0 <= lon -> lon < 360 -> 0 <= c -> c < 360 ->
  (c <= lon /\ JulianDay.normalizeAngle (lon - c) == lon - c)
  \/ (lon < c /\ JulianDay.normalizeAngle (lon - c) == lon - c + 360).
Proof.
  intros Hl0 Hl1 Hc0 Hc1.
  destruct (Qlt_le_dec lon c) as [Hlt | Hle].
  - right. split; [exact Hlt|].
    apply (normalizeAngle_unique _ _ (-1)); try lra.
    change (inject_Z (-1)) with (-1). ring.
  - left. split; [exact Hle|]. apply normalizeAngle_id; lra.
Qed.

(** The interval from a cusp [c] to the cusp [w] degrees on holds the
    longitudes less than [w] degrees past [c]. *)
Lemma betweenCusps_arc (c c' w lon : Q) :
  0 <= c -> c < 360 -> 0 <= lon -> lon < 360 -> 0 < w -> w < 360 ->
  c' == JulianDay.normalizeAngle (c + w) ->
  betweenCusps c c' lon = true <-> JulianDay.normalizeAngle (lon - c) < w.
Proof.
  intros Hc0 Hc1 Hl0 Hl1 Hw0 Hw1 Hc'.
  assert (Hnext : (c + w < 360 /\ c' == c + w)
                  \/ (360 <= c + w /\ c' == c + w - 360)).
  { destruct (Qlt_le_dec (c + w) 360) as [Hlt | Hge].
    - left. split; [exact Hlt|]. rewrite Hc'. apply normalizeAngle_id; lra.
    - right. split; [exact Hge|]. rewrite Hc'. apply normalizeAngle_wrap; lra. }
  unfold betweenCusps.
  destruct (Js.ltb c c') eqn:E1; [apply ltb_lt in E1 | apply ltb_ge in E1].
  - rewrite andb_true_iff, leb_le, ltb_lt.
    destruct (normalizeAngle_difference lon c Hl0 Hl1 Hc0 Hc1) as [[H1 H2]|[H1 H2]],
      Hnext as [[H3 H4]|[H3 H4]]; rewrite H2; split; intros; try split; lra.
  - rewrite orb_true_iff, leb_le, ltb_lt.
    destruct (normalizeAngle_difference lon c Hl0 Hl1 Hc0 Hc1) as [[H1 H2]|[H1 H2]],
      Hnext as [[H3 H4]|[H3 H4]]; rewrite H2; split; intros; try lra.
    all: try (destruct (Qlt_le_dec lon c'); [right; lra | left; lra]).
    all: try (left; lra).
    all: try (right; lra).
Qed.


Lemma normalizeAngle_minus_r (x y : Q) :
  JulianDay.normalizeAngle (x - JulianDay.normalizeAngle y)
  == JulianDay.normalizeAngle (x - y).
Proof.
  destruct (normalizeAngle_congruent y) as [m Hm].
  rewrite <- (normalizeAngle_turns (x - y) m).
  apply normalizeAngle_proper. lra.
Qed.

(** A longitude [r] degrees past the first cusp, in the [kz]-th span of
    30 degrees, is less than 30 degrees past the [j]-th cusp only for
    [j = kz]. *)
Lemma offset_in_span (r : Q) (kz j : Z) :
  (0 <= kz < 12)%Z -> (0 <= j < 12)%Z ->
  30 * inject_Z kz <= r -> r < 30 * inject_Z kz + 30 ->
  JulianDay.normalizeAngle (r - 30 * inject_Z j) < 30 <-> j = kz.
Proof.
  intros Hk Hj Hlo Hhi.
  destruct (inject_Z_bounds kz 0 11 ltac:(lia)) as [Hk0 Hk1].
  destruct (inject_Z_bounds j 0 11 ltac:(lia)) as [Hj0 Hj1].
  change (inject_Z 0) with 0 in *. change (inject_Z 11) with 11 in *.
  destruct (Z_lt_le_dec kz j) as [Hgt | Hle].
  - assert (Hstep : inject_Z kz + 1 <= inject_Z j).
    { change 1 with (inject_Z 1). rewrite <- inject_Z_plus, <- Zle_Qle. lia. }
    rewrite (normalizeAngle_unique _ (r - 30 * inject_Z j + 360) (-1));
      [| lra | lra | change (inject_Z (-1)) with (-1); ring].
    split; [lra | lia].
  - rewrite normalizeAngle_id.
    + split.
      * intros Hlt. destruct (Z.eq_dec j kz) as [E | Hne]; [exact E|].
        assert (Hstep : inject_Z j + 1 <= inject_Z kz).
        { change 1 with (inject_Z 1). rewrite <- inject_Z_plus, <- Zle_Qle. lia. }
        lra.
      * intros ->. lra.
    + assert (inject_Z j <= inject_Z kz) by (rewrite <- Zle_Qle; lia). lra.
    + lra.
Qed.

(** The house of a longitude in an array of twelve cusps 30 degrees
    apart, numbered from 1 at the cusp [c0]. *)
Lemma regular_houses (houses : list House) (c0 lon : Q) :
  length houses = 12%nat ->
  (forall i h, houses !! i = Some h ->
     cusp h == inject_Z (Z.of_nat i) + 1
     /\ longitude h
        == JulianDay.normalizeAngle (c0 + 30 * inject_Z (Z.of_nat i))) ->
  getPlanetHouse lon houses
  == Js.floor (JulianDay.normalizeAngle (lon - c0) / 30) + 1.
Proof.
  intros Hlen Hcusps.
  set (L := JulianDay.normalizeAngle lon).
  set (r := JulianDay.normalizeAngle (lon - c0)).
  destruct (normalizeAngle_range lon) as [HL0 HL1]. fold L in HL0, HL1.
  destruct (normalizeAngle_range (lon - c0)) as [Hr0 Hr1]. fold r in Hr0, Hr1.
  destruct (floor_range (r / 30) 0 12) as (kz & Hkz & Hrange).
  { change (inject_Z 0) with 0. apply Qle_shift_div_l; lra. }
  { change (inject_Z 12) with 12. apply Qlt_shift_div_r; lra. }
  pose proof (floor_le (r / 30)) as Hle. pose proof (floor_lt (r / 30)) as Hlt.
  rewrite Hkz in Hle, Hlt.
  assert (Hr : r == 30 * (r / 30)) by field.
  assert (Hspan : forall j, (j < 12)%nat ->
             exists h,
               houses !! j = Some h
               /\ houseAt houses L j
                  = if Z.eq_dec (Z.of_nat j) kz then Some (cusp h) else None).
  { intros j Hj.
    destruct (lookup_lt_is_Some_2 houses j) as [h Hh]; [lia|].
    destruct (lookup_lt_is_Some_2 houses ((j + 1) mod length houses))
      as [next Hnext]; [apply Nat.mod_upper_bound; lia|].
    exists h. split; [exact Hh|].
    unfold houseAt. rewrite Hh, Hnext.
    destruct (Hcusps _ _ Hh) as [_ Hlon].
    destruct (Hcusps _ _ Hnext) as [_ Hlon'].
    destruct (normalizeAngle_range (c0 + 30 * inject_Z (Z.of_nat j)))
      as [Hc0 Hc1].
    assert (Hnextlon :
              longitude next
              == JulianDay.normalizeAngle (longitude h + 30)).
    { rewrite Hlon', Hlon, normalizeAngle_plus_l. rewrite Hlen.
      destruct (Nat.eq_dec j 11%nat) as [-> | Hne].
      - change ((11 + 1) mod 12)%nat with 0%nat.
        rewrite <- (normalizeAngle_turns (c0 + 30 * inject_Z (Z.of_nat 0)) 1).
        apply normalizeAngle_proper. change (inject_Z (Z.of_nat 0)) with 0.
        change (inject_Z (Z.of_nat 11)) with 11. change (inject_Z 1) with 1.
        ring.
      - rewrite Nat.mod_small by lia.
        apply normalizeAngle_proper.
        replace (Z.of_nat (j + 1)) with (Z.of_nat j + 1)%Z by lia.
        rewrite inject_Z_plus. change (inject_Z 1) with 1. ring. }
    assert (Harc : betweenCusps (longitude h) (longitude next) L = true
                   <-> Z.of_nat j = kz).
    { assert (Hh0 : 0 <= longitude h) by (rewrite Hlon; lra).
      assert (Hh1 : longitude h < 360) by (rewrite Hlon; lra).
      rewrite (betweenCusps_arc (longitude h) (longitude next) 30 L
                 Hh0 Hh1 HL0 HL1 ltac:(lra) ltac:(lra) Hnextlon).
      rewrite <- (offset_in_span r kz (Z.of_nat j)); try lia; try lra.
      assert (E : JulianDay.normalizeAngle (L - longitude h)
                  == JulianDay.normalizeAngle (r - 30 * inject_Z (Z.of_nat j))).
      { rewrite (normalizeAngle_proper (L - longitude h)
                   (L - JulianDay.normalizeAngle
                          (c0 + 30 * inject_Z (Z.of_nat j))))
          by now rewrite Hlon.
        rewrite normalizeAngle_minus_r.
        rewrite (normalizeAngle_proper (L - (c0 + 30 * inject_Z (Z.of_nat j)))
                   (L + (- c0 - 30 * inject_Z (Z.of_nat j)))) by ring.
        unfold L. rewrite normalizeAngle_plus_l.
        rewrite (normalizeAngle_proper (r - 30 * inject_Z (Z.of_nat j))
                   (r + (- (30 * inject_Z (Z.of_nat j))))) by ring.
        unfold r. rewrite normalizeAngle_plus_l.
        apply normalizeAngle_proper. ring. }
      now rewrite E. }
    destruct (Z.eq_dec (Z.of_nat j) kz) as [E | Hne].
    - now rewrite (proj2 Harc E).
    - destruct (betweenCusps _ _ L) eqn:Eb; [|reflexivity].
      exfalso. apply Hne. now apply Harc. }
  destruct (Hspan (Z.to_nat kz) ltac:(lia)) as (h & Hh & Hat).
  destruct (Z.eq_dec (Z.of_nat (Z.to_nat kz)) kz) as [_ | Hne]; [|lia].
  unfold getPlanetHouse. fold L.
  rewrite (getPlanetHouseLoop_unique houses L (Z.to_nat kz) (cusp h)).
  - destruct (Hcusps _ _ Hh) as [Hcusp _]. rewrite Hcusp.
    fold r. rewrite Hkz, Z2Nat.id by lia. reflexivity.
  - exact Hat.
  - apply in_seq. lia.
  - intros j Hj Hne. apply in_seq in Hj.
    destruct (Hspan j ltac:(lia)) as (hj & _ & Hatj).
    rewrite Hatj. destruct (Z.eq_dec (Z.of_nat j) kz); [lia | reflexivity].
Qed.

Lemma counter_lookup (i : nat) (x : Q) :
  counter !! i = Some x -> x = inject_Z (Z.of_nat i) /\ (i < 12)%nat.
Proof.
  unfold counter. rewrite list_lookup_fmap.
  destruct (seq 0 12 !! i) as [k|] eqn:E; [|discriminate].
  apply lookup_seq in E as [-> Hi]. cbn. intros [= <-]. split; [reflexivity | lia].
Qed.

Lemma equal_houses_regular (ascendant : Q) (i : nat) (h : House) :
  calculateEqualHouses ascendant !! i = Some h ->
  cusp h == inject_Z (Z.of_nat i) + 1
  /\ longitude h
     == JulianDay.normalizeAngle (ascendant + 30 * inject_Z (Z.of_nat i)).
Proof.
  unfold calculateEqualHouses. rewrite list_lookup_fmap.
  destruct (counter !! i) as [x|] eqn:E; [|discriminate].
  apply counter_lookup in E as [-> _]. cbn. intros [= <-].
  cbn [cusp longitude]. split; [reflexivity|].
  apply normalizeAngle_proper. ring.
Qed.

(** In exact arithmetic the house of a longitude in Equal houses is the
    number of whole spans of 30 degrees from the ascendant, plus one. *)
Lemma equal_houses_closed_form (ascendant lon : Q) :
  getPlanetHouse lon (calculateEqualHouses ascendant)
  == Js.floor (JulianDay.normalizeAngle (lon - ascendant) / 30) + 1.
Proof.
  apply regular_houses; [reflexivity|]. apply equal_houses_regular.
Qed.

(** X16: Equal houses count the spans of 30 degrees from the ascendant.
    For an ascendant and a longitude in [0, 360) and [k] in 0..11, a
    longitude that lies, after a whole number of turns, from
    [ascendant + 30 k] to [ascendant + 30 k + 30], at least a billionth
    of a degree inside at both ends, is in house [k + 1]. *)
Theorem getPlanetHouse_equal_houses (ascendant lon : Q) (k turn : Z) :
  0 <= ascendant -> ascendant < 360 -> 0 <= lon -> lon < 360 ->
  (0 <= k <= 11)%Z ->
  ascendant + 30 * inject_Z k + (1 # 1000000000)
  <= lon + 360 * inject_Z turn ->
  lon + 360 * inject_Z turn
  <= ascendant + 30 * inject_Z k + 30 - (1 # 1000000000) ->
  getPlanetHouse lon (calculateEqualHouses ascendant) == inject_Z k + 1.
Proof.
  intros Ha0 Ha1 Hl0 Hl1 Hk Hlo Hhi.
  apply inject_Z_bounds in Hk as [Hk0 Hk1].
  change (inject_Z 0) with 0 in Hk0. change (inject_Z 11) with 11 in Hk1.
  rewrite equal_houses_closed_form.
  assert (Hoffset : JulianDay.normalizeAngle (lon - ascendant)
                    == lon + 360 * inject_Z turn - ascendant).
  { apply (normalizeAngle_unique _ _ (- turn)); [lra | lra |].
    rewrite inject_Z_opp. ring. }
  rewrite (floor_proper _
             (inject_Z k
              + (lon + 360 * inject_Z turn - ascendant - 30 * inject_Z k) / 30)).
  - rewrite floor_shift; [reflexivity | |].
    + apply Qle_shift_div_l; lra.
    + apply Qlt_shift_div_r; lra.
  - rewrite Hoffset. field.
Qed.

Lemma getPlanetHouse_equal_houses_witness :
  getPlanetHouse 25 (calculateEqualHouses 100) == inject_Z 9 + 1.
Proof.
  apply (getPlanetHouse_equal_houses 100 25 9 1);
    first [lia | vm_compute; congruence].
Defined.

(** The remainder of a whole number by twelve, in degrees. *)
Lemma sign_start (n : Z) :
  (0 <= n)%Z ->
  Js.rem (inject_Z n) 12 * 30 == JulianDay.normalizeAngle (30 * inject_Z n).
Proof.
  intros Hn. change 12 with (12 # 1). rewrite rem_inject.
  rewrite Z.rem_mod_nonneg by lia.
  symmetry. apply (normalizeAngle_unique _ _ (n / 12)).
  - assert (H : inject_Z 0 <= inject_Z (n mod 12)).
    { rewrite <- Zle_Qle. apply Z.mod_pos_bound. lia. }
    change (inject_Z 0) with 0 in H. lra.
  - assert (H : inject_Z (n mod 12) <= inject_Z 11).
    { rewrite <- Zle_Qle. pose proof (Z.mod_pos_bound n 12). lia. }
    change (inject_Z 11) with 11 in H. lra.
  - rewrite (Z.div_mod n 12) at 1 by lia.
    rewrite inject_Z_plus, inject_Z_mult. change (inject_Z 12) with 12. ring.
Qed.

Lemma whole_sign_houses_regular (ascendant : Q) (i : nat) (h : House) :
  0 <= ascendant ->
  calculateWholeSignHouses ascendant !! i = Some h ->
  cusp h == inject_Z (Z.of_nat i) + 1
  /\ longitude h
     == JulianDay.normalizeAngle
          (30 * Js.floor (ascendant / 30) + 30 * inject_Z (Z.of_nat i)).
Proof.
  intros Hasc. unfold calculateWholeSignHouses. cbv zeta.
  rewrite list_lookup_fmap.
  destruct (counter !! i) as [x|] eqn:E; [|discriminate].
  apply counter_lookup in E as [-> _]. cbn. intros [= <-].
  cbn [cusp longitude]. split; [reflexivity|].
  assert (Hsign : (0 <= Qfloor (ascendant / 30))%Z).
  { change 0%Z with (Qfloor 0). apply Qfloor_resp_le.
    apply Qle_shift_div_l; lra. }
  unfold Js.floor at 1.
  rewrite (rem_proper _ (inject_Z (Qfloor (ascendant / 30) + Z.of_nat i))
             ltac:(rewrite inject_Z_plus; reflexivity) 12 12 (Qeq_refl 12)).
  rewrite sign_start by lia.
  apply normalizeAngle_proper. unfold Js.floor. rewrite inject_Z_plus. ring.
Qed.

(** In exact arithmetic the house of a longitude in Whole Sign houses
    counts the spans of 30 degrees from the start of the sign of the
    ascendant. *)
Lemma whole_sign_houses_closed_form (ascendant lon : Q) :
  0 <= ascendant ->
  getPlanetHouse lon (calculateWholeSignHouses ascendant)
  == Js.floor
       (JulianDay.normalizeAngle (lon - 30 * Js.floor (ascendant / 30)) / 30)
     + 1.
Proof.
  intros Hasc. apply regular_houses; [reflexivity|].
  intros i h. now apply whole_sign_houses_regular.
Qed.

(** X17: Whole Sign houses count signs.  For an ascendant from 0 to 360
    and a longitude that is not negative, the house of the longitude is
    the number of signs from the sign of the ascendant to the sign of the
    normalised longitude, counted around the twelve signs, plus one; a
    sign is the whole number of spans of 30 degrees in an angle. *)
Theorem getPlanetHouse_whole_sign_houses (ascendant lon : Q) :
  0 <= ascendant -> ascendant <= 360 -> 0 <= lon ->
  getPlanetHouse lon (calculateWholeSignHouses ascendant)
  == inject_Z
       ((Qfloor (JulianDay.normalizeAngle lon / 30) - Qfloor (ascendant / 30))
        mod 12 + 1).
Proof.
  intros Ha0 _ _.
  rewrite (whole_sign_houses_closed_form ascendant lon Ha0).
  destruct (normalizeAngle_range lon) as [HL0 HL1].
  destruct (normalizeAngle_congruent lon) as [turns Hturns].
  set (L := JulianDay.normalizeAngle lon) in *.
  set (a := Qfloor (ascendant / 30)).
  set (k := Qfloor (L / 30)).
  assert (Hk0 : inject_Z k <= L / 30) by apply Qfloor_le.
  assert (Hk1 : L / 30 < inject_Z k + 1).
  { pose proof (Qlt_floor (L / 30)) as H. fold k in H.
    rewrite inject_Z_plus in H. exact H. }
  assert (HL : L == 30 * (L / 30)) by field.
  pose proof (Z.mod_pos_bound (k - a) 12 ltac:(lia)) as Hj.
  pose proof (Z.div_mod (k - a) 12 ltac:(lia)) as Hdiv.
  set (j := ((k - a) mod 12)%Z) in *.
  set (t := ((k - a) / 12)%Z) in *.
  assert (Hj' : 0 <= inject_Z j /\ inject_Z j <= 11).
  { change 0 with (inject_Z 0). change 11 with (inject_Z 11).
    rewrite <- !Zle_Qle. lia. }
  assert (Hka : inject_Z k - inject_Z a == 12 * inject_Z t + inject_Z j).
  { assert (E : inject_Z (k - a) = inject_Z (12 * t + j)) by now rewrite Hdiv.
    unfold Z.sub in E.
    rewrite !inject_Z_plus, inject_Z_opp, inject_Z_mult in E.
    change (inject_Z 12) with 12 in E. rewrite <- E. ring. }
  assert (Hoffset : JulianDay.normalizeAngle (lon - 30 * Js.floor (ascendant / 30))
                    == 30 * inject_Z j + (L - 30 * inject_Z k)).
  { apply (normalizeAngle_unique _ _ (turns + t)); [lra | lra |].
    unfold Js.floor. fold a. rewrite inject_Z_plus.
    assert (Hlon : lon == L + 360 * inject_Z turns) by lra.
    rewrite Hlon at 1.
    assert (E : 30 * inject_Z a
                == 30 * inject_Z k - 360 * inject_Z t - 30 * inject_Z j)
      by lra.
    rewrite E. ring. }
  rewrite (floor_proper _ (inject_Z j + (L - 30 * inject_Z k) / 30)).
  - rewrite floor_shift.
    + rewrite inject_Z_plus. reflexivity.
    + apply Qle_shift_div_l; lra.
    + apply Qlt_shift_div_r; lra.
  - rewrite Hoffset. field.
Qed.

Lemma getPlanetHouse_whole_sign_houses_witness :
  getPlanetHouse 10 (calculateWholeSignHouses 100)
  == inject_Z
       ((Qfloor (JulianDay.normalizeAngle 10 / 30) - Qfloor (100 / 30))
        mod 12 + 1).
Proof.
  apply (getPlanetHouse_whole_sign_houses 100 10); vm_compute; congruence.
Defined.

(** *** The Porphyry array *)

Lemma betweenCusps_same (c c' lon : Q) : c == c' -> betweenCusps c c' lon = true.
Proof.
  intros E. unfold betweenCusps.
  rewrite (proj2 (ltb_ge c c')) by lra.
  destruct (Js.leb c lon) eqn:E1; [reflexivity|].
  apply leb_gt in E1. cbn [orb]. apply ltb_lt. lra.
Qed.

Lemma getArc_range (start finish : Q) :
  0 <= start -> start < 360 -> 0 <= finish -> finish < 360 ->
  0 <= getArc start finish /\ getArc start finish < 360
  /\ (getArc start finish == finish - start
      \/ getArc start finish == finish - start + 360)
  /\ (~ start == finish -> 0 < getArc start finish).
Proof.
  intros Hs0 Hs1 Hf0 Hf1. unfold getArc. cbv zeta.
  destruct (Js.ltb (finish - start) 0) eqn:E;
    [apply ltb_lt in E | apply ltb_ge in E].
  - repeat split; lra.
  - repeat split; lra.
Qed.

(** Two angles an integer number of turns apart normalise alike. *)
Lemma normalizeAngle_apart (x y : Q) (k : Z) :
  x == y + 360 * inject_Z k ->
  JulianDay.normalizeAngle x == JulianDay.normalizeAngle y.
Proof.
  intros E. rewrite <- (normalizeAngle_turns y k).
  now apply normalizeAngle_proper.
Qed.

(** When the MC is at most 135 or more than 180 degrees ahead of the
    ascendant, the intervals of the first three cusps of the Porphyry
    array cover the circle. *)
Lemma porphyry_first_three_cover (ascendant mc lon : Q) :
  0 <= ascendant -> ascendant < 360 -> 0 <= mc -> mc < 360 ->
  ~ ascendant == mc ->
  getArc ascendant mc <= 135 \/ 180 < getArc ascendant mc ->
  0 <= lon -> lon < 360 ->
  let descendant := JulianDay.normalizeAngle (ascendant + 180) in
  let ic := JulianDay.normalizeAngle (mc + 180) in
  let arc3 := getArc descendant ic / 3 in
  betweenCusps ascendant (JulianDay.normalizeAngle (ic + arc3)) lon = true
  \/ betweenCusps (JulianDay.normalizeAngle (ic + arc3))
       (JulianDay.normalizeAngle (ic + arc3 * 2)) lon = true
  \/ betweenCusps (JulianDay.normalizeAngle (ic + arc3 * 2)) ic lon = true.
Proof.
  intros Ha0 Ha1 Hm0 Hm1 Hne Hahead Hl0 Hl1 descendant ic arc3.
  destruct (getArc_range ascendant mc Ha0 Ha1 Hm0 Hm1)
    as (Hd0 & Hd1 & Hd & Hdpos).
  specialize (Hdpos Hne).
  destruct (porphyry_opposite_arcs ascendant mc Ha0 Ha1 Hm0 Hm1) as [_ Hopp].
  fold descendant ic in Hopp.
  assert (Harc : arc3 == getArc ascendant mc / 3).
  { unfold arc3. now rewrite Hopp. }
  set (d := getArc ascendant mc) in *.
  assert (Ha3 : 3 * arc3 == d) by (rewrite Harc; field).
  clearbody arc3. clear Hopp Harc.
  destruct (normalizeAngle_range (mc + 180)) as [Hi0 Hi1].
  destruct (normalizeAngle_congruent (mc + 180)) as [ki Hki].
  fold ic in Hi0, Hi1, Hki.
  destruct (normalizeAngle_range (ic + arc3)) as [H20 H21].
  destruct (normalizeAngle_congruent (ic + arc3)) as [k2 Hk2].
  destruct (normalizeAngle_range (ic + arc3 * 2)) as [H30 H31].
  destruct (normalizeAngle_congruent (ic + arc3 * 2)) as [k3 Hk3].
  set (c2 := JulianDay.normalizeAngle (ic + arc3)) in *.
  set (c3 := JulianDay.normalizeAngle (ic + arc3 * 2)) in *.
  destruct (normalizeAngle_range (lon - ic)) as [Hp0 Hp1].
  destruct (normalizeAngle_congruent (lon - ic)) as [kp Hkp].
  set (p := JulianDay.normalizeAngle (lon - ic)) in *.
  (* the ascendant as an offset from the IC *)
  destruct (normalizeAngle_range (ascendant - ic)) as [Hq0 Hq1].
  destruct (normalizeAngle_congruent (ascendant - ic)) as [kq Hkq].
  set (q := JulianDay.normalizeAngle (ascendant - ic)) in *.
  assert (Hq : arc3 <= q).
  { assert (Hkd : exists kd : Z, d == mc - ascendant + 360 * inject_Z kd).
    { destruct Hd as [Hd | Hd]; [exists 0%Z | exists 1%Z]; rewrite Hd;
        [change (inject_Z 0) with 0 | change (inject_Z 1) with 1]; ring. }
    destruct Hkd as [kd Hkd].
    destruct (Qlt_le_dec 180 d) as [Hbig | Hsmall].
    - assert (E : q == 540 - d).
      { apply (normalizeAngle_unique _ _ (ki + kd - 2)); try lra.
        unfold Z.sub. rewrite !inject_Z_plus, !inject_Z_opp.
        change (inject_Z 2) with 2. lra. }
      lra.
    - assert (E : q == 180 - d).
      { apply (normalizeAngle_unique _ _ (ki + kd - 1)); try lra.
        unfold Z.sub. rewrite !inject_Z_plus, !inject_Z_opp.
        change (inject_Z 1) with 1. lra. }
      destruct Hahead; lra. }
  destruct (Qlt_le_dec p arc3) as [Hp1st | Hp1st].
  - (* less than arc3 past the IC: the first interval *)
    left.
    destruct (Qeq_dec q arc3) as [Eq | Nq].
    + apply betweenCusps_same. symmetry.
      apply (normalizeAngle_unique _ _ (- kq)); try lra.
      rewrite inject_Z_opp. lra.
    + assert (Hw : 0 < arc3 - q + 360 /\ arc3 - q + 360 < 360).
      { split; [lra|]. destruct (Qlt_le_dec arc3 q); [lra|].
        exfalso. apply Nq. lra. }
      apply (betweenCusps_arc ascendant c2 (arc3 - q + 360) lon);
        try lra.
      * unfold c2.
        apply (normalizeAngle_apart _ _ (- kq - 1)).
        unfold Z.sub. rewrite !inject_Z_plus, !inject_Z_opp.
        change (inject_Z 1) with 1. lra.
      * rewrite (normalizeAngle_unique (lon - ascendant) (p - q + 360)
                   (kp - kq - 1)); try lra.
        unfold Z.sub. rewrite !inject_Z_plus, !inject_Z_opp.
        change (inject_Z 1) with 1. lra.
  - destruct (Qlt_le_dec p (arc3 * 2)) as [Hp2nd | Hp2nd].
    + (* the second interval *)
      right. left.
      apply (betweenCusps_arc c2 c3 arc3 lon); try lra.
      * unfold c3. apply (normalizeAngle_apart _ _ k2). lra.
      * rewrite (normalizeAngle_unique (lon - c2) (p - arc3) (kp + k2));
          try lra.
        rewrite inject_Z_plus. lra.
    + (* the third interval *)
      right. right.
      apply (betweenCusps_arc c3 ic (360 - arc3 * 2) lon); try lra.
      * rewrite <- (normalizeAngle_id ic Hi0 Hi1) at 1.
        apply (normalizeAngle_apart _ _ (k3 - 1)).
        unfold Z.sub. rewrite !inject_Z_plus, !inject_Z_opp.
        change (inject_Z 1) with 1. lra.
      * rewrite (normalizeAngle_unique (lon - c3) (p - arc3 * 2) (kp + k3));
          try lra.
        rewrite inject_Z_plus. lra.
Qed.

Lemma houseAt_lookup (houses : list House) (lon : Q) (i : nat)
    (current next : House) :
  houses !! i = Some current /\ houses !! ((i + 1) mod length houses)%nat = Some next ->
  houseAt houses lon i
  = if betweenCusps (longitude current) (longitude next) lon
    then Some (cusp current) else None.
Proof. intros [Hc Hn]. unfold houseAt. now rewrite Hc, Hn. Qed.

(** The Porphyry array in the order of its cusp numbers. *)
Lemma calculatePorphyryHouses_sorted (ascendant mc : Q) :
  let descendant := JulianDay.normalizeAngle (ascendant + 180) in
  let ic := JulianDay.normalizeAngle (mc + 180) in
  let arc1 := getArc ascendant mc / 3 in
  let arc2 := getArc mc descendant / 3 in
  let arc3 := getArc descendant ic / 3 in
  calculatePorphyryHouses ascendant mc
  = [ porphyryCusp 1 ascendant;
      porphyryCusp 2 (JulianDay.normalizeAngle (ic + arc3));
      porphyryCusp 3 (JulianDay.normalizeAngle (ic + arc3 * 2));
      porphyryCusp 4 ic;
      porphyryCusp 5 (JulianDay.normalizeAngle (descendant + arc3));
      porphyryCusp 6 (JulianDay.normalizeAngle (descendant + arc3 * 2));
      porphyryCusp 7 descendant;
      porphyryCusp 8 (JulianDay.normalizeAngle (mc + arc2));
      porphyryCusp 9 (JulianDay.normalizeAngle (mc + arc2 * 2));
      porphyryCusp 10 mc;
      porphyryCusp 11 (JulianDay.normalizeAngle (ascendant + arc1));
      porphyryCusp 12 (JulianDay.normalizeAngle (ascendant + arc1 * 2)) ].
Proof. reflexivity. Qed.

(** In exact arithmetic the first three intervals of the Porphyry array
    cover the circle when the MC is at most 135 or more than 180 degrees
    ahead of the ascendant. *)
Lemma porphyry_houses_first_three (ascendant mc lon : Q) :
  0 <= ascendant -> ascendant < 360 -> 0 <= mc -> mc < 360 ->
  ~ ascendant == mc ->
  getArc ascendant mc <= 135 \/ 180 < getArc ascendant mc ->
  getPlanetHouse lon (calculatePorphyryHouses ascendant mc) = 1
  \/ getPlanetHouse lon (calculatePorphyryHouses ascendant mc) = 2
  \/ getPlanetHouse lon (calculatePorphyryHouses ascendant mc) = 3.
Proof.
  intros Ha0 Ha1 Hm0 Hm1 Hne Hahead.
  destruct (normalizeAngle_range lon) as [Hl0 Hl1].
  pose proof (porphyry_first_three_cover ascendant mc
                (JulianDay.normalizeAngle lon) Ha0 Ha1 Hm0 Hm1 Hne Hahead
                Hl0 Hl1) as Hcover.
  cbv zeta in Hcover.
  unfold getPlanetHouse. rewrite calculatePorphyryHouses_sorted.
  cbv zeta. cbn [length seq getPlanetHouseLoop].
  set (ic := JulianDay.normalizeAngle (mc + 180)) in *.
  set (arc3 := getArc (JulianDay.normalizeAngle (ascendant + 180)) ic / 3) in *.
  set (L := JulianDay.normalizeAngle lon) in *.
  match goal with
  | |- context [houseAt ?l L 0] => set (houses := l)
  end.
  rewrite (houseAt_lookup houses L 0 (porphyryCusp 1 ascendant)
             (porphyryCusp 2 (JulianDay.normalizeAngle (ic + arc3))))
    by (split; reflexivity).
  rewrite (houseAt_lookup houses L 1
             (porphyryCusp 2 (JulianDay.normalizeAngle (ic + arc3)))
             (porphyryCusp 3 (JulianDay.normalizeAngle (ic + arc3 * 2))))
    by (split; reflexivity).
  rewrite (houseAt_lookup houses L 2
             (porphyryCusp 3 (JulianDay.normalizeAngle (ic + arc3 * 2)))
             (porphyryCusp 4 ic))
    by (split; reflexivity).
  cbn [porphyryCusp longitude cusp].
  destruct (betweenCusps ascendant _ L) eqn:E1; [now left|].
  destruct (betweenCusps (JulianDay.normalizeAngle (ic + arc3)) _ L) eqn:E2;
    [right; now left|].
  destruct (betweenCusps (JulianDay.normalizeAngle (ic + arc3 * 2)) _ L) eqn:E3;
    [right; now right|].
  exfalso. destruct Hcover as [H | [H | H]]; congruence.
Qed.

(** X18: the Porphyry array sends every longitude to house 1, 2 or 3.
    For an ascendant and an MC in [0, 360), with the MC from 1 to 134
    degrees, or 181 degrees or more, ahead of the ascendant,
    [getPlanetHouse] on the array of [calculatePorphyryHouses] returns 1,
    2 or 3 for every longitude: the intervals that the loop tests first
    already cover the circle, so no house from 4 to 12 is ever returned.
    An MC about 270 degrees ahead of the ascendant is the usual case. *)
Theorem getPlanetHouse_porphyry_houses (ascendant mc lon : Q) :
  0 <= ascendant -> ascendant < 360 -> 0 <= mc -> mc < 360 ->
  (1 <= getArc ascendant mc /\ getArc ascendant mc <= 134)
  \/ 181 <= getArc ascendant mc ->
  getPlanetHouse lon (calculatePorphyryHouses ascendant mc) = 1
  \/ getPlanetHouse lon (calculatePorphyryHouses ascendant mc) = 2
  \/ getPlanetHouse lon (calculatePorphyryHouses ascendant mc) = 3.
Proof.
  intros Ha0 Ha1 Hm0 Hm1 Hahead.
  apply porphyry_houses_first_three; try assumption.
  - intros E. unfold getArc in Hahead.
    destruct (Js.ltb (mc - ascendant) 0) eqn:Earc;
      [apply ltb_lt in Earc | apply ltb_ge in Earc]; lra.
  - destruct Hahead as [[_ H] | H]; [left | right]; lra.
Qed.

Lemma getPlanetHouse_porphyry_houses_witness :
  getPlanetHouse 200 (calculatePorphyryHouses 100 10) = 1
  \/ getPlanetHouse 200 (calculatePorphyryHouses 100 10) = 2
  \/ getPlanetHouse 200 (calculatePorphyryHouses 100 10) = 3.
Proof.
  apply (getPlanetHouse_porphyry_houses 100 10 200);
    try (vm_compute; congruence).
  right. vm_compute. congruence.
Defined.

(** *** What [getPlanetHouse] returns *)

Lemma getPlanetHouseLoop_result (houses : list House) (lon : Q)
    (indices : list nat) (found : Q) :
  getPlanetHouseLoop houses lon indices = Some found ->
  exists i h,
    In i indices /\ houses !! i = Some h /\ found = cusp h
    /\ inHouse houses lon i = true.
Proof.
  induction indices as [|i indices IH]; [discriminate|].
  cbn [getPlanetHouseLoop].
  destruct (houseAt houses lon i) as [c|] eqn:E.
  - intros [= <-].
    assert (Hin : inHouse houses lon i = true) by (unfold inHouse; now rewrite E).
    unfold houseAt in E.
    destruct (houses !! i) as [h|] eqn:Eh; [|discriminate].
    destruct (houses !! ((i + 1) mod length houses)%nat); [|discriminate].
    destruct (betweenCusps _ _ _); [|discriminate].
    injection E as <-. exists i, h. cbn. auto.
  - intros Hrest. destruct (IH Hrest) as (j & h & Hj & Hh).
    exists j, h. cbn. tauto.
Qed.

End HouseArcs.

Section HouseAngles.

Import Houses.

Context `{MathLib}.

Lemma calculateAscendant_range (lst latitude epsilon : Q) :
  0 <= calculateAscendant lst latitude epsilon
  /\ calculateAscendant lst latitude epsilon < 360.
Proof. unfold calculateAscendant. apply normalizeAngle_range. Qed.

(** The house arrays of the three systems, whatever the name of the
    system. *)
Lemma calculateHouses_system (jd lat lon : Q) (system : string) :
  let asc :=
    calculateAscendant (JulianDay.calculateLST jd lon) lat
      (JulianDay.calculateObliquity jd) in
  let mc :=
    calculateMC (JulianDay.calculateLST jd lon)
      (JulianDay.calculateObliquity jd) in
  houses (calculateHouses jd lat lon system)
  = calculateWholeSignHouses asc
  \/ houses (calculateHouses jd lat lon system)
     = calculateEqualHouses asc
  \/ houses (calculateHouses jd lat lon system)
     = calculatePorphyryHouses asc mc.
Proof.
  unfold calculateHouses. cbv zeta. cbn [houses].
  destruct (_ || _); [now left|]. destruct (String.eqb _ _); tauto.
Qed.

(** X21: the ascendant is in the first house.  In every house system,
    [getPlanetHouse] on the ascendant of [calculateHouses] and its array
    returns 1. *)
Theorem ascendant_in_first_house (jd lat lon : Q) (system : string) :
  let data := calculateHouses jd lat lon system in
  getPlanetHouse (ascendant data) (houses data) == 1.
Proof.
  intros data.
  pose proof (calculateHouses_system jd lat lon system) as Hsys.
  cbv zeta in Hsys. fold data in Hsys.
  assert (Hasc : ascendant data
                 = calculateAscendant (JulianDay.calculateLST jd lon)
                     lat (JulianDay.calculateObliquity jd)) by reflexivity.
  rewrite Hasc.
  destruct (calculateAscendant_range (JulianDay.calculateLST jd lon)
              lat (JulianDay.calculateObliquity jd)) as [Ha0 Ha1].
  set (asc := calculateAscendant _ _ _) in *.
  set (mc0 := calculateMC _ _) in *.
  clearbody asc mc0. clear Hasc.
  destruct Hsys as [-> | [-> | ->]].
  - (* Whole Sign *)
    rewrite (regular_houses (calculateWholeSignHouses asc)
               (30 * Js.floor (asc / 30)) asc eq_refl
               (fun i h => whole_sign_houses_regular asc i h Ha0)).
    assert (Hs0 : Js.floor (asc / 30) <= asc / 30) by apply floor_le.
    assert (Hs1 : asc / 30 < Js.floor (asc / 30) + 1) by apply floor_lt.
    assert (Hasc : asc == 30 * (asc / 30)) by field.
    rewrite (floor_proper _ (inject_Z 0 + (asc - 30 * Js.floor (asc / 30)) / 30)).
    + rewrite floor_shift; [reflexivity | |].
      * apply Qle_shift_div_l; lra.
      * apply Qlt_shift_div_r; lra.
    + rewrite normalizeAngle_id by lra. change (inject_Z 0) with 0. ring.
  - (* Equal *)
    rewrite (regular_houses (calculateEqualHouses asc) asc asc eq_refl
               (equal_houses_regular asc)).
    rewrite (floor_proper _ (inject_Z 0 + 0)); [reflexivity|].
    rewrite (normalizeAngle_proper _ 0) by ring.
    reflexivity.
  - (* Porphyry *)
    unfold getPlanetHouse. rewrite calculatePorphyryHouses_sorted. cbv zeta.
    cbn [length seq getPlanetHouseLoop].
    match goal with
    | |- context [houseAt ?l _ 0] => set (houses0 := l)
    end.
    rewrite (houseAt_lookup houses0 _ 0 (porphyryCusp 1 asc)
               (porphyryCusp 2
                  (JulianDay.normalizeAngle
                     (JulianDay.normalizeAngle (mc0 + 180)
                      + getArc (JulianDay.normalizeAngle (asc + 180))
                          (JulianDay.normalizeAngle (mc0 + 180)) / 3))))
      by (split; reflexivity).
    cbn [porphyryCusp longitude cusp].
    rewrite betweenCusps_start; [reflexivity|].
    symmetry. now apply normalizeAngle_id.
Qed.

End HouseAngles.

(** ** Aspects *)

Section AspectFacts.

Import Calculator.

Lemma abs_cases (x : Q) :
  (0 <= x /\ Js.abs x == x) \/ (x < 0 /\ Js.abs x == - x).
Proof.
  unfold Js.abs. destruct (Qlt_le_dec x 0) as [Hneg | Hpos].
  - right. split; [exact Hneg|]. apply Qabs_neg. lra.
  - left. split; [exact Hpos|]. now apply Qabs_pos.
Qed.

Lemma abs_le (x b : Q) : Js.leb (Js.abs x) b = true <-> - b <= x /\ x <= b.
Proof. rewrite leb_le. unfold Js.abs. apply Qabs_Qle_condition. Qed.

(** With the default orbs the five windows do not meet: a pair of
    longitudes has at most one aspect. *)
Lemma aspectsBetween_default (first second : Body) :
  (length (aspectsBetween defaultOrbs first second) <= 1)%nat.
Proof.
  unfold aspectsBetween. cbv zeta.
  generalize (separation (bodyLongitude first) (bodyLongitude second)).
  intros diff.
  cbn [aspectTypes defaultOrbs conjunction opposition trine square sextile
       flat_map orb angle name app].
  destruct (Js.leb (Js.abs (diff - 0)) 8) eqn:E1;
    destruct (Js.leb (Js.abs (diff - 180)) 8) eqn:E2;
    destruct (Js.leb (Js.abs (diff - 120)) 8) eqn:E3;
    destruct (Js.leb (Js.abs (diff - 90)) 7) eqn:E4;
    destruct (Js.leb (Js.abs (diff - 60)) 6) eqn:E5;
    cbn [app length]; try lia; exfalso;
    repeat match goal with
      | H : Js.leb (Js.abs _) _ = true |- _ => apply abs_le in H
      | H : Js.leb (Js.abs _) _ = false |- _ => clear H
      end; lra.
Qed.

(** X22: with the default orbs [calculateAspects] reports at most one
    aspect for each pair of planets, so at most [n (n - 1) / 2] aspects
    for [n] planets. *)
Theorem calculateAspects_default_count (planets : list Body) :
  (2 * length (calculateAspects planets defaultOrbs)
   <= length planets * (length planets - 1))%nat.
Proof.
  induction planets as [|first rest IH]; [cbn; lia|].
  cbn [calculateAspects length]. rewrite length_app.
  assert (Hrow : (length (flat_map (aspectsBetween defaultOrbs first) rest)
                  <= length rest)%nat).
  { clear IH. induction rest as [|second rest IH]; [cbn; lia|].
    cbn [flat_map length]. rewrite length_app.
    pose proof (aspectsBetween_default first second). lia. }
  nia.
Qed.

(** X23: the separation that [calculateAspects] compares with the aspect
    angles is the shorter arc between the two longitudes.  For longitudes
    from 0 to 360 it is between 0 and 180, it is the smaller of the
    difference of the longitudes and what that difference leaves of the
    full turn, and it is the same in both orders of the pair; so the
    aspects found for a pair have the same names whichever planet comes
    first. *)
Theorem separation_on_circle (l1 l2 : Q) :
  0 <= l1 -> l1 <= 360 -> 0 <= l2 -> l2 <= 360 ->
  (0 <= separation l1 l2 /\ separation l1 l2 <= 180)
  /\ (separation l1 l2 <= Qabs (l1 - l2)
      /\ separation l1 l2 <= 360 - Qabs (l1 - l2)
      /\ (separation l1 l2 == Qabs (l1 - l2)
          \/ separation l1 l2 == 360 - Qabs (l1 - l2)))
  /\ separation l1 l2 == separation l2 l1
  /\ (forall (orbs : Orbs) (name1 name2 : string),
        map aspect
          (aspectsBetween orbs
             {| bodyName := name1; bodyLongitude := l1 |}
             {| bodyName := name2; bodyLongitude := l2 |})
        = map aspect
            (aspectsBetween orbs
               {| bodyName := name2; bodyLongitude := l2 |}
               {| bodyName := name1; bodyLongitude := l1 |})).
Proof.
  intros H10 H11 H20 H21.
  assert (Hsym : separation l1 l2 == separation l2 l1).
  { unfold separation. cbv zeta.
    destruct (abs_cases (l1 - l2)) as [[Hs Ha] | [Hs Ha]];
      destruct (abs_cases (l2 - l1)) as [[Hs' Ha'] | [Hs' Ha']];
      destruct (Js.ltb 180 (Js.abs (l1 - l2))) eqn:E1;
      destruct (Js.ltb 180 (Js.abs (l2 - l1))) eqn:E2;
      first [apply ltb_lt in E1 | apply ltb_ge in E1];
      first [apply ltb_lt in E2 | apply ltb_ge in E2]; lra. }
  split; [|split; [|split]].
  - unfold separation. cbv zeta.
    destruct (abs_cases (l1 - l2)) as [[Hs Ha] | [Hs Ha]];
      destruct (Js.ltb 180 (Js.abs (l1 - l2))) eqn:E1;
      first [apply ltb_lt in E1 | apply ltb_ge in E1]; lra.
  - unfold separation. cbv zeta. change (Js.abs (l1 - l2)) with (Qabs (l1 - l2)).
    destruct (Js.ltb 180 (Qabs (l1 - l2))) eqn:E1;
      [apply ltb_lt in E1 | apply ltb_ge in E1].
    + repeat split; lra.
    + repeat split; lra.
  - exact Hsym.
  - intros orbs name1 name2. unfold aspectsBetween. cbv zeta.
    cbn [bodyLongitude bodyName].
    revert Hsym.
    generalize (separation l2 l1). generalize (separation l1 l2).
    intros d d' E.
    induction (aspectTypes orbs) as [|t types IH]; [reflexivity|].
    cbn [flat_map]. rewrite !map_app, IH. f_equal.
    destruct (orb t) as [allowed|]; [|reflexivity].
    assert (Eorb : Js.abs (d - angle t) == Js.abs (d' - angle t)).
    { unfold Js.abs. now rewrite E. }
    rewrite (leb_proper _ _ Eorb _ _ (Qeq_refl allowed)).
    destruct (Js.leb _ allowed); reflexivity.
Qed.

End AspectFacts.

Lemma separation_on_circle_witness :
  (0 <= Calculator.separation 350 10 /\ Calculator.separation 350 10 <= 180)
  /\ (Calculator.separation 350 10 <= Qabs (350 - 10)
      /\ Calculator.separation 350 10 <= 360 - Qabs (350 - 10)
      /\ (Calculator.separation 350 10 == Qabs (350 - 10)
          \/ Calculator.separation 350 10 == 360 - Qabs (350 - 10)))
  /\ Calculator.separation 350 10 == Calculator.separation 10 350
  /\ (forall (orbs : Calculator.Orbs) (name1 name2 : string),
        map Calculator.aspect
          (Calculator.aspectsBetween orbs
             {| Calculator.bodyName := name1; Calculator.bodyLongitude := 350 |}
             {| Calculator.bodyName := name2; Calculator.bodyLongitude := 10 |})
        = map Calculator.aspect
            (Calculator.aspectsBetween orbs
               {| Calculator.bodyName := name2; Calculator.bodyLongitude := 10 |}
               {| Calculator.bodyName := name1; Calculator.bodyLongitude := 350 |})).
Proof. apply (separation_on_circle 350 10); vm_compute; congruence. Defined.

(** ** Kepler positions of the ten bodies *)

Section AllPlanets.

Context `{MathLib}.

Lemma calculatePlanetPosition_known (planet : string)
    (constants : Planets.Constants) (jd : Q) :
  Planets.PLANETARY_CONSTANTS !! planet = Some constants ->
  exists position,
    Planets.calculatePlanetPosition planet jd = inr position
    /\ Planets.planet position = planet
    /\ Planets.julianDay position = jd
    /\ 0 <= Planets.longitude (Planets.zodiac position)
    /\ Planets.longitude (Planets.zodiac position) < 360.
Proof.
  intros Hlook. unfold Planets.calculatePlanetPosition. rewrite Hlook.
  cbv zeta.
  match goal with
  | |- context [Planets.longitudeToZodiac ?l] =>
      destruct (longitudeToZodiac_ok l) as (z & Hz & Hlon); rewrite Hz
  end.
  cbn [bind ret]. eexists. split; [reflexivity|].
  cbn [Planets.planet Planets.julianDay Planets.zodiac]. rewrite Hlon.
  repeat split; apply normalizeAngle_range.
Qed.

(** [calculateAllPlanets] returns the ten positions. *)
Lemma calculateAllPlanets_ok (jd : Q) :
  exists positions,
    Planets.calculateAllPlanets jd = inr positions
    /\ map Planets.planet positions
       = ["Sun"; "Moon"; "Mercury"; "Venus"; "Mars"; "Jupiter"; "Saturn";
          "Uranus"; "Neptune"; "Pluto"]%string
    /\ Forall
         (fun position =>
            Planets.julianDay position = jd
            /\ 0 <= Planets.longitude (Planets.zodiac position)
            /\ Planets.longitude (Planets.zodiac position) < 360)
         positions.
Proof.
  unfold Planets.calculateAllPlanets. cbv zeta. cbn [mapM].
  repeat match goal with
  | |- context [Planets.calculatePlanetPosition ?name jd] =>
      let c := fresh "c" in
      let E := fresh "E" in
      destruct (Planets.PLANETARY_CONSTANTS !! name) as [c|] eqn:E;
      [|vm_compute in E; discriminate];
      destruct (calculatePlanetPosition_known name c jd E)
        as (? & -> & ? & ? & ? & ?);
      clear E; cbn [bind]
  end.
  cbn [ret]. eexists. split; [reflexivity|].
  split; [cbn [map]; congruence|].
  repeat constructor; assumption.
Qed.

(** X24: [calculateAllPlanets] returns the ten bodies.  For a Julian Day
    from 0 to 10,000,000 it throws no exception and returns the positions
    of the ten bodies in the order Sun, Moon, Mercury, Venus, Mars,
    Jupiter, Saturn, Uranus, Neptune, Pluto, each with that Julian Day
    and a longitude in [0, 360). *)
Theorem calculateAllPlanets_positions (jd : Q) :
  0 <= jd -> jd <= 10000000 ->
  exists positions,
    Planets.calculateAllPlanets jd = inr positions
    /\ map Planets.planet positions
       = ["Sun"; "Moon"; "Mercury"; "Venus"; "Mars"; "Jupiter"; "Saturn";
          "Uranus"; "Neptune"; "Pluto"]%string
    /\ Forall
         (fun position =>
            Planets.julianDay position = jd
            /\ 0 <= Planets.longitude (Planets.zodiac position)
            /\ Planets.longitude (Planets.zodiac position) < 360)
         positions.
Proof. intros _ _. apply calculateAllPlanets_ok. Qed.

End AllPlanets.

Lemma calculateAllPlanets_positions_witness :
  exists positions,
    @Planets.calculateAllPlanets smallAngleMath 2451545 = inr positions
    /\ map Planets.planet positions
       = ["Sun"; "Moon"; "Mercury"; "Venus"; "Mars"; "Jupiter"; "Saturn";
          "Uranus"; "Neptune"; "Pluto"]%string
    /\ Forall
         (fun position =>
            Planets.julianDay position = 2451545
            /\ 0 <= Planets.longitude (Planets.zodiac position)
            /\ Planets.longitude (Planets.zodiac position) < 360)
         positions.
Proof.
  apply (@calculateAllPlanets_positions smallAngleMath 2451545);
    vm_compute; congruence.
Defined.

(** ** Charts *)

Section HouseNumbers.

Import Houses.

Context `{MathLib}.

Lemma calculateHouses_cusps (jd lat lon : Q) (system : string) :
  map cusp (houses (calculateHouses jd lat lon system))
  = [1; 2; 3; 4; 5; 6; 7; 8; 9; 10; 11; 12].
Proof.
  pose proof (calculateHouses_system jd lat lon system) as Hsys.
  cbv zeta in Hsys. destruct Hsys as [-> | [-> | ->]]; reflexivity.
Qed.

Lemma getPlanetHouse_cusp (lon : Q) (houses : list House) :
  getPlanetHouse lon houses = 1
  \/ In (getPlanetHouse lon houses) (map cusp houses).
Proof.
  unfold getPlanetHouse.
  destruct (getPlanetHouseLoop houses _ _) as [found|] eqn:E; [right | now left].
  apply getPlanetHouseLoop_result in E as (i & h & _ & Hh & -> & _).
  apply in_map. apply list_elem_of_In. eapply list_elem_of_lookup_2, Hh.
Qed.

(** A planet of a chart is in one of the houses 1 to 12. *)
Lemma chart_house_number (planetLongitude jd lat lon : Q) (system : string) :
  In (getPlanetHouse planetLongitude (houses (calculateHouses jd lat lon system)))
     [1; 2; 3; 4; 5; 6; 7; 8; 9; 10; 11; 12].
Proof.
  destruct (getPlanetHouse_cusp planetLongitude
              (houses (calculateHouses jd lat lon system))) as [-> | Hin].
  - now left.
  - now rewrite calculateHouses_cusps in Hin.
Qed.

End HouseNumbers.

Lemma longitudeToZodiac_longitude (lon : Q) (z : Planets.Zodiac) :
  Planets.longitudeToZodiac lon = inr z ->
  0 <= Planets.longitude z /\ Planets.longitude z < 360.
Proof.
  intros Hz. destruct (longitudeToZodiac_ok lon) as (z' & Hz' & Hlon).
  assert (z' = z) as -> by congruence.
  rewrite Hlon. apply normalizeAngle_range.
Qed.

Lemma Forall2_Forall_r {A B : Type} (R : A -> B -> Prop) (P : B -> Prop)
    (l : list A) (l' : list B) :
  Forall2 R l l' -> (forall a b, R a b -> P b) -> Forall P l'.
Proof.
  intros HR HP. induction HR; constructor; eauto.
Qed.

Section CalibratedChart.

Import Calculator.

Context `{MathLib}.
Context (EPHEMERIS_MODULES : gmap string (list Ephemeris.RawRecord)).
Context (calculateInnerPlanet : string -> Q -> option InnerPlanet).

(** The result of [calculateAtJD]: one of its two errors. *)
Lemma calculateAtJD_error (jd latitude longitude : Q) (houseSystem : string) :
  calculateAtJD EPHEMERIS_MODULES jd latitude longitude houseSystem
  = if Ephemeris.available
         (Ephemeris.checkEphemerisAvailability EPHEMERIS_MODULES jd)
    then inl (TypeError "houses.find is not a function")
    else unavailable EPHEMERIS_MODULES.
Proof.
  unfold calculateAtJD.
  destruct (Ephemeris.available _); cbn [negb]; [|reflexivity].
  match goal with
  | |- context [mapM ?f ?l] =>
      destruct (mapM_total f l) as [planets ->]
  end.
  { intros entry.
    destruct (longitudeToZodiac_ok (Ephemeris.positionLongitude (snd entry)))
      as (z & Hz & _).
    now exists z. }
  cbn [bind].
  match goal with
  | |- context [Planets.longitudeToZodiac ?l] =>
      destruct (longitudeToZodiac_ok l) as (z & -> & _)
  end.
  reflexivity.
Qed.

(** X26: the J2000 path of the calibrated [calculateBirthChart] never
    returns a chart.  When [useJ2000] is true, or when year, month and day
    are all falsy, the call ends in an error: the error of a Julian Day
    outside the Sun table when J2000.0 is not covered, and otherwise the
    [TypeError] of [houses.find], which [calculateAtJD] calls on the object
    that [calculateHouses] returned. *)
Theorem calculateBirthChart_J2000_throws (birthData : BirthData) :
  useJ2000 birthData = true
  \/ (Js.truthy (year birthData) = false
      /\ Js.truthy (month birthData) = false
      /\ Js.truthy (day birthData) = false) ->
  exists e,
    calculateBirthChart EPHEMERIS_MODULES calculateInnerPlanet birthData
    = inl e
    /\ (Ephemeris.available
          (Ephemeris.checkEphemerisAvailability EPHEMERIS_MODULES J2000_JD_TT)
        = true ->
        e = TypeError "houses.find is not a function").
Proof.
  intros Hpath. unfold calculateBirthChart.
  replace (negb (Js.truthy (year birthData))
           && negb (Js.truthy (month birthData))
           && negb (Js.truthy (day birthData)) || useJ2000 birthData)
    with true.
  2:{ destruct Hpath as [-> | (-> & -> & ->)];
        [now rewrite orb_true_r | reflexivity]. }
  rewrite calculateAtJD_error.
  destruct (Ephemeris.available _).
  - eexists. split; [reflexivity | reflexivity].
  - unfold unavailable, throw. eexists. split; [reflexivity | discriminate].
Qed.

Lemma julianDayOf_scales (birthData : BirthData)
    (jdData : JulianDay.JulianDayTT) :
  julianDayOf birthData = Some jdData ->
  JulianDay.jd_tt jdData
  == JulianDay.jd_utc jdData + JulianDay.deltaT jdData / 86400.
Proof.
  unfold julianDayOf.
  assert (Hscale : forall y m d h mi s,
             JulianDay.jd_tt (JulianDay.dateToJulianDayTT y m d h mi s)
             == JulianDay.jd_utc (JulianDay.dateToJulianDayTT y m d h mi s)
                + JulianDay.deltaT (JulianDay.dateToJulianDayTT y m d h mi s)
                  / 86400).
  { intros. unfold JulianDay.dateToJulianDayTT.
    cbn [JulianDay.jd_utc JulianDay.jd_tt JulianDay.deltaT].
    unfold TimeCorrections.utcToTT.
    generalize (TimeCorrections.calculateDeltaT y). intros dT. field. }
  destruct (_ && _).
  - destruct (year birthData), (month birthData), (day birthData),
      (hour birthData); try discriminate.
    destruct (TimeCorrections.day _); [|discriminate].
    intros [= <-]. apply Hscale.
  - destruct (year birthData), (month birthData), (day birthData);
      try discriminate.
    intros [= <-]. apply Hscale.
Qed.

Lemma ephemerisPlanet_entry (jd : Q) (entry : string * Ephemeris.Position)
    (planet0 : ChartPlanet) :
  ephemerisPlanet jd entry = inr (Some planet0) ->
  julianDay planet0 = jd
  /\ 0 <= Planets.longitude (zodiac planet0)
  /\ Planets.longitude (zodiac planet0) < 360.
Proof.
  destruct entry as [body pos]. unfold ephemerisPlanet.
  destruct (existsb _ _); [discriminate|].
  destruct (Planets.longitudeToZodiac _) as [e|z] eqn:Hz; [discriminate|].
  cbn [bind ret]. intros [= <-]. cbn [julianDay zodiac].
  split; [reflexivity|]. eapply longitudeToZodiac_longitude, Hz.
Qed.

Lemma innerPlanet_entry (jd : Q) (entry : string * InnerPlanet)
    (planet0 : ChartPlanet) :
  innerPlanet jd entry = inr planet0 ->
  julianDay planet0 = jd
  /\ 0 <= Planets.longitude (zodiac planet0)
  /\ Planets.longitude (zodiac planet0) < 360.
Proof.
  destruct entry as [name calc]. unfold innerPlanet.
  destruct (Planets.longitudeToZodiac _) as [e|z] eqn:Hz; [discriminate|].
  cbn [bind ret]. intros [= <-]. cbn [julianDay zodiac].
  split; [reflexivity|]. eapply longitudeToZodiac_longitude, Hz.
Qed.

Lemma houseZodiac_entry (house : Houses.House)
    (result : Houses.House * Planets.Zodiac) :
  houseZodiac house = inr result ->
  fst result = house
  /\ Planets.longitude (snd result)
     = JulianDay.normalizeAngle (Houses.longitude house).
Proof.
  unfold houseZodiac.
  destruct (longitudeToZodiac_ok (Houses.longitude house)) as (z & -> & Hlon).
  cbn [bind ret]. intros [= <-]. now split.
Qed.

Lemma mapM_houseZodiac (houses : list Houses.House)
    (results : list (Houses.House * Planets.Zodiac)) :
  mapM houseZodiac houses = inr results ->
  map fst results = houses
  /\ map (fun entry => Planets.longitude (snd entry)) results
     = map (fun house => JulianDay.normalizeAngle (Houses.longitude house))
         houses.
Proof.
  intros Hrun. apply mapM_inr in Hrun.
  induction Hrun as [|house result houses results Hone _ [IH1 IH2]];
    [now split|].
  apply houseZodiac_entry in Hone as [H1 H2].
  cbn [map]. now rewrite IH1, IH2, H1, H2.
Qed.

(** X27: what a chart of the calibrated [calculateBirthChart] holds.  In a
    returned chart the Julian Day (TT) is the UTC one plus deltaT/86400; every
    planet carries that Julian Day, a longitude in [0, 360) and a house
    number from 1 to 12; the twelve houses are those of [calculateHouses]
    for the chart's Julian Day, numbered 1 to 12, each with its normalised
    cusp longitude; and the four angles are those of [calculateHouses],
    normalised. *)
Theorem calculateBirthChart_chart (birthData : BirthData) (chart : Chart) :
  calculateBirthChart EPHEMERIS_MODULES calculateInnerPlanet birthData
  = inr chart ->
  let houseData :=
    Houses.calculateHouses (chartJulianDay chart) (latitude birthData)
      (longitude birthData) (chartHouseSystem chart) in
  chartJulianDay chart
  == chartJulianDayUTC chart + chartDeltaT chart / 86400
  /\ chartHouseSystem chart
     = default "porphyry"%string (houseSystem birthData)
  /\ Forall
       (fun entry =>
          julianDay (fst entry) = chartJulianDay chart
          /\ (0 <= Planets.longitude (zodiac (fst entry))
              /\ Planets.longitude (zodiac (fst entry)) < 360)
          /\ snd entry
             = Houses.getPlanetHouse
                 (Planets.longitude (zodiac (fst entry)))
                 (Houses.houses houseData)
          /\ In (snd entry) [1; 2; 3; 4; 5; 6; 7; 8; 9; 10; 11; 12])
       (planets chart)
  /\ map fst (houses chart) = Houses.houses houseData
  /\ map (fun entry => Houses.cusp (fst entry)) (houses chart)
     = [1; 2; 3; 4; 5; 6; 7; 8; 9; 10; 11; 12]
  /\ map (fun entry => Planets.longitude (snd entry)) (houses chart)
     = map (fun house => JulianDay.normalizeAngle (Houses.longitude house))
         (Houses.houses houseData)
  /\ Planets.longitude (ascendant chart)
     = JulianDay.normalizeAngle (Houses.ascendant houseData)
  /\ Planets.longitude (mc chart)
     = JulianDay.normalizeAngle (Houses.mc houseData)
  /\ Planets.longitude (descendant chart)
     = JulianDay.normalizeAngle (Houses.descendant houseData)
  /\ Planets.longitude (ic chart)
     = JulianDay.normalizeAngle (Houses.ic houseData).
Proof.
  unfold calculateBirthChart.
  destruct (_ || useJ2000 birthData).
  { rewrite calculateAtJD_error. unfold unavailable, throw.
    destruct (Ephemeris.available _); discriminate. }
  destruct (julianDayOf birthData) as [jdData|] eqn:Hjd; [|discriminate].
  destruct (Ephemeris.available _) eqn:Havailable; [|discriminate].
  cbn [negb].
  destruct (Planets.longitudeToZodiac (Moon.moonLongitude _))
    as [e|moonZodiac] eqn:Hmoon; [discriminate|].
  cbn [bind].
  destruct (mapM (ephemerisPlanet _) _) as [e|outer] eqn:Houter; [discriminate|].
  cbn [bind].
  destruct (mapM (innerPlanet _) _) as [e|inner] eqn:Hinner; [discriminate|].
  cbn [bind].
  destruct (Planets.longitudeToZodiac (Houses.ascendant _))
    as [e|ascZ] eqn:Hasc; [discriminate|].
  cbn [bind].
  destruct (Planets.longitudeToZodiac (Houses.mc _))
    as [e|mcZ] eqn:Hmc; [discriminate|].
  cbn [bind].
  destruct (Planets.longitudeToZodiac (Houses.descendant _))
    as [e|dscZ] eqn:Hdsc; [discriminate|].
  cbn [bind].
  destruct (Planets.longitudeToZodiac (Houses.ic _))
    as [e|icZ] eqn:Hic; [discriminate|].
  cbn [bind].
  destruct (mapM houseZodiac _) as [e|hs] eqn:Hhouses; [discriminate|].
  cbn [bind ret]. intros [= <-].
  cbn [chartJulianDay chartJulianDayUTC chartDeltaT chartHouseSystem planets
       houses ascendant mc descendant ic].
  set (jd := JulianDay.jd_tt jdData) in *.
  set (houseData :=
         Houses.calculateHouses jd (latitude birthData) (longitude birthData)
           (default "porphyry"%string (houseSystem birthData))) in *.
  cbv zeta.
  destruct (mapM_houseZodiac _ _ Hhouses) as [Hfst Hlon].
  split; [exact (julianDayOf_scales _ _ Hjd)|].
  split; [reflexivity|].
  split.
  { apply Forall_map. cbn [fst snd].
    assert (Hplanets :
              Forall
                (fun planet0 =>
                   julianDay planet0 = jd
                   /\ 0 <= Planets.longitude (zodiac planet0)
                   /\ Planets.longitude (zodiac planet0) < 360)
                (omap id outer ++ inner
                 ++ [ {| planet := "Moon";
                         zodiac := moonZodiac;
                         julianDay := jd;
                         color := colorOf "Moon" "#C0C0C0";
                         source := "J2000-ELP2000";
                         interpolated := None;
                         method :=
                           Some (Moon.method
                                   (Moon.calculateMoonPosition jd
                                      Moon.noOptions)) |} ])).
    { apply Forall_app. split; [|apply Forall_app; split].
      - apply mapM_inr in Houter. clear - Houter.
        induction Houter as [|entry [planet0|] positions outer Hone _ IH];
          cbn [omap id]; [constructor | | exact IH].
        constructor; [|exact IH]. eapply ephemerisPlanet_entry, Hone.
      - apply mapM_inr in Hinner.
        eapply Forall2_Forall_r; [exact Hinner|].
        intros entry planet0 Hone. eapply innerPlanet_entry, Hone.
      - constructor; [|constructor]. cbn [julianDay zodiac].
        split; [reflexivity|]. eapply longitudeToZodiac_longitude, Hmoon. }
    eapply List.Forall_impl; [|exact Hplanets].
    intros planet0 (Hj & H0 & H1).
    repeat split; try assumption.
    apply chart_house_number. }
  split; [exact Hfst|].
  split.
  { rewrite <- (map_map fst Houses.cusp), Hfst.
    apply calculateHouses_cusps. }
  split; [exact Hlon|].
  assert (Hangle : forall lon z,
             Planets.longitudeToZodiac lon = inr z ->
             Planets.longitude z = JulianDay.normalizeAngle lon).
  { intros lon z Hz.
    destruct (longitudeToZodiac_ok lon) as (z' & Hz' & Hlon').
    assert (z' = z) as -> by congruence.
    exact Hlon'. }
  repeat split; apply Hangle; assumption.
Qed.

End CalibratedChart.

Section KeplerChart.

Import MainCalculator.

Context `{MathLib}.

Lemma main_houseZodiac_total (house : Houses.House) :
  exists result, houseZodiac house = inr result.
Proof.
  unfold houseZodiac.
  destruct (longitudeToZodiac_ok (Houses.longitude house)) as (z & -> & _).
  now eexists.
Qed.

Lemma main_houseZodiac_houses (houses : list Houses.House)
    (results : list (Houses.House * Planets.Zodiac)) :
  mapM houseZodiac houses = inr results -> map fst results = houses.
Proof.
  intros Hrun. apply mapM_inr in Hrun.
  induction Hrun as [|house result houses results Hone _ IH]; [reflexivity|].
  unfold houseZodiac in Hone.
  destruct (Planets.longitudeToZodiac _); [discriminate|].
  injection Hone as <-. cbn [map fst]. now rewrite IH.
Qed.

(** X28: the chart of calculator.js.  With year, month, day, latitude and
    longitude given, a Julian Day from 0 to 10,000,000, a latitude from
    -90 to 90 and a longitude from -180 to 180, [calculateBirthChart]
    returns a chart: its Julian Day is [dateToJulianDay] with hour 12,
    minute 0 and second 0 for the missing ones, its planets are the ten
    bodies in order, each with that Julian Day, a longitude in [0, 360)
    and a house number from 1 to 12, and its houses are those of
    [calculateHouses], numbered 1 to 12.  Without a year, a month, a day,
    a latitude or a longitude the call ends in an error. *)
Theorem calculateBirthChart_kepler_chart (birthData : BirthData) :
  (forall y m d lat lon : Q,
      year birthData = Some y -> month birthData = Some m ->
      day birthData = Some d ->
      latitude birthData = Some lat -> longitude birthData = Some lon ->
      let jd :=
        JulianDay.dateToJulianDay y m d (default 12 (hour birthData))
          (default 0 (minute birthData)) (default 0 (second birthData)) in
      0 <= jd -> jd <= 10000000 ->
      -90 <= lat -> lat <= 90 -> -180 <= lon -> lon <= 180 ->
      exists chart,
        calculateBirthChart birthData = inr chart
        /\ julianDay chart = jd
        /\ chartHouseSystem chart
           = default "porphyry"%string (houseSystem birthData)
        /\ map (fun entry => Planets.planet (fst entry)) (planets chart)
           = ["Sun"; "Moon"; "Mercury"; "Venus"; "Mars"; "Jupiter"; "Saturn";
              "Uranus"; "Neptune"; "Pluto"]%string
        /\ Forall
             (fun entry =>
                Planets.julianDay (fst entry) = jd
                /\ (0 <= Planets.longitude (Planets.zodiac (fst entry))
                    /\ Planets.longitude (Planets.zodiac (fst entry)) < 360)
                /\ In (snd entry) [1; 2; 3; 4; 5; 6; 7; 8; 9; 10; 11; 12])
             (planets chart)
        /\ map fst (houses chart)
           = Houses.houses
               (Houses.calculateHouses jd lat lon (chartHouseSystem chart))
        /\ map (fun entry => Houses.cusp (fst entry)) (houses chart)
           = [1; 2; 3; 4; 5; 6; 7; 8; 9; 10; 11; 12])
  /\ (year birthData = None \/ month birthData = None
      \/ day birthData = None \/ latitude birthData = None
      \/ longitude birthData = None ->
      exists e, calculateBirthChart birthData = inl e).
Proof.
  split.
  - intros y m d lat lon Hy Hm Hd Hlat Hlon jd _ _ _ _ _ _.
    unfold calculateBirthChart. rewrite Hy, Hm, Hd, Hlat, Hlon.
    cbv zeta. fold jd.
    destruct (calculateAllPlanets_ok jd) as (positions & -> & Hnames & Hall).
    cbn [bind].
    repeat match goal with
    | |- context [Planets.longitudeToZodiac ?l] =>
        destruct (longitudeToZodiac_ok l) as (? & -> & _); cbn [bind]
    end.
    match goal with
    | |- context [mapM houseZodiac ?l] =>
        destruct (mapM_total houseZodiac l main_houseZodiac_total)
          as [hs Hhs]; rewrite Hhs
    end.
    cbn [bind ret]. eexists. split; [reflexivity|].
    cbn [julianDay chartHouseSystem planets houses].
    apply main_houseZodiac_houses in Hhs.
    split; [reflexivity|]. split; [reflexivity|].
    split; [now rewrite map_map|].
    split.
    { apply Forall_map. cbn [fst snd].
      eapply List.Forall_impl; [|exact Hall].
      intros position (Hj & H0 & H1).
      repeat split; try assumption. apply chart_house_number. }
    split; [exact Hhs|].
    rewrite <- (map_map fst Houses.cusp), Hhs.
    apply calculateHouses_cusps.
  - intros Hnone. unfold calculateBirthChart.
    destruct (year birthData), (month birthData), (day birthData);
      try (unfold throw; eexists; reflexivity).
    cbv zeta.
    destruct (calculateAllPlanets_ok
                (JulianDay.dateToJulianDay q q0 q1 (default 12 (hour birthData))
                   (default 0 (minute birthData))
                   (default 0 (second birthData))))
      as (positions & -> & _).
    cbn [bind].
    destruct (latitude birthData), (longitude birthData);
      try (unfold throw; eexists; reflexivity).
    destruct Hnone as [Hnone | [Hnone | [Hnone | [Hnone | Hnone]]]];
      discriminate.
Qed.

End KeplerChart.

Lemma calculateBirthChart_J2000_throws_witness :
  exists e,
    @Calculator.calculateBirthChart smallAngleMath Calculator.partialModules
      (Calculator.innerAt 100)
      {| Calculator.year := Some 2000; Calculator.month := Some 1;
         Calculator.day := Some 1; Calculator.hour := Some 12;
         Calculator.minute := Some 0; Calculator.second := Some 0;
         Calculator.latitude := 0; Calculator.longitude := 0;
         Calculator.houseSystem := None; Calculator.timezoneOffset := None;
         Calculator.isLocalTime := false; Calculator.useJ2000 := true |}
    = inl e
    /\ (Ephemeris.available
          (Ephemeris.checkEphemerisAvailability Calculator.partialModules
             Calculator.J2000_JD_TT) = true ->
        e = TypeError "houses.find is not a function").
Proof.
  apply (@calculateBirthChart_J2000_throws smallAngleMath).
  left. reflexivity.
Defined.

Lemma calculateBirthChart_chart_witness :
  exists chart,
    @Calculator.calculateBirthChart smallAngleMath Calculator.partialModules
      (Calculator.innerAt 100) Calculator.noon2000 = inr chart
    /\ Calculator.chartJulianDay chart
       == Calculator.chartJulianDayUTC chart
          + Calculator.chartDeltaT chart / 86400
    /\ Forall
         (fun entry => In (snd entry) [1; 2; 3; 4; 5; 6; 7; 8; 9; 10; 11; 12])
         (Calculator.planets chart).
Proof.
  destruct (@noon2000_chart smallAngleMath (Calculator.innerAt 100))
    as (chart & Hrun & _).
  exists chart. split; [exact Hrun|].
  pose proof (@calculateBirthChart_chart smallAngleMath
                Calculator.partialModules (Calculator.innerAt 100)
                Calculator.noon2000 chart Hrun) as Hchart.
  cbv zeta in Hchart.
  destruct Hchart as (Hscale & _ & Hplanets & _).
  split; [exact Hscale|].
  eapply List.Forall_impl; [|exact Hplanets].
  intros entry (_ & _ & _ & Hin). exact Hin.
Defined.

Lemma calculateBirthChart_kepler_chart_witness :
  exists chart,
    @MainCalculator.calculateBirthChart smallAngleMath MainCalculator.noon2000
    = inr chart
    /\ map (fun entry => Planets.planet (fst entry))
         (MainCalculator.planets chart)
       = ["Sun"; "Moon"; "Mercury"; "Venus"; "Mars"; "Jupiter"; "Saturn";
          "Uranus"; "Neptune"; "Pluto"]%string.
Proof.
  assert (Hjd0 : 0 <= JulianDay.dateToJulianDay 2000 1 1 12 0 0)
    by (vm_compute; congruence).
  assert (Hjd1 : JulianDay.dateToJulianDay 2000 1 1 12 0 0 <= 10000000)
    by (vm_compute; congruence).
  assert (Hlat0 : -90 <= 0) by (vm_compute; congruence).
  assert (Hlat1 : 0 <= 90) by (vm_compute; congruence).
  assert (Hlon0 : -180 <= 0) by (vm_compute; congruence).
  assert (Hlon1 : 0 <= 180) by (vm_compute; congruence).
  destruct (proj1 (@calculateBirthChart_kepler_chart smallAngleMath
                     MainCalculator.noon2000)
              2000 1 1 0 0 eq_refl eq_refl eq_refl eq_refl eq_refl
              Hjd0 Hjd1 Hlat0 Hlat1 Hlon0 Hlon1)
    as (chart & Hrun & _ & _ & Hnames & _).
  exists chart. split; [exact Hrun | exact Hnames].
Defined.
